(** * Phototonic image viewer: the transform, grading, mirror and zoom-fit code

    A shallow embedding of the numeric core of [ImageViewer.cpp]:
    [resizeImage], [transform], [mirror], [rgbToHsl], [hslToRgb] and
    [colorize], with the properties the specification states about them.

    Conventions of the embedding.
    - A C [int] is a [Z]; an [unsigned char] is a [Z] reduced modulo 256 at
      every store ([to_uchar]).
    - A C [double] is a primitive binary64 [float]; [+ - * /] and the
      comparisons are the IEEE operations of the kernel.  A C [float] is a
      binary64 value that has been rounded to binary32 ([to_f32]).
    - A [QRgb] is the 32-bit word 0xAARRGGBB as a [Z].
    - Functions of the C math library and of Qt whose bodies are not part
      of the repository are either parameters ([tan], [pow], the smooth
      rotation) or transcribed from Qt's documented behaviour (the [QSize],
      [QImage] and [QPainter] operations). *)

From Stdlib Require Import ZArith List Bool Lia.
From Stdlib Require Import Floats Uint63.
From Stdlib Require PArray.
Import ListNotations.

Set Warnings "-inexact-float".

Open Scope Z_scope.

(* ================================================================== *)
(** ** Conversions between C integers and doubles *)

Module Cast.

(** [(double) z] for an [int] [z]: exact below 2^53. *)
Definition Z2F (z : Z) : float :=
  match z with
  | Z0 => 0%float
  | Zpos _ => PrimFloat.of_uint63 (Uint63.of_Z z)
  | Zneg p => (- PrimFloat.of_uint63 (Uint63.of_Z (Zpos p)))%float
  end.

(** The integral part of [|f|]: the double is split into its normalised
    mantissa (53 bits, as an integer) and its binary exponent, and the
    mantissa is shifted accordingly.  Below 1 the result is 0. *)
Definition trunc_abs (f : float) : int :=
  let a := PrimFloat.abs f in
  let (m, se) := PrimFloat.frshiftexp a in
  let mant := PrimFloat.normfr_mantissa m in
  if (se <=? 2101)%uint63 then 0%uint63
  else let e := (se - 2101)%uint63 in
       if (e <=? 53)%uint63 then (mant >> (53 - e))%uint63
       else (mant << (e - 53))%uint63.

(** [(int) f]: truncation toward zero.  (Out of the range of [int], and on
    NaN, C leaves the result undefined; the model returns what the mantissa
    arithmetic gives.) *)
Definition F2Z (f : float) : Z :=
  let v := Uint63.to_Z (trunc_abs f) in
  if (f <? 0)%float then - v else v.

(** Store into an [unsigned char]. *)
Definition to_uchar (z : Z) : Z := z mod 256.

(** Rounding of a double to the nearest binary32 value, ties to even
    (the store into a C [float]). *)
Definition to_f32 (f : float) : float :=
  match Prim2SF f with
  | S754_finite s m e => SF2Prim (binary_round 24 128 s m e)
  | _ => f
  end.

End Cast.
Import Cast.

(* ================================================================== *)
(** ** The macros and the clamp *)

(** [#define ROUND(x) ((int) ((x) + 0.5))] *)
Definition ROUND (x : float) : Z := F2Z (x + 0.5)%float.

(** [#define MAX(a, b) ((a) > (b) ? (a) : (b))] *)
Definition MAX (a b : Z) : Z := if a >? b then a else b.

(** [#define MIN(a, b) ((a) < (b) ? (a) : (b))] *)
Definition MIN (a b : Z) : Z := if a <? b then a else b.

Definition bound0To255 (val : Z) : Z :=
  if val >? 255 then 255 else if val <? 0 then 0 else val.

(* ================================================================== *)
(** ** RGB <-> HSL *)

(** The local [value] of [hslValue]: the hue is folded once by 255 and
    the ramp between [n1] and [n2] is read at it. *)
Definition hslValue_real (n1 n2 hue : float) : float :=
  let hue := if (255 <? hue)%float then (hue - 255)%float
             else if (hue <? 0)%float then (hue + 255)%float
             else hue in
  if (hue <? 42.5)%float then (n1 + (n2 - n1) * (hue / 42.5))%float
  else if (hue <? 127.5)%float then n2
  else if (hue <? 170)%float then (n1 + (n2 - n1) * ((170 - hue) / 42.5))%float
  else n1.

Definition hslValue (n1 n2 hue : float) : Z :=
  ROUND (hslValue_real n1 n2 hue * 255.0)%float.

(** The doubles [h], [s], [l] of [rgbToHsl] before they are rounded into
    the three [unsigned char] results. *)
Definition rgbToHsl_real (r g b : Z) : float * float * float :=
  let max := if r >? g then MAX r b else MAX g b in
  let min := if r >? g then MIN g b else MIN r b in
  let l := (Z2F (max + min) / 2.0)%float in
  if max =? min then (0%float, 0%float, l)
  else
    let delta := max - min in
    let s := if (l <? 128)%float
             then (255 * Z2F delta / Z2F (max + min))%float
             else (255 * Z2F delta / Z2F (511 - max - min))%float in
    let h := if r =? max then (Z2F (g - b) / Z2F delta)%float
             else if g =? max then (2 + Z2F (b - r) / Z2F delta)%float
             else (4 + Z2F (r - g) / Z2F delta)%float in
    let h := (h * 42.5)%float in
    let h := if (h <? 0)%float then (h + 255)%float
             else if (255 <? h)%float then (h - 255)%float
             else h in
    (h, s, l).

(** [rgbToHsl r g b] = the values left in [*hue], [*sat], [*light]. *)
Definition rgbToHsl (r g b : Z) : Z * Z * Z :=
  let '(h, s, l) := rgbToHsl_real r g b in
  (to_uchar (ROUND h), to_uchar (ROUND s), to_uchar (ROUND l)).

(** [hslToRgb h s l] = the values left in [*red], [*green], [*blue]. *)
Definition hslToRgb (h s l : float) : Z * Z * Z :=
  if (s =? 0)%float then
    (to_uchar (F2Z l), to_uchar (F2Z l), to_uchar (F2Z l))
  else
    let m2 := if (l <? 128)%float
              then ((l * (255 + s)) / 65025.0)%float
              else ((l + s - (l * s) / 255.0) / 255.0)%float in
    let m1 := ((l / 127.5) - m2)%float in
    (to_uchar (hslValue m1 m2 (h + 85)%float),
     to_uchar (hslValue m1 m2 h),
     to_uchar (hslValue m1 m2 (h - 85)%float)).

(** The round trip of the specification: the three [unsigned char]s of
    [rgbToHsl] are passed (as doubles) to [hslToRgb]. *)
Definition roundTrip (r g b : Z) : Z * Z * Z :=
  let '(h, s, l) := rgbToHsl r g b in
  hslToRgb (Z2F h) (Z2F s) (Z2F l).

(* ================================================================== *)
(** ** Qt: pixels, sizes, images *)

Module Qt.

(** A [QRgb] is an [unsigned int] holding 0xAARRGGBB. *)
Definition QRgb := Z.

Definition qRed (rgb : QRgb) : Z := Z.land (Z.shiftr rgb 16) 255.
Definition qGreen (rgb : QRgb) : Z := Z.land (Z.shiftr rgb 8) 255.
Definition qBlue (rgb : QRgb) : Z := Z.land rgb 255.
Definition qAlpha (rgb : QRgb) : Z := Z.shiftr rgb 24.

Definition qRgba (r g b a : Z) : QRgb :=
  Z.lor (Z.lor (Z.lor (Z.shiftl (Z.land a 255) 24)
                      (Z.shiftl (Z.land r 255) 16))
               (Z.shiftl (Z.land g 255) 8))
        (Z.land b 255).

Definition qRgb (r g b : Z) : QRgb := qRgba r g b 255.

(** The pixel is a 32-bit word. *)
Definition is_QRgb (p : QRgb) : Prop := 0 <= p < 2 ^ 32.

(** The image formats the grading code accepts without conversion, and the
    format of a null image. *)
Inductive Format :=
| Format_Invalid
| Format_RGB32
| Format_ARGB32
| Format_ARGB32_Premultiplied.

(** A [QImage] with 32-bit pixels: [bits] is the buffer behind
    [scanLine], row after row, [width * height] words long. *)
Record QImage := mkImage {
  format : Format;
  width : Z;
  height : Z;
  bits : list QRgb
}.

(** [QImage()], the null image. *)
Definition nullImage : QImage := mkImage Format_Invalid 0 0 [].

Definition hasAlphaChannel (img : QImage) : bool :=
  match format img with
  | Format_ARGB32 | Format_ARGB32_Premultiplied => true
  | _ => false
  end.

(** The word at column [x] of [scanLine y]. *)
Definition pixelAt (img : QImage) (x y : Z) : QRgb :=
  nth (Z.to_nat (y * width img + x)) (bits img) 0.

(** The buffer has one word per pixel. *)
Definition wf_image (img : QImage) : Prop :=
  0 <= width img /\ 0 <= height img /\
  Z.of_nat (length (bits img)) = width img * height img.

(** The buffer of a [w] x [h] image whose pixel at column [x], row [y] is
    [f x y]. *)
Definition mkBits (w h : Z) (f : Z -> Z -> QRgb) : list QRgb :=
  map (fun n => f (Z.of_nat n mod w) (Z.of_nat n / w)) (seq 0 (Z.to_nat (w * h))).

(** [QImage::isNull] *)
Definition isNull (img : QImage) : bool :=
  match format img with Format_Invalid => true | _ => false end.

(** [QImage(w, h, format)]: the buffer is allocated and not initialised;
    [mem] is what the allocator hands back.  A non-positive dimension
    gives the null image. *)
Definition newImage (mem : nat -> QRgb) (w h : Z) (fmt : Format) : QImage :=
  if (w <=? 0) || (h <=? 0) then nullImage
  else mkImage fmt w h (map mem (seq 0 (Z.to_nat (w * h)))).

(** [QImage::mirrored(horizontal, vertical)] *)
Definition mirrored (horizontal vertical : bool) (img : QImage) : QImage :=
  if negb horizontal && negb vertical then img
  else mkImage (format img) (width img) (height img)
         (mkBits (width img) (height img) (fun x y =>
            pixelAt img (if horizontal then width img - 1 - x else x)
                        (if vertical then height img - 1 - y else y))).

(** [QImage::copy(x, y, w, h)]: a null rectangle ([w = 0] and [h = 0])
    copies the whole image, a rectangle with a non-positive side gives the
    null image, and the part of the rectangle outside the image is 0. *)
Definition copy (img : QImage) (x y w h : Z) : QImage :=
  if isNull img then nullImage
  else if (w =? 0) && (h =? 0) then img
  else if (w <=? 0) || (h <=? 0) then nullImage
  else mkImage (format img) w h
         (mkBits w h (fun i j =>
            if (0 <=? x + i) && (x + i <? width img) &&
               (0 <=? y + j) && (y + j <? height img)
            then pixelAt img (x + i) (y + j) else 0)).

(** *** The raster painter: source-over composition on premultiplied words *)

Definition u32 (z : Z) : Z := z mod 2 ^ 32.

(** The rounded quotient by 255 that Qt's packed multiplications take in
    every byte lane: [(x + (x >> 8) + 0x80) >> 8]. *)
Definition qt_div_255 (x : Z) : Z := Z.shiftr (x + Z.shiftr x 8 + 0x80) 8.

(** [qPremultiply]: the three colour bytes times [alpha / 255]. *)
Definition qPremultiply (x : QRgb) : QRgb :=
  let a := qAlpha x in
  qRgba (qt_div_255 (qRed x * a)) (qt_div_255 (qGreen x * a))
        (qt_div_255 (qBlue x * a)) a.

(** [qUnpremultiply], with [qt_inv_premul_factor[alpha]] written out. *)
Definition qUnpremultiply (p : QRgb) : QRgb :=
  let alpha := qAlpha p in
  if alpha =? 255 then p
  else if alpha =? 0 then 0
  else
    let invAlpha := (0xff0000 + alpha / 2) / alpha in
    qRgba (Z.shiftr (qRed p * invAlpha + 0x8000) 16)
          (Z.shiftr (qGreen p * invAlpha + 0x8000) 16)
          (Z.shiftr (qBlue p * invAlpha + 0x8000) 16)
          alpha.

(** [BYTE_MUL(x, a)]: the four bytes of [x] times [a / 255]. *)
Definition BYTE_MUL (x a : Z) : Z :=
  qRgba (qt_div_255 (qRed x * a)) (qt_div_255 (qGreen x * a))
        (qt_div_255 (qBlue x * a)) (qt_div_255 (qAlpha x * a)).

(** [QPainter]'s default composition mode, [CompositionMode_SourceOver],
    on premultiplied words: an opaque source replaces the destination, a
    fully transparent one leaves it. *)
Definition sourceOver (s d : QRgb) : QRgb :=
  if s >=? 0xff000000 then s
  else if s =? 0 then d
  else u32 (s + BYTE_MUL d (255 - qAlpha s)).

(** A word of an image of format [fmt] read as a premultiplied word. *)
Definition fetch (fmt : Format) (p : QRgb) : QRgb :=
  match fmt with
  | Format_RGB32 => Z.lor p 0xff000000
  | Format_ARGB32 => qPremultiply p
  | _ => p
  end.

(** A premultiplied word written into an image of format [fmt]. *)
Definition store (fmt : Format) (p : QRgb) : QRgb :=
  match fmt with
  | Format_RGB32 => Z.lor p 0xff000000
  | Format_ARGB32 => qUnpremultiply p
  | _ => p
  end.

(** [QPainter painter(&dst); painter.drawImage(x0, y0, src);] : the words
    of [dst] under the rectangle of [src] are composed with it, the others
    are left as they are. *)
Definition drawImage (dst : QImage) (x0 y0 : Z) (src : QImage) : QImage :=
  mkImage (format dst) (width dst) (height dst)
    (mkBits (width dst) (height dst) (fun x y =>
       let d := pixelAt dst x y in
       if (x0 <=? x) && (x <? x0 + width src) &&
          (y0 <=? y) && (y <? y0 + height src)
       then store (format dst)
              (sourceOver (fetch (format src) (pixelAt src (x - x0) (y - y0)))
                          (fetch (format dst) d))
       else d)).

(** *** [QSize] *)

Record QSize := mkSize { wd : Z; ht : Z }.

(** [QSize::isEmpty] *)
Definition isEmpty (s : QSize) : bool := (wd s <? 1) || (ht s <? 1).

(** The conversion of a [qint64] to [int]. *)
Definition to_int (z : Z) : Z := (z + 2 ^ 31) mod 2 ^ 32 - 2 ^ 31.

Inductive AspectRatioMode := IgnoreAspectRatio | KeepAspectRatio.

(** [QSize::scale(w, h, mode)] leaves [this->scaled(QSize(w, h), mode)] in
    [*this]; the products and quotients are taken in [qint64]. *)
Definition scaled (this : QSize) (w h : Z) (mode : AspectRatioMode) : QSize :=
  match mode with
  | IgnoreAspectRatio => mkSize w h
  | KeepAspectRatio =>
      if (wd this =? 0) || (ht this =? 0) then mkSize w h
      else
        let rw := Z.quot (h * wd this) (ht this) in
        if rw <=? w then mkSize (to_int rw) h
        else mkSize w (to_int (Z.quot (w * ht this) (wd this)))
  end.

(** [qFuzzyCompare(double, double)] *)
Definition qFuzzyCompare (p1 p2 : float) : bool :=
  let a1 := PrimFloat.abs p1 in
  let a2 := PrimFloat.abs p2 in
  (PrimFloat.abs (p1 - p2) * 1000000000000 <=? (if (a1 <? a2)%float then a1 else a2))%float.

End Qt.
Import Qt.

(* ================================================================== *)
(** ** The settings the viewer reads *)

(** [enum ZoomMethods] *)
Inductive ZoomMethods := Disable | WidthAndHeight | Width | Height | Disprop.

(** Modelled from the spec: the [Settings::] variables the viewer code
    reads are declared outside [ImageViewer.cpp]; their types follow the
    configuration surface of the specification (section 6) and the way the
    code uses them: integers for crop, colour and gain values, booleans for
    the flags, a double for the rotation, a float for the zoom factor. *)
Record Settings := mkSettings {
  zoomInFlags : ZoomMethods;
  zoomOutFlags : ZoomMethods;
  imageZoomFactor : float;
  rotation : float;
  flipH : bool;
  flipV : bool;
  cropLeft : Z;
  cropTop : Z;
  cropWidth : Z;
  cropHeight : Z;
  cropLeftPercent : Z;
  cropTopPercent : Z;
  cropWidthPercent : Z;
  cropHeightPercent : Z;
  hueVal : Z;
  saturationVal : Z;
  lightnessVal : Z;
  contrastVal : Z;
  brightVal : Z;
  colorizeEnabled : bool;
  rNegateEnabled : bool;
  gNegateEnabled : bool;
  bNegateEnabled : bool;
  hueRedChannel : bool;
  hueGreenChannel : bool;
  hueBlueChannel : bool;
  redVal : Z;
  greenVal : Z;
  blueVal : Z
}.


(* ================================================================== *)
(** ** Zoom-fit sizing: [ImageViewer::resizeImage] *)

(** [(float) z] for an [int] [z]. *)
Definition Z2F32 (z : Z) : float := to_f32 (Z2F z).

(** The conversion of a float to [unsigned int]. *)
Definition F2U (f : float) : Z := F2Z f mod 2 ^ 32.

Definition getHeightByWidth (imgWidth imgHeight newWidth : Z) : Z :=
  let aspect := to_f32 (Z2F32 imgWidth / Z2F32 newWidth)%float in
  F2U (to_f32 (Z2F32 imgHeight / aspect)%float).

Definition getWidthByHeight (imgHeight imgWidth newHeight : Z) : Z :=
  let aspect := to_f32 (Z2F32 imgHeight / Z2F32 newHeight)%float in
  F2U (to_f32 (Z2F32 imgWidth / aspect)%float).

(** The conversion of a float to [int] on return.  Where the truncated
    value is outside the range of [int], and on NaN, C++ leaves the result
    undefined; the model gives what the conversion instruction of the
    compiled code gives there, the smallest [int]. *)
Definition F2I (f : float) : Z :=
  if ((-2147483649 <? f) && (f <? 2147483648))%float then F2Z f else - 2 ^ 31.

(** [size * Settings::imageZoomFactor], a float product, returned as [int]. *)
Definition calcZoom (s : Settings) (size : Z) : Z :=
  F2I (to_f32 (Z2F32 size * to_f32 (imageZoomFactor s))%float).

Module ImageViewer.

(** The zoom-in [switch]. *)
Definition zoomIn (s : Settings) (view imageSize : QSize) : QSize :=
  let w := wd imageSize in
  let h := ht imageSize in
  match zoomInFlags s with
  | Disable =>
      if (w <=? wd view) && (h <=? ht view)
      then scaled imageSize (calcZoom s w) (calcZoom s h) KeepAspectRatio
      else imageSize
  | WidthAndHeight =>
      if (w <=? wd view) && (h <=? ht view)
      then scaled imageSize (calcZoom s (wd view)) (calcZoom s (ht view)) KeepAspectRatio
      else imageSize
  | Width =>
      if w <=? wd view
      then scaled imageSize (calcZoom s (wd view))
                  (calcZoom s (to_int (getHeightByWidth w h (wd view))))
                  KeepAspectRatio
      else imageSize
  | Height =>
      if h <=? ht view
      then scaled imageSize (calcZoom s (to_int (getWidthByHeight h w (ht view))))
                  (calcZoom s (ht view))
                  KeepAspectRatio
      else imageSize
  | Disprop =>
      let newWidth := if w <=? wd view then wd view else w in
      let newHeight := if h <=? ht view then ht view else h in
      scaled imageSize (calcZoom s newWidth) (calcZoom s newHeight) IgnoreAspectRatio
  end.

(** The zoom-out [switch], on the size the zoom-in [switch] left. *)
Definition zoomOut (s : Settings) (view imageSize : QSize) : QSize :=
  let w := wd imageSize in
  let h := ht imageSize in
  match zoomOutFlags s with
  | Disable =>
      if (w >=? wd view) || (h >=? ht view)
      then scaled imageSize (calcZoom s w) (calcZoom s h) KeepAspectRatio
      else imageSize
  | WidthAndHeight =>
      if (w >=? wd view) || (h >=? ht view)
      then scaled imageSize (calcZoom s (wd view)) (calcZoom s (ht view)) KeepAspectRatio
      else imageSize
  | Width =>
      if w >=? wd view
      then scaled imageSize (calcZoom s (wd view))
                  (calcZoom s (to_int (getHeightByWidth w h (wd view))))
                  KeepAspectRatio
      else imageSize
  | Height =>
      if h >=? ht view
      then scaled imageSize (calcZoom s (to_int (getWidthByHeight h w (ht view))))
                  (calcZoom s (ht view))
                  KeepAspectRatio
      else imageSize
  | Disprop =>
      let newWidth := if w >=? wd view then wd view else w in
      let newHeight := if h >=? ht view then ht view else h in
      scaled imageSize (calcZoom s newWidth) (calcZoom s newHeight) IgnoreAspectRatio
  end.

(** [resizeImage]: the size handed to [setFixedSize], or [None] when the
    function returns before computing one ([busy] is set, there is neither
    an animation nor an image widget, or the image size is empty).
    [imageSize] is the size of the current pixmap or image, [view] is
    [this->size()]. *)
Definition resizeImage (s : Settings) (busy tempDisableResize : bool)
    (imageSize : option QSize) (view : QSize) : option QSize :=
  if busy then None
  else match imageSize with
       | None => None
       | Some imageSize =>
           if isEmpty imageSize then None
           else if tempDisableResize
                then Some (scaled imageSize (wd imageSize) (ht imageSize) KeepAspectRatio)
                else Some (zoomOut s view (zoomIn s view imageSize))
       end.

(* ------------------------------------------------------------------ *)
(** ** Geometry: [ImageViewer::transform] *)

Section Transform.

(** [QImage::transformed(trans, Qt::SmoothTransformation)] for the rotation
    by the given number of degrees. *)
Variable transformed : float -> QImage -> QImage.

Definition rotateStage (s : Settings) (viewerImage : QImage) : QImage :=
  if negb (qFuzzyCompare (rotation s) 0) then transformed (rotation s) viewerImage
  else viewerImage.

Definition flipStage (s : Settings) (viewerImage : QImage) : QImage :=
  if flipH s || flipV s then mirrored (flipH s) (flipV s) viewerImage
  else viewerImage.

(** A C integer used as a condition. *)
Definition nonzero (z : Z) : bool := negb (z =? 0).

Definition croppingOn (s : Settings) : bool :=
  nonzero (cropLeftPercent s) || nonzero (cropTopPercent s) ||
  nonzero (cropWidthPercent s) || nonzero (cropHeightPercent s).

Definition cropAbsolute (s : Settings) : bool :=
  nonzero (cropLeft s) || nonzero (cropTop s) ||
  nonzero (cropWidth s) || nonzero (cropHeight s).

(** The four [crop...PercentPixels] variables: the product of two [int]s,
    divided by 100.  A product outside the range of [int] is undefined in
    C++; the model takes the wrap-around modulo 2^32 that the compiled code
    computes. *)
Definition percentPixels (s : Settings) (extent percent : Z) : Z :=
  if croppingOn s then Z.quot (to_int (extent * percent)) 100 else 0.

(** The rectangle [(x, y, w, h)] handed to [QImage::copy], when one of the
    two calls is reached. *)
Definition cropRect (s : Settings) (viewerImage : QImage) : option (Z * Z * Z * Z) :=
  let l := percentPixels s (width viewerImage) (cropLeftPercent s) in
  let t := percentPixels s (height viewerImage) (cropTopPercent s) in
  let w := percentPixels s (width viewerImage) (cropWidthPercent s) in
  let h := percentPixels s (height viewerImage) (cropHeightPercent s) in
  if cropAbsolute s then
    Some (cropLeft s + l, cropTop s + t,
          width viewerImage - cropLeft s - cropWidth s - l - w,
          height viewerImage - cropTop s - cropHeight s - t - h)
  else if croppingOn s then
    Some (l, t, width viewerImage - l - w, height viewerImage - t - h)
  else None.

Definition cropStage (s : Settings) (viewerImage : QImage) : QImage :=
  match cropRect s viewerImage with
  | Some (x, y, w, h) => copy viewerImage x y w h
  | None => viewerImage
  end.

(** [transform]: the new value of [viewerImage]. *)
Definition transform (s : Settings) (viewerImage : QImage) : QImage :=
  cropStage s (flipStage s (rotateStage s viewerImage)).

End Transform.

(* ------------------------------------------------------------------ *)
(** ** Mirror layouts: [ImageViewer::mirror] *)

(** The values of [mirrorLayout]. *)
Inductive MirrorLayout := LayNone | LayDual | LayTriple | LayQuad | LayVDual.

(** [mirror]: the new value of [viewerImage], that is of [mirrorImage]
    after the [switch].  [mem] is the memory the new canvas is allocated
    in; [mirrorImage] is the member before the call, which no [case]
    replaces when the layout is [LayNone]. *)
Definition mirror (mem : nat -> QRgb) (mirrorLayout : MirrorLayout)
    (viewerImage mirrorImage : QImage) : QImage :=
  let w := width viewerImage in
  let h := height viewerImage in
  match mirrorLayout with
  | LayNone => mirrorImage
  | LayDual =>
      let canvas := newImage mem (w * 2) h Format_ARGB32 in
      let canvas := drawImage canvas 0 0 viewerImage in
      drawImage canvas w 0 (mirrored true false viewerImage)
  | LayTriple =>
      let canvas := newImage mem (w * 3) h Format_ARGB32 in
      let canvas := drawImage canvas 0 0 viewerImage in
      let canvas := drawImage canvas w 0 (mirrored true false viewerImage) in
      drawImage canvas (w * 2) 0 (mirrored false false viewerImage)
  | LayQuad =>
      let canvas := newImage mem (w * 2) (h * 2) Format_ARGB32 in
      let canvas := drawImage canvas 0 0 viewerImage in
      let canvas := drawImage canvas w 0 (mirrored true false viewerImage) in
      let canvas := drawImage canvas 0 h (mirrored false true viewerImage) in
      drawImage canvas w h (mirrored true true viewerImage)
  | LayVDual =>
      let canvas := newImage mem w (h * 2) Format_ARGB32 in
      let canvas := drawImage canvas 0 0 viewerImage in
      drawImage canvas 0 h (mirrored false true viewerImage)
  end.

(* ------------------------------------------------------------------ *)
(** ** Colour grading: [ImageViewer::colorize] *)

(** An [unsigned char table[256]] filled by [for (i = 0; i < 256; ++i)]. *)
Definition tabulate (f : Z -> Z) : list Z :=
  map (fun n => to_uchar (f (Z.of_nat n))) (seq 0 256).

(** [table[i]] *)
Definition lookup (table : list Z) (i : Z) : Z := nth (Z.to_nat i) table 0.

Section Colorize.

(** [tan] and [pow] of the C math library, on doubles. *)
Variable tan : float -> float.
Variable pow : float -> float -> float.

(** [float contrast = ((float) Settings::contrastVal / 100.0);] and the
    same for the brightness: a double division stored into a [float]. *)
Definition contrastOf (s : Settings) : float := to_f32 (Z2F (contrastVal s) / 100.0)%float.
Definition brightnessOf (s : Settings) : float := to_f32 (Z2F (brightVal s) / 100.0)%float.

(** The body of the first loop: the value stored in
    [contrastTransform[i]]; [t] is [tan(contrast)]. *)
Definition contrastEntry (t : float) (i : Z) : Z :=
  if (i <? F2Z (128 + 128 * t)%float) && (i >? F2Z (128 - 128 * t)%float)
  then F2Z (Z2F (i - 128) / t + 128)%float
  else if i >=? F2Z (128 + 128 * t)%float then 255
  else 0.

(** The table for a given value [t] of the tangent. *)
Definition contrastTable (t : float) : list Z := tabulate (contrastEntry t).

Definition contrastTransform (s : Settings) : list Z :=
  contrastTable (tan (contrastOf s)).

(** The body of the second loop. *)
Definition brightEntry (brightness : float) (i : Z) : Z :=
  MIN 255 (F2Z (255.0 * pow (Z2F i / 255.0) (1.0 / brightness) + 0.5)%float).

Definition brightTransform (s : Settings) : list Z :=
  tabulate (brightEntry (brightnessOf s)).

(** Negation, gain, brightness and contrast of one channel value [v0]
    (the statements before [rgbToHsl]). *)
Definition preHsl (s : Settings) (negate : bool) (gain : Z) (v0 : Z) : Z :=
  let v := if negate then bound0To255 (255 - v0) else v0 in
  let v := bound0To255 (Z.quot (v * (gain + 100)) 100) in
  let v := bound0To255 (lookup (brightTransform s) v) in
  bound0To255 (lookup (contrastTransform s) v).

(** The [unsigned char]s [h], [s], [l] handed to [hslToRgb]. *)
Definition hslAdjust (st : Settings) (hsl : Z * Z * Z) : Z * Z * Z :=
  let '(h, s, l) := hsl in
  (to_uchar (if colorizeEnabled st then hueVal st else h + hueVal st),
   to_uchar (bound0To255 (Z.quot (s * saturationVal st) 100)),
   to_uchar (bound0To255 (Z.quot (l * lightnessVal st) 100))).

(** The body of the inner loop on one word [p] of the scan line. *)
Definition colorizePixel (st : Settings) (hasAlpha : bool) (p : QRgb) : QRgb :=
  let r := preHsl st (rNegateEnabled st) (redVal st) (qRed p) in
  let g := preHsl st (gNegateEnabled st) (greenVal st) (qGreen p) in
  let b := preHsl st (bNegateEnabled st) (blueVal st) (qBlue p) in
  let '(h, s, l) := hslAdjust st (rgbToHsl r g b) in
  let '(hr, hg, hb) := hslToRgb (Z2F h) (Z2F s) (Z2F l) in
  let r := if hueRedChannel st then hr else qRed p in
  let g := if hueGreenChannel st then hg else qGreen p in
  let b := if hueBlueChannel st then hb else qBlue p in
  if hasAlpha then qRgba r g b (qAlpha p) else qRgb r g b.

(** [colorize]: the two loops visit every word of the buffer once.  The
    formats outside the three of the [switch] reach the loops converted to
    [Format_RGB32]; the model starts from a 32-bit image.  The [switch]
    before the loops is in [Viewer.colorize] below. *)
Definition colorize (st : Settings) (viewerImage : QImage) : QImage :=
  mkImage (format viewerImage) (width viewerImage) (height viewerImage)
          (map (colorizePixel st (hasAlphaChannel viewerImage)) (bits viewerImage)).

End Colorize.

End ImageViewer.

(* ================================================================== *)
(** ** The statements of the specification, as definitions *)

Module Spec.

(** The grading configuration of the identity test of the specification:
    saturation 100, lightness 100, hue 0, no colorize, the three channels
    enabled, no negation, no gain, brightness 100, contrast 0. *)
Definition identityGrading (st : Settings) : Prop :=
  saturationVal st = 100 /\ lightnessVal st = 100 /\ hueVal st = 0 /\
  colorizeEnabled st = false /\
  hueRedChannel st = true /\ hueGreenChannel st = true /\ hueBlueChannel st = true /\
  rNegateEnabled st = false /\ gNegateEnabled st = false /\ bNegateEnabled st = false /\
  redVal st = 0 /\ greenVal st = 0 /\ blueVal st = 0 /\
  brightVal st = 100 /\ contrastVal st = 0.

(** A channel value cut at 128. *)
Definition threshold (v : Z) : Z := if v <? 128 then 0 else 255.

(** A word whose three colour bytes are cut at 128 and then sent through
    the HSL round trip; the alpha byte is kept (or set to 255 in an image
    without alpha channel). *)
Definition posterizePixel (hasAlpha : bool) (p : QRgb) : QRgb :=
  let '(r, g, b) := roundTrip (threshold (qRed p)) (threshold (qGreen p))
                              (threshold (qBlue p)) in
  if hasAlpha then qRgba r g b (qAlpha p) else qRgb r g b.

(** No geometric edit: rotation 0, no flip, the eight crop fields 0. *)
Definition noGeometricEdit (st : Settings) : Prop :=
  rotation st = 0%float /\ flipH st = false /\ flipV st = false /\
  cropLeft st = 0 /\ cropTop st = 0 /\ cropWidth st = 0 /\ cropHeight st = 0 /\
  cropLeftPercent st = 0 /\ cropTopPercent st = 0 /\
  cropWidthPercent st = 0 /\ cropHeightPercent st = 0.

(** The contrast table as the specification words it (section 4.3,
    step 4): the two bounds [128 -/+ 128 tan] are compared as reals with the
    index, and the middle branch is clamped to [0, 255]. *)
Definition clampReal (v : float) : float :=
  if (v <? 0)%float then 0%float else if (255 <? v)%float then 255%float else v.

Definition contrastEntry_spec (t : float) (i : Z) : float :=
  if ((128 - 128 * t <? Z2F i) && (Z2F i <? 128 + 128 * t))%float
  then clampReal (Z2F (i - 128) / t + 128)%float
  else if (128 + 128 * t <=? Z2F i)%float then 255%float
  else 0%float.


End Spec.

(* ================================================================== *)
(** ** Concrete inputs *)

Module Sample.

(** Stand-ins for the two library functions, for running the model on
    numbers.  They agree with the C library where the statements below
    evaluate them: [tan 0 = 0] and [pow x 1 = x]. *)
Definition tan (x : float) : float := x.
Definition pow (x y : float) : float := if (y =? 1)%float then x else 1%float.

(** The smooth rotation is not reached with rotation 0. *)
Definition transformed (angle : float) (img : QImage) : QImage := img.

(** The identity configuration of the specification, with no zoom, no
    geometric edit and no crop. *)
Definition identitySettings : Settings :=
  {| zoomInFlags := Disable; zoomOutFlags := Disable; imageZoomFactor := 1;
     rotation := 0; flipH := false; flipV := false;
     cropLeft := 0; cropTop := 0; cropWidth := 0; cropHeight := 0;
     cropLeftPercent := 0; cropTopPercent := 0;
     cropWidthPercent := 0; cropHeightPercent := 0;
     hueVal := 0; saturationVal := 100; lightnessVal := 100;
     contrastVal := 0; brightVal := 100; colorizeEnabled := false;
     rNegateEnabled := false; gNegateEnabled := false; bNegateEnabled := false;
     hueRedChannel := true; hueGreenChannel := true; hueBlueChannel := true;
     redVal := 0; greenVal := 0; blueVal := 0 |}.

(** The same with a hue rotation of 100 and the red channel disabled. *)
Definition hueSettings : Settings :=
  {| zoomInFlags := Disable; zoomOutFlags := Disable; imageZoomFactor := 1;
     rotation := 0; flipH := false; flipV := false;
     cropLeft := 0; cropTop := 0; cropWidth := 0; cropHeight := 0;
     cropLeftPercent := 0; cropTopPercent := 0;
     cropWidthPercent := 0; cropHeightPercent := 0;
     hueVal := 100; saturationVal := 100; lightnessVal := 100;
     contrastVal := 0; brightVal := 100; colorizeEnabled := false;
     rNegateEnabled := false; gNegateEnabled := false; bNegateEnabled := false;
     hueRedChannel := false; hueGreenChannel := true; hueBlueChannel := true;
     redVal := 0; greenVal := 0; blueVal := 0 |}.

(** A 2 x 1 image with alpha channel: an opaque mid grey (100, 100, 100)
    and a translucent (200, 30, 129) with alpha 7. *)
Definition twoPixels : QImage :=
  mkImage Format_ARGB32 2 1 [qRgba 100 100 100 255; qRgba 200 30 129 7].

(** What grading with [identitySettings] makes of [twoPixels]: opaque
    black, and (255, 1, 252) with alpha 7. *)
Definition twoPixelsGraded : QImage :=
  mkImage Format_ARGB32 2 1 [qRgba 0 0 0 255; qRgba 255 1 252 7].

(** A 1 x 1 image with alpha channel whose only pixel is fully
    transparent white. *)
Definition transparentWhite : QImage := mkImage Format_ARGB32 1 1 [0x00FFFFFF].

(** Canvas memory that holds zeros, and canvas memory whose first word is
    an opaque colour left by an earlier allocation. *)
Definition zeroMemory (n : nat) : QRgb := 0.
Definition usedMemory (n : nat) : QRgb :=
  match n with O => 0xFF112233 | _ => 0 end.

(** A crop that leaves nothing: left inset 3 and width trim 3 on an
    image 4 pixels wide. *)
Definition cropSettings : Settings :=
  {| zoomInFlags := Disable; zoomOutFlags := Disable; imageZoomFactor := 1;
     rotation := 0; flipH := false; flipV := false;
     cropLeft := 3; cropTop := 0; cropWidth := 3; cropHeight := 0;
     cropLeftPercent := 0; cropTopPercent := 0;
     cropWidthPercent := 0; cropHeightPercent := 0;
     hueVal := 0; saturationVal := 100; lightnessVal := 100;
     contrastVal := 0; brightVal := 100; colorizeEnabled := false;
     rNegateEnabled := false; gNegateEnabled := false; bNegateEnabled := false;
     hueRedChannel := true; hueGreenChannel := true; hueBlueChannel := true;
     redVal := 0; greenVal := 0; blueVal := 0 |}.

(** A 4 x 4 opaque image whose word at index [n] is 0xFF000000 + n. *)
Definition fourByFour : QImage :=
  mkImage Format_RGB32 4 4 (map (fun n => 0xFF000000 + Z.of_nat n) (seq 0 16)).

(** Zoom factor 2 with both policies [Disable]. *)
Definition zoomSettings : Settings :=
  {| zoomInFlags := Disable; zoomOutFlags := Disable; imageZoomFactor := 2;
     rotation := 0; flipH := false; flipV := false;
     cropLeft := 0; cropTop := 0; cropWidth := 0; cropHeight := 0;
     cropLeftPercent := 0; cropTopPercent := 0;
     cropWidthPercent := 0; cropHeightPercent := 0;
     hueVal := 0; saturationVal := 100; lightnessVal := 100;
     contrastVal := 0; brightVal := 100; colorizeEnabled := false;
     rNegateEnabled := false; gNegateEnabled := false; bNegateEnabled := false;
     hueRedChannel := true; hueGreenChannel := true; hueBlueChannel := true;
     redVal := 0; greenVal := 0; blueVal := 0 |}.

(** The double nearest to the tangent of the float 0.3 (contrast 30). *)
Definition tan_0_3 : float := 0.30933626267125297.

End Sample.

(* ================================================================== *)
(** ** An exhaustive check of the round trip, on machine integers

    The 2^24 triples are grouped by their largest and smallest channel
    ([mx], [mn]): saturation, lightness and the two ramp ends [m1], [m2]
    of [hslToRgb] depend on this pair only, and the channel value that
    [hslValue] returns for each integer hue is tabulated once per pair. *)

Module RoundTripCheck.

Import PArray.
#[local] Open Scope uint63_scope.

(** The mark of a value that does not fit an unsigned char. *)
Definition bad : int := 1000.

(** [ROUND x] stored into an unsigned char, or [bad] when [x + 0.5] is
    negative or the result exceeds 255. *)
Definition rnd8 (x : float) : int :=
  let y := (x + 0.5)%float in
  if (y <? 0)%float then bad
  else let t := trunc_abs y in
       if 255 <? t then bad else t.

(** [(double) (a - b)] for two channel values. *)
Definition sdiff (a b : int) : float :=
  if b <=? a then of_uint63 (a - b) else (- of_uint63 (b - a))%float.

(** [a.[j] <- f j] for the [n] indices from [j] on. *)
Fixpoint fill (f : int -> int) (n : nat) (j : int) (a : array int) : array int :=
  match n with
  | O => a
  | S n' => fill f n' (j + 1) a.[j <- f j]
  end.

(** [p] holds at the [n] integers from [i] on. *)
Fixpoint allFrom (n : nat) (i : int) (p : int -> bool) : bool :=
  match n with
  | O => true
  | S n' => if p i then allFrom n' (i + 1) p else false
  end.

(** Entry [j] of the table of a pair: the channel value for the hue
    [j - 85], so that the three calls of [hslToRgb] at hue [h] read the
    entries [h + 170], [h + 85] and [h]. *)
Definition wentry (m1 m2 : float) (j : int) : int :=
  rnd8 (hslValue_real m1 m2 (sdiff j 85) * 255.0)%float.

Definition wrapHue (h : float) : float :=
  if (h <? 0)%float then (h + 255)%float
  else if (255 <? h)%float then (h - 255)%float
  else h.

Definition hueRaw (r g b mx : int) (df : float) : float :=
  if r =? mx then (sdiff g b / df)%float
  else if g =? mx then (2 + sdiff b r / df)%float
  else (4 + sdiff r g / df)%float.

(** [|x' - x| <= 4], for [x <= 255] and [x'] a table entry. *)
Definition near4 (x' x : int) : bool := (x' + 4 - x) <=? 8.

(** The round trip of the triple [(r, g, b)], whose largest channel is
    [mx], read from the table [W] of its pair. *)
Definition check1 (W : array int) (mx : int) (df : float) (r g b : int) : bool :=
  let h := rnd8 (wrapHue (hueRaw r g b mx df * 42.5)%float) in
  if near4 W.[h + 170] r then
    if near4 W.[h + 85] g then near4 W.[h] b else false
  else false.

(** The six triples made of [mx], [mid] and [mn]. *)
Definition midBody (W : array int) (mx mn : int) (df : float) (mid : int) : bool :=
  if check1 W mx df mx mid mn then
  if check1 W mx df mx mn mid then
  if check1 W mx df mid mx mn then
  if check1 W mx df mn mx mid then
  if check1 W mx df mid mn mx then
  check1 W mx df mn mid mx
  else false else false else false else false else false.

Definition satReal (mx mn : int) : float :=
  if (of_uint63 (mx + mn) / 2.0 <? 128)%float
  then (255 * of_uint63 (mx - mn) / of_uint63 (mx + mn))%float
  else (255 * of_uint63 (mx - mn) / of_uint63 (511 - (mx + mn)))%float.

(** The saturation and the lightness of a pair, as unsigned chars. *)
Definition satByte (mx mn : int) : int := rnd8 (satReal mx mn).
Definition lightByte (mx mn : int) : int := rnd8 (of_uint63 (mx + mn) / 2.0)%float.

Definition rampHigh (s l : int) : float :=
  if (of_uint63 l <? 128)%float
  then ((of_uint63 l * (255 + of_uint63 s)) / 65025.0)%float
  else ((of_uint63 l + of_uint63 s - (of_uint63 l * of_uint63 s) / 255.0) / 255.0)%float.

Definition rampLow (s l : int) : float :=
  ((of_uint63 l / 127.5) - rampHigh s l)%float.

Definition pairTable (s l : int) : array int :=
  fill (wentry (rampLow s l) (rampHigh s l)) 426 0 (PArray.make 426 bad).

(** All the triples whose largest channel is [mx] and smallest [mn < mx]. *)
Definition pairCheck (mx mn : int) : bool :=
  let s := satByte mx mn in
  let l := lightByte mx mn in
  if 255 <? s then false
  else if 255 <? l then false
  else if (of_uint63 s =? 0)%float then false
  else allFrom (S (Z.to_nat (to_Z (mx - mn)))) mn
         (midBody (pairTable s l) mx mn (of_uint63 (mx - mn))).

(** All the pairs with largest channel [mx]. *)
Definition rowCheck (mx : int) : bool := allFrom (Z.to_nat (to_Z mx)) 0 (pairCheck mx).

End RoundTripCheck.

(* ================================================================== *)
(** ** The rest of the viewer: orientation, reload, refresh, overlay,
    panning and the cursor *)

(** Modelled from the spec: these [Settings::] variables too are declared
    outside [ImageViewer.cpp], and the specification does not list them;
    their types follow the way the code uses them.  [core] holds the
    variables of the record above. *)
Record ViewSettings := mkViewSettings {
  core : Settings;
  scaledWidth : Z;
  scaledHeight : Z;
  colorsActive : bool;
  keepTransform : bool;
  mouseRotateEnabled : bool
}.

(** Modelled from the spec: the four directions of [keyMoveEvent] are
    constants of [ImageViewer.h]; [MoveOther] stands for any other value of
    the [int] argument, which no [case] of the [switch] takes. *)
Inductive MoveDirection := MoveLeft | MoveRight | MoveUp | MoveDown | MoveOther.

Module Viewer.

(** *** [ImageViewer::rotateByExifRotation] *)

Section Orientation.

(** [QImage::transformed(trans, Qt::SmoothTransformation)] for the rotation
    by the given number of degrees. *)
Variable transformed : float -> QImage -> QImage.

(** The new value of [image], for the orientation the metadata cache
    returns. *)
Definition rotateByExifRotation (orientation : Z) (image : QImage) : QImage :=
  match orientation with
  | 1 => image
  | 2 => mirrored true false image
  | 3 => transformed 180 image
  | 4 => mirrored false true image
  | 5 => mirrored true false (transformed 90 image)
  | 6 => transformed 90 image
  | 7 => mirrored false true (transformed 90 image)
  | 8 => transformed 270 image
  | _ => image
  end.

End Orientation.

(** *** The assignments of [ImageViewer::reload] to the settings *)

(** [Settings::cropLeftPercent = ... = 0; Settings::rotation = 0;
    Settings::flipH = Settings::flipV = false;] *)
Definition clearTransform (s : Settings) : Settings :=
  {| zoomInFlags := zoomInFlags s; zoomOutFlags := zoomOutFlags s;
     imageZoomFactor := imageZoomFactor s;
     rotation := 0; flipH := false; flipV := false;
     cropLeft := cropLeft s; cropTop := cropTop s;
     cropWidth := cropWidth s; cropHeight := cropHeight s;
     cropLeftPercent := 0; cropTopPercent := 0;
     cropWidthPercent := 0; cropHeightPercent := 0;
     hueVal := hueVal s; saturationVal := saturationVal s;
     lightnessVal := lightnessVal s;
     contrastVal := contrastVal s; brightVal := brightVal s;
     colorizeEnabled := colorizeEnabled s;
     rNegateEnabled := rNegateEnabled s; gNegateEnabled := gNegateEnabled s;
     bNegateEnabled := bNegateEnabled s;
     hueRedChannel := hueRedChannel s; hueGreenChannel := hueGreenChannel s;
     hueBlueChannel := hueBlueChannel s;
     redVal := redVal s; greenVal := greenVal s; blueVal := blueVal s |}.

(** [Settings::cropLeft = Settings::cropTop = Settings::cropWidth =
    Settings::cropHeight = 0;] *)
Definition clearCrop (s : Settings) : Settings :=
  {| zoomInFlags := zoomInFlags s; zoomOutFlags := zoomOutFlags s;
     imageZoomFactor := imageZoomFactor s;
     rotation := rotation s; flipH := flipH s; flipV := flipV s;
     cropLeft := 0; cropTop := 0; cropWidth := 0; cropHeight := 0;
     cropLeftPercent := cropLeftPercent s; cropTopPercent := cropTopPercent s;
     cropWidthPercent := cropWidthPercent s;
     cropHeightPercent := cropHeightPercent s;
     hueVal := hueVal s; saturationVal := saturationVal s;
     lightnessVal := lightnessVal s;
     contrastVal := contrastVal s; brightVal := brightVal s;
     colorizeEnabled := colorizeEnabled s;
     rNegateEnabled := rNegateEnabled s; gNegateEnabled := gNegateEnabled s;
     bNegateEnabled := bNegateEnabled s;
     hueRedChannel := hueRedChannel s; hueGreenChannel := hueGreenChannel s;
     hueBlueChannel := hueBlueChannel s;
     redVal := redVal s; greenVal := greenVal s; blueVal := blueVal s |}.

(** The settings as [reload] leaves them before it reads the image: the
    statements from [if (!Settings::keepTransform)] to the second one. *)
Definition reloadSettings (batchMode : bool) (vs : ViewSettings) : ViewSettings :=
  let keep := keepTransform vs in
  let s := if negb keep then clearTransform (core vs) else core vs in
  if negb batchMode then
    {| core := if negb keep then clearCrop s else s;
       scaledWidth := 0; scaledHeight := 0;
       colorsActive := colorsActive vs; keepTransform := keep;
       mouseRotateEnabled := false |}
  else
    {| core := s;
       scaledWidth := 0; scaledHeight := 0;
       colorsActive := colorsActive vs; keepTransform := keep;
       mouseRotateEnabled := mouseRotateEnabled vs |}.

(** *** [ImageViewer::refresh] *)

Section Refresh.

Variable transformed : float -> QImage -> QImage.

(** [QImage::scaled(w, h, mode, Qt::SmoothTransformation)] *)
Variable scaledSmooth : QImage -> Z -> Z -> AspectRatioMode -> QImage.

Variable tan : float -> float.
Variable pow : float -> float -> float.

(** [refresh]: the new value of [viewerImage].  [imageWidget] tells
    whether the pointer is set, [mem] is the memory a mirror canvas is
    allocated in. *)
Definition refresh (mem : nat -> QRgb) (vs : ViewSettings) (imageWidget : bool)
    (mirrorLayout : ImageViewer.MirrorLayout)
    (origImage viewerImage mirrorImage : QImage) : QImage :=
  if negb imageWidget then viewerImage
  else
    let viewerImage :=
      if ImageViewer.nonzero (scaledWidth vs)
      then scaledSmooth origImage (scaledWidth vs) (scaledHeight vs) IgnoreAspectRatio
      else origImage in
    let viewerImage := ImageViewer.transform transformed (core vs) viewerImage in
    let viewerImage :=
      if colorsActive vs || keepTransform vs
      then ImageViewer.colorize tan pow (core vs) viewerImage
      else viewerImage in
    match mirrorLayout with
    | ImageViewer.LayNone => viewerImage
    | _ => ImageViewer.mirror mem mirrorLayout viewerImage mirrorImage
    end.

End Refresh.

(** *** The format [switch] of [ImageViewer::colorize] *)

(** What the code reads of an image in a format outside the three 32-bit
    ones (an indexed image, [Format_RGB888], [Format_RGBA8888], ...):
    whether it has an alpha channel, and the image that
    [convertToFormat(QImage::Format_RGB32)] returns for it. *)
Record OtherImage := mkOther { otherHasAlpha : bool; toRGB32 : QImage }.

(** [viewerImage] at the entry of [colorize]: an image in one of the
    three formats of the [switch], or an image in another format. *)
Inductive AnyImage :=
| Direct (img : QImage)
| Converted (img : OtherImage).

Section ColorizeSwitch.

Variable tan : float -> float.
Variable pow : float -> float -> float.

(** [colorize] with its [switch]: [hasAlpha] is read first, from the
    image as it comes; an image outside the three formats is then replaced
    by its conversion to [Format_RGB32], and the loops run on that image
    with the value of [hasAlpha] read before. *)
Definition colorize (st : Settings) (viewerImage : AnyImage) : QImage :=
  match viewerImage with
  | Direct img => ImageViewer.colorize tan pow st img
  | Converted other =>
      let hasAlpha := otherHasAlpha other in
      let img := toRGB32 other in
      mkImage (format img) (width img) (height img)
              (map (ImageViewer.colorizePixel tan pow st hasAlpha) (bits img))
  end.

End ColorizeSwitch.

(** *** [createImageWithOverlay] *)

(** [painter.setCompositionMode(QPainter::CompositionMode_Source);
    painter.fillRect(image.rect(), Qt::transparent);] : every word of the
    canvas becomes 0. *)
Definition fillTransparent (canvas : QImage) : QImage :=
  mkImage (format canvas) (width canvas) (height canvas)
          (mkBits (width canvas) (height canvas) (fun _ _ => 0)).

Section Overlay.

Variable scaledSmooth : QImage -> Z -> Z -> AspectRatioMode -> QImage.

Definition createImageWithOverlay (mem : nat -> QRgb)
    (baseImage overlayImage : QImage) (x y : Z) : QImage :=
  let imageWithOverlay :=
    newImage mem (width overlayImage) (height overlayImage)
             Format_ARGB32_Premultiplied in
  let scaledImage :=
    scaledSmooth baseImage (width overlayImage) (height overlayImage)
                 KeepAspectRatio in
  let imageWithOverlay := fillTransparent imageWithOverlay in
  let imageWithOverlay := drawImage imageWithOverlay x y scaledImage in
  drawImage imageWithOverlay 0 0 overlayImage.

End Overlay.

(** *** [ImageViewer::keyMoveEvent] *)

(** What the viewer reads of [imageWidget]: [pos()] and [size()]. *)
Record ImageWidget := mkWidget { posX : Z; posY : Z; widgetSize : QSize }.

(** [keyMoveEvent]: the new values of [layoutX] and [layoutY], and the
    two values handed to [setValue] of the horizontal and of the vertical
    scroll bar when [needToMove] is set.  [view] is [size()]; without image
    widget the function returns at once. *)
Definition keyMoveEvent (imageWidget : option ImageWidget) (view : QSize)
    (direction : MoveDirection) (layout : Z * Z) : (Z * Z) * option (Z * Z) :=
  match imageWidget with
  | None => (layout, None)
  | Some iw =>
      let layoutX := posX iw in
      let layoutY := posY iw in
      let newX := match direction with
                  | MoveLeft => layoutX + 50
                  | MoveRight => layoutX - 50
                  | _ => layoutX
                  end in
      let newY := match direction with
                  | MoveUp => layoutY + 50
                  | MoveDown => layoutY - 50
                  | _ => layoutY
                  end in
      let wide := wd (widgetSize iw) >? wd view in
      let newX := if wide
                  then if newX >? 0 then 0
                       else if newX <? wd view - wd (widgetSize iw)
                            then wd view - wd (widgetSize iw)
                            else newX
                  else layoutX in
      let tall := ht (widgetSize iw) >? ht view in
      let newY := if tall
                  then if newY >? 0 then 0
                       else if newY <? ht view - ht (widgetSize iw)
                            then ht view - ht (widgetSize iw)
                            else newY
                  else layoutY in
      ((layoutX, layoutY),
       if wide || tall then Some (- newX, - newY) else None)
  end.

(** *** The hidden cursor: [monitorCursorState] and [setCursorHiding] *)

Inductive CursorShape := BlankCursor | ClosedHandCursor.

(** The members and the application state the two functions touch:
    [cursorIsHidden], the static [lastPos] of [monitorCursorState], the
    stack of override cursors of the application (top first) and whether
    [mouseMovementTimer] runs. *)
Record CursorState := mkCursorState {
  cursorIsHidden : bool;
  lastPos : Z * Z;
  overrideCursors : list CursorShape;
  timerActive : bool
}.

(** [QApplication::restoreOverrideCursor]: the top of the stack is
    removed; nothing happens on an empty stack. *)
Definition restoreOverrideCursor (stack : list CursorShape) : list CursorShape :=
  tl stack.

Definition samePoint (p q : Z * Z) : bool :=
  (fst p =? fst q) && (snd p =? snd q).

(** [monitorCursorState], with [cursorPos] the value of [QCursor::pos()]. *)
Definition monitorCursorState (cursorPos : Z * Z) (st : CursorState) : CursorState :=
  if negb (samePoint cursorPos (lastPos st)) then
    if cursorIsHidden st
    then mkCursorState false cursorPos (restoreOverrideCursor (overrideCursors st))
                       (timerActive st)
    else mkCursorState (cursorIsHidden st) cursorPos (overrideCursors st) (timerActive st)
  else
    if negb (cursorIsHidden st)
    then mkCursorState true (lastPos st) (BlankCursor :: overrideCursors st)
                       (timerActive st)
    else st.

Definition setCursorHiding (hide : bool) (st : CursorState) : CursorState :=
  if hide then
    mkCursorState (cursorIsHidden st) (lastPos st) (overrideCursors st) true
  else
    if cursorIsHidden st
    then mkCursorState false (lastPos st) (restoreOverrideCursor (overrideCursors st)) false
    else mkCursorState (cursorIsHidden st) (lastPos st) (overrideCursors st) false.

(** The calls that reach the two functions: a time-out of the timer with
    the cursor at a position, and a request to hide or not. *)
Inductive CursorEvent :=
| TimerTick (cursorPos : Z * Z)
| SetHiding (hide : bool).

Definition cursorStep (st : CursorState) (e : CursorEvent) : CursorState :=
  match e with
  | TimerTick p => monitorCursorState p st
  | SetHiding hide => setCursorHiding hide st
  end.

Definition cursorRun (events : list CursorEvent) (st : CursorState) : CursorState :=
  fold_left cursorStep events st.

(** The blank cursor is on the stack of override cursors exactly when
    [cursorIsHidden] is set, on top of the cursors [base]. *)
Definition blankOnTop (base : list CursorShape) (st : CursorState) : Prop :=
  overrideCursors st = if cursorIsHidden st then BlankCursor :: base else base.

End Viewer.

(** *** Further concrete inputs *)

Module Example.

(** No grading change, no crop, a horizontal flip. *)
Definition flipSettings : Settings :=
  {| zoomInFlags := Disable; zoomOutFlags := Disable; imageZoomFactor := 1;
     rotation := 0; flipH := true; flipV := false;
     cropLeft := 0; cropTop := 0; cropWidth := 0; cropHeight := 0;
     cropLeftPercent := 0; cropTopPercent := 0;
     cropWidthPercent := 0; cropHeightPercent := 0;
     hueVal := 0; saturationVal := 100; lightnessVal := 100;
     contrastVal := 0; brightVal := 100; colorizeEnabled := false;
     rNegateEnabled := false; gNegateEnabled := false; bNegateEnabled := false;
     hueRedChannel := true; hueGreenChannel := true; hueBlueChannel := true;
     redVal := 0; greenVal := 0; blueVal := 0 |}.

(** Insets of one pixel from the left, from the top and from the right. *)
Definition insetSettings : Settings :=
  {| zoomInFlags := Disable; zoomOutFlags := Disable; imageZoomFactor := 1;
     rotation := 0; flipH := false; flipV := false;
     cropLeft := 1; cropTop := 1; cropWidth := 1; cropHeight := 0;
     cropLeftPercent := 0; cropTopPercent := 0;
     cropWidthPercent := 0; cropHeightPercent := 0;
     hueVal := 0; saturationVal := 100; lightnessVal := 100;
     contrastVal := 0; brightVal := 100; colorizeEnabled := false;
     rNegateEnabled := false; gNegateEnabled := false; bNegateEnabled := false;
     hueRedChannel := true; hueGreenChannel := true; hueBlueChannel := true;
     redVal := 0; greenVal := 0; blueVal := 0 |}.

(** Zoom factor 1 with both policies [WidthAndHeight]. *)
Definition fitSettings : Settings :=
  {| zoomInFlags := WidthAndHeight; zoomOutFlags := WidthAndHeight;
     imageZoomFactor := 1;
     rotation := 0; flipH := false; flipV := false;
     cropLeft := 0; cropTop := 0; cropWidth := 0; cropHeight := 0;
     cropLeftPercent := 0; cropTopPercent := 0;
     cropWidthPercent := 0; cropHeightPercent := 0;
     hueVal := 0; saturationVal := 100; lightnessVal := 100;
     contrastVal := 0; brightVal := 100; colorizeEnabled := false;
     rNegateEnabled := false; gNegateEnabled := false; bNegateEnabled := false;
     hueRedChannel := true; hueGreenChannel := true; hueBlueChannel := true;
     redVal := 0; greenVal := 0; blueVal := 0 |}.

(** A hue rotation of 40 with saturation 150 and lightness 80, the three
    channels enabled and treated alike. *)
Definition tintSettings : Settings :=
  {| zoomInFlags := Disable; zoomOutFlags := Disable; imageZoomFactor := 1;
     rotation := 0; flipH := false; flipV := false;
     cropLeft := 0; cropTop := 0; cropWidth := 0; cropHeight := 0;
     cropLeftPercent := 0; cropTopPercent := 0;
     cropWidthPercent := 0; cropHeightPercent := 0;
     hueVal := 40; saturationVal := 150; lightnessVal := 80;
     contrastVal := 0; brightVal := 100; colorizeEnabled := false;
     rNegateEnabled := true; gNegateEnabled := true; bNegateEnabled := true;
     hueRedChannel := true; hueGreenChannel := true; hueBlueChannel := true;
     redVal := 10; greenVal := 10; blueVal := 10 |}.

(** Saturation 0, the rest as in the identity configuration. *)
Definition greySettings : Settings :=
  {| zoomInFlags := Disable; zoomOutFlags := Disable; imageZoomFactor := 1;
     rotation := 0; flipH := false; flipV := false;
     cropLeft := 0; cropTop := 0; cropWidth := 0; cropHeight := 0;
     cropLeftPercent := 0; cropTopPercent := 0;
     cropWidthPercent := 0; cropHeightPercent := 0;
     hueVal := 0; saturationVal := 0; lightnessVal := 100;
     contrastVal := 0; brightVal := 100; colorizeEnabled := false;
     rNegateEnabled := false; gNegateEnabled := false; bNegateEnabled := false;
     hueRedChannel := true; hueGreenChannel := true; hueBlueChannel := true;
     redVal := 0; greenVal := 0; blueVal := 0 |}.

(** Lightness 0, the rest as in the identity configuration. *)
Definition blackSettings : Settings :=
  {| zoomInFlags := Disable; zoomOutFlags := Disable; imageZoomFactor := 1;
     rotation := 0; flipH := false; flipV := false;
     cropLeft := 0; cropTop := 0; cropWidth := 0; cropHeight := 0;
     cropLeftPercent := 0; cropTopPercent := 0;
     cropWidthPercent := 0; cropHeightPercent := 0;
     hueVal := 0; saturationVal := 100; lightnessVal := 0;
     contrastVal := 0; brightVal := 100; colorizeEnabled := false;
     rNegateEnabled := false; gNegateEnabled := false; bNegateEnabled := false;
     hueRedChannel := true; hueGreenChannel := true; hueBlueChannel := true;
     redVal := 0; greenVal := 0; blueVal := 0 |}.


(** A 1 x 1 opaque image whose pixel is (180, 0, 255). *)
Definition violetPixel : QImage := mkImage Format_RGB32 1 1 [qRgb 180 0 255].

(** An image in a format outside the three 32-bit ones, with an alpha
    channel, whose conversion to [Format_RGB32] is the opaque 1 x 1 image
    above. *)
Definition indexedImage : Viewer.OtherImage := Viewer.mkOther true violetPixel.

(** A crop of 90 percent from the left. *)
Definition leftNinety : Settings :=
  {| zoomInFlags := Disable; zoomOutFlags := Disable; imageZoomFactor := 1;
     rotation := 0; flipH := false; flipV := false;
     cropLeft := 0; cropTop := 0; cropWidth := 0; cropHeight := 0;
     cropLeftPercent := 90; cropTopPercent := 0;
     cropWidthPercent := 0; cropHeightPercent := 0;
     hueVal := 0; saturationVal := 100; lightnessVal := 100;
     contrastVal := 0; brightVal := 100; colorizeEnabled := false;
     rNegateEnabled := false; gNegateEnabled := false; bNegateEnabled := false;
     hueRedChannel := true; hueGreenChannel := true; hueBlueChannel := true;
     redVal := 0; greenVal := 0; blueVal := 0 |}.

(** A stand-in for the smooth scaling of an image, for running the model
    on numbers: the image is returned as it is. *)
Definition scaledSmooth (img : QImage) (w h : Z) (mode : AspectRatioMode) : QImage := img.

(** Settings left by work on an earlier image: a flip, insets, a scaling
    to 2 x 2, and the mouse rotation switched on. *)
Definition editedSettings : ViewSettings :=
  {| core := {| zoomInFlags := Disable; zoomOutFlags := Disable; imageZoomFactor := 1;
                rotation := 0; flipH := true; flipV := false;
                cropLeft := 1; cropTop := 1; cropWidth := 1; cropHeight := 0;
                cropLeftPercent := 10; cropTopPercent := 0;
                cropWidthPercent := 0; cropHeightPercent := 0;
                hueVal := 0; saturationVal := 100; lightnessVal := 100;
                contrastVal := 0; brightVal := 100; colorizeEnabled := false;
                rNegateEnabled := false; gNegateEnabled := false;
                bNegateEnabled := false;
                hueRedChannel := true; hueGreenChannel := true;
                hueBlueChannel := true;
                redVal := 0; greenVal := 0; blueVal := 0 |};
     scaledWidth := 2; scaledHeight := 2;
     colorsActive := false; keepTransform := false;
     mouseRotateEnabled := true |}.

(** A crop of 10 percent from the left and 30 percent from the bottom. *)
Definition percentSettings : Settings :=
  {| zoomInFlags := Disable; zoomOutFlags := Disable; imageZoomFactor := 1;
     rotation := 0; flipH := false; flipV := false;
     cropLeft := 0; cropTop := 0; cropWidth := 0; cropHeight := 0;
     cropLeftPercent := 10; cropTopPercent := 0;
     cropWidthPercent := 0; cropHeightPercent := 30;
     hueVal := 0; saturationVal := 100; lightnessVal := 100;
     contrastVal := 0; brightVal := 100; colorizeEnabled := false;
     rNegateEnabled := false; gNegateEnabled := false; bNegateEnabled := false;
     hueRedChannel := true; hueGreenChannel := true; hueBlueChannel := true;
     redVal := 0; greenVal := 0; blueVal := 0 |}.

End Example.

(* ================================================================== *)
(** ** A check of the hue sectors, on machine integers

    The hue of a triple with two different channels depends on the branch
    of [rgbToHsl] (which channel is the largest), on the difference
    [delta] of the largest and the smallest channel and on the difference
    of the two other channels, which lies between [- delta] and [delta];
    [k] is that difference plus [delta]. *)

Module HueCheck.

Import RoundTripCheck.
#[local] Open Scope uint63_scope.

(** [(x - y) / (double) delta] where [x - y = k - delta]. *)
Definition quotient (delta k : int) : float := (sdiff k delta / of_uint63 delta)%float.

(** The hue byte in the three branches. *)
Definition redHue (delta k : int) : int :=
  rnd8 (wrapHue (quotient delta k * 42.5)%float).
Definition greenHue (delta k : int) : int :=
  rnd8 (wrapHue ((2 + quotient delta k) * 42.5)%float).
Definition blueHue (delta k : int) : int :=
  rnd8 (wrapHue ((4 + quotient delta k) * 42.5)%float).

Definition sectorCheck (delta k : int) : bool :=
  let hr := redHue delta k in
  let hg := greenHue delta k in
  let hb := blueHue delta k in
  if (hr <=? 43) || ((213 <=? hr) && (hr <=? 255)) then
    if (43 <=? hg) && (hg <=? 128) then (128 <=? hb) && (hb <=? 213) else false
  else false.

(** All the differences for one [delta]. *)
Definition sectorRow (delta : int) : bool :=
  allFrom (Z.to_nat (to_Z (2 * delta + 1))) 0 (sectorCheck delta).

End HueCheck.

(* ================================================================== *)
(** * Properties *)

(** ** Finite ranges and tables *)

Lemma forallb_below (P : Z -> bool) (n : nat) :
  forallb P (map Z.of_nat (seq 0 n)) = true ->
  forall v, 0 <= v < Z.of_nat n -> P v = true.
Proof.
  intros H v Hv.
  rewrite forallb_forall in H. apply H.
  rewrite in_map_iff. exists (Z.to_nat v). split.
  - apply Z2Nat.id; lia.
  - apply in_seq. lia.
Qed.

Lemma lookup_tabulate (f : Z -> Z) (i : Z) :
  0 <= i < 256 -> ImageViewer.lookup (ImageViewer.tabulate f) i = to_uchar (f i).
Proof.
  intros Hi. unfold ImageViewer.lookup, ImageViewer.tabulate.
  rewrite (nth_indep _ 0 (to_uchar (f (Z.of_nat 0)))) by (rewrite length_map, length_seq; lia).
  rewrite (map_nth (fun n => to_uchar (f (Z.of_nat n)))).
  rewrite seq_nth by lia. simpl. rewrite Z2Nat.id by lia. reflexivity.
Qed.

(** ** Bytes of a pixel word *)

Lemma testbit_255 (n : Z) : 0 <= n -> Z.testbit 255 n = (n <? 8).
Proof.
  intros Hn. change 255 with (Z.ones 8). apply Z.testbit_ones_nonneg; lia.
Qed.

Lemma land_255_range (z : Z) : 0 <= Z.land z 255 <= 255.
Proof.
  change 255 with (Z.ones 8) at 1 2. rewrite Z.land_ones by lia.
  pose proof (Z.mod_pos_bound z (2 ^ 8) ltac:(lia)). lia.
Qed.

Lemma land_255_small (z : Z) : 0 <= z <= 255 -> Z.land z 255 = z.
Proof.
  intros Hz. change 255 with (Z.ones 8). rewrite Z.land_ones by lia.
  apply Z.mod_small. lia.
Qed.

Lemma qRed_range (p : QRgb) : 0 <= qRed p <= 255.
Proof. apply land_255_range. Qed.

Lemma qGreen_range (p : QRgb) : 0 <= qGreen p <= 255.
Proof. apply land_255_range. Qed.

Lemma qBlue_range (p : QRgb) : 0 <= qBlue p <= 255.
Proof. apply land_255_range. Qed.

(** Reduction of a bit-level goal once the range of the bit index is
    known: bits at negative indices are false, the bits of 255 are the
    test [n <? 8], and every comparison is decided by [lia]. *)
Ltac decide_ltb :=
  repeat match goal with
  | |- context [?x <? ?y] =>
      first [ replace (x <? y) with true by (symmetry; apply Z.ltb_lt; lia)
            | replace (x <? y) with false by (symmetry; apply Z.ltb_ge; lia) ]
  end.

Ltac bits_in_range :=
  repeat match goal with
  | |- context [Z.testbit ?a ?m] =>
      rewrite (Z.testbit_neg_r a m) by lia
  end;
  repeat match goal with
  | |- context [Z.testbit 255 ?m] => rewrite (testbit_255 m) by lia
  end;
  decide_ltb;
  rewrite ?andb_true_r, ?andb_false_r, ?orb_false_r, ?orb_false_l;
  try reflexivity.

(** Bit [n] of the word [qRgba r g b a]. *)
Lemma testbit_qRgba (r g b a n : Z) :
  0 <= n ->
  Z.testbit (qRgba r g b a) n =
  if n <? 8 then Z.testbit b n
  else if n <? 16 then Z.testbit g (n - 8)
  else if n <? 24 then Z.testbit r (n - 16)
  else if n <? 32 then Z.testbit a (n - 24)
  else false.
Proof.
  intros Hn. unfold qRgba.
  rewrite !Z.lor_spec, !Z.shiftl_spec, !Z.land_spec by lia.
  assert (n < 8 \/ 8 <= n < 16 \/ 16 <= n < 24 \/ 24 <= n < 32 \/ 32 <= n) as C by lia.
  destruct C as [C | [C | [C | [C | C]]]]; bits_in_range.
Qed.

Lemma qRed_qRgba (r g b a : Z) : qRed (qRgba r g b a) = Z.land r 255.
Proof.
  unfold qRed. apply Z.bits_inj'. intros n Hn.
  rewrite !Z.land_spec, Z.shiftr_spec, testbit_qRgba by lia.
  replace (n + 16 - 16) with n by lia.
  assert (n < 8 \/ 8 <= n) as C by lia.
  destruct C as [C | C]; bits_in_range.
Qed.

Lemma qGreen_qRgba (r g b a : Z) : qGreen (qRgba r g b a) = Z.land g 255.
Proof.
  unfold qGreen. apply Z.bits_inj'. intros n Hn.
  rewrite !Z.land_spec, Z.shiftr_spec, testbit_qRgba by lia.
  replace (n + 8 - 8) with n by lia.
  assert (n < 8 \/ 8 <= n) as C by lia.
  destruct C as [C | C]; bits_in_range.
Qed.

Lemma qBlue_qRgba (r g b a : Z) : qBlue (qRgba r g b a) = Z.land b 255.
Proof.
  unfold qBlue. apply Z.bits_inj'. intros n Hn.
  rewrite !Z.land_spec, testbit_qRgba by lia.
  assert (n < 8 \/ 8 <= n) as C by lia.
  destruct C as [C | C]; bits_in_range.
Qed.

Lemma qAlpha_qRgba (r g b a : Z) : qAlpha (qRgba r g b a) = Z.land a 255.
Proof.
  unfold qAlpha. apply Z.bits_inj'. intros n Hn.
  rewrite Z.land_spec, Z.shiftr_spec, testbit_qRgba by lia.
  replace (n + 24 - 24) with n by lia.
  assert (n < 8 \/ 8 <= n) as C by lia.
  destruct C as [C | C]; bits_in_range.
Qed.

(* ================================================================== *)
(** ** Colour grading, pixel by pixel *)

Section ColorizeFacts.

Variable tan : float -> float.
Variable pow : float -> float -> float.

(** The graded image has the geometry of the input, and each of its words
    is the graded word of the input at the same place. *)
Lemma pixelAt_colorize (st : Settings) (img : QImage) (x y : Z) :
  let k := Z.to_nat (y * width img + x) in
  pixelAt (ImageViewer.colorize tan pow st img) x y =
  if (k <? length (bits img))%nat
  then ImageViewer.colorizePixel tan pow st (hasAlphaChannel img) (pixelAt img x y)
  else 0.
Proof.
  unfold pixelAt, ImageViewer.colorize; simpl.
  destruct (Nat.ltb_spec (Z.to_nat (y * width img + x)) (length (bits img))) as [Hk | Hk].
  - rewrite (nth_indep _ 0 (ImageViewer.colorizePixel tan pow st (hasAlphaChannel img) 0))
      by (rewrite length_map; exact Hk).
    apply map_nth.
  - apply nth_overflow. rewrite length_map. exact Hk.
Qed.

(** What [colorizePixel] leaves in the three colour bytes of the word. *)
Lemma colorizePixel_channels (st : Settings) (hasAlpha : bool) (p : QRgb) :
  let r := ImageViewer.preHsl tan pow st (rNegateEnabled st) (redVal st) (qRed p) in
  let g := ImageViewer.preHsl tan pow st (gNegateEnabled st) (greenVal st) (qGreen p) in
  let b := ImageViewer.preHsl tan pow st (bNegateEnabled st) (blueVal st) (qBlue p) in
  let hsl := ImageViewer.hslAdjust st (rgbToHsl r g b) in
  let rgb := hslToRgb (Z2F (fst (fst hsl))) (Z2F (snd (fst hsl))) (Z2F (snd hsl)) in
  let q := ImageViewer.colorizePixel tan pow st hasAlpha p in
  qRed q = Z.land (if hueRedChannel st then fst (fst rgb) else qRed p) 255 /\
  qGreen q = Z.land (if hueGreenChannel st then snd (fst rgb) else qGreen p) 255 /\
  qBlue q = Z.land (if hueBlueChannel st then snd rgb else qBlue p) 255.
Proof.
  cbv zeta. unfold ImageViewer.colorizePixel.
  destruct (ImageViewer.hslAdjust st _) as [[h s] l]; simpl fst; simpl snd.
  destruct (hslToRgb _ _ _) as [[hr hg] hb]; simpl fst; simpl snd.
  destruct hasAlpha; unfold qRgb;
    rewrite qRed_qRgba, qGreen_qRgba, qBlue_qRgba; auto.
Qed.

End ColorizeFacts.

(** C8. A colour channel whose enable flag is off keeps, in every pixel
    of the graded image, the value it had before grading: whatever the
    other settings are (negation, gains, brightness, contrast, hue,
    saturation, lightness), the red byte of the graded word is the red
    byte of the input word when [hueRedChannel] is off, and the same holds
    for green and blue with their flags. *)
Theorem colorize_disabled_channel_kept
    (tan : float -> float) (pow : float -> float -> float)
    (st : Settings) (img : QImage) (x y : Z) :
  (hueRedChannel st = false ->
   qRed (pixelAt (ImageViewer.colorize tan pow st img) x y) = qRed (pixelAt img x y)) /\
  (hueGreenChannel st = false ->
   qGreen (pixelAt (ImageViewer.colorize tan pow st img) x y) = qGreen (pixelAt img x y)) /\
  (hueBlueChannel st = false ->
   qBlue (pixelAt (ImageViewer.colorize tan pow st img) x y) = qBlue (pixelAt img x y)).
Proof.
  rewrite pixelAt_colorize. cbv zeta.
  destruct (Nat.ltb_spec (Z.to_nat (y * width img + x)) (length (bits img))) as [Hk | Hk].
  - destruct (colorizePixel_channels tan pow st (hasAlphaChannel img) (pixelAt img x y))
      as (Hr & Hg & Hb).
    repeat split; intros Hoff.
    + rewrite Hr, Hoff. apply land_255_small, qRed_range.
    + rewrite Hg, Hoff. apply land_255_small, qGreen_range.
    + rewrite Hb, Hoff. apply land_255_small, qBlue_range.
  - unfold pixelAt. rewrite nth_overflow by exact Hk. auto.
Qed.

(* ================================================================== *)
(** ** Grading with the identity configuration of the specification *)

Lemma below_256_eq (f g : Z -> Z) :
  forallb (fun v => f v =? g v) (map Z.of_nat (seq 0 256)) = true ->
  forall v, 0 <= v <= 255 -> f v = g v.
Proof.
  intros H v Hv. apply Z.eqb_eq.
  apply (forallb_below (fun v => f v =? g v) 256 H). lia.
Qed.

Lemma bound0To255_id (v : Z) : 0 <= v <= 255 -> bound0To255 v = v.
Proof.
  intros Hv. unfold bound0To255.
  destruct (Z.gtb_spec v 255); [lia |].
  destruct (Z.ltb_spec v 0); [lia | reflexivity].
Qed.

Lemma to_uchar_range (z : Z) : 0 <= to_uchar z <= 255.
Proof.
  unfold to_uchar. pose proof (Z.mod_pos_bound z 256 ltac:(lia)). lia.
Qed.

Lemma to_uchar_id (z : Z) : 0 <= z <= 255 -> to_uchar z = z.
Proof. intros Hz. apply Z.mod_small. lia. Qed.

Lemma threshold_range (v : Z) : 0 <= Spec.threshold v <= 255.
Proof. unfold Spec.threshold. destruct (v <? 128); lia. Qed.

Lemma rgbToHsl_range (r g b : Z) :
  let '(h, s, l) := rgbToHsl r g b in
  0 <= h <= 255 /\ 0 <= s <= 255 /\ 0 <= l <= 255.
Proof.
  unfold rgbToHsl. destruct (rgbToHsl_real r g b) as [[h s] l].
  repeat split; apply to_uchar_range.
Qed.

(** With contrast 0 the tangent is 0, both truncated bounds are 128 and
    the table is the cut at 128. *)
Lemma contrastEntry_zero (v : Z) :
  0 <= v <= 255 -> to_uchar (ImageViewer.contrastEntry 0 v) = Spec.threshold v.
Proof.
  revert v. apply below_256_eq. vm_compute. reflexivity.
Qed.

(** With brightness 100 the exponent is 1 and, the power being the
    identity there, the table maps each value to itself. *)
Lemma brightEntry_one (v : Z) :
  0 <= v <= 255 -> to_uchar (MIN 255 (F2Z (255.0 * (Z2F v / 255.0) + 0.5)%float)) = v.
Proof.
  revert v. apply (below_256_eq _ (fun v => v)). vm_compute. reflexivity.
Qed.

Section IdentityGrading.

Variable tan : float -> float.
Variable pow : float -> float -> float.
Hypothesis tan_zero : tan 0%float = 0%float.
Hypothesis pow_one : forall x : float, pow x 1%float = x.

Variable st : Settings.
Hypothesis Hid : Spec.identityGrading st.

Lemma contrastOf_identity : ImageViewer.contrastOf st = 0%float.
Proof.
  unfold ImageViewer.contrastOf.
  replace (contrastVal st) with 0 by (symmetry; apply Hid).
  vm_compute. reflexivity.
Qed.

Lemma brightnessOf_identity : ImageViewer.brightnessOf st = 1%float.
Proof.
  unfold ImageViewer.brightnessOf.
  replace (brightVal st) with 100 by (symmetry; apply Hid).
  vm_compute. reflexivity.
Qed.

Lemma preHsl_identity (v : Z) :
  0 <= v <= 255 -> ImageViewer.preHsl tan pow st false 0 v = Spec.threshold v.
Proof.
  intros Hv. unfold ImageViewer.preHsl.
  replace (Z.quot (v * (0 + 100)) 100) with v
    by (rewrite Z.add_0_l, Z.quot_mul; lia).
  rewrite (bound0To255_id v) by lia.
  unfold ImageViewer.brightTransform, ImageViewer.contrastTransform,
    ImageViewer.contrastTable.
  rewrite brightnessOf_identity, contrastOf_identity, tan_zero.
  rewrite (lookup_tabulate _ v) by lia.
  unfold ImageViewer.brightEntry.
  change (1.0 / 1)%float with 1%float. rewrite pow_one.
  rewrite brightEntry_one by lia.
  rewrite (bound0To255_id v) by lia.
  rewrite (lookup_tabulate _ v) by lia.
  rewrite contrastEntry_zero by lia.
  apply bound0To255_id, threshold_range.
Qed.

Lemma hslAdjust_identity (h s l : Z) :
  0 <= h <= 255 -> 0 <= s <= 255 -> 0 <= l <= 255 ->
  ImageViewer.hslAdjust st (h, s, l) = (h, s, l).
Proof.
  intros Hh Hs Hl. unfold ImageViewer.hslAdjust.
  destruct Hid as (Hsat & Hlig & Hhue & Hcol & _).
  rewrite Hsat, Hlig, Hhue, Hcol, Z.add_0_r.
  rewrite !Z.quot_mul by lia.
  rewrite !bound0To255_id, !to_uchar_id by lia. reflexivity.
Qed.

Lemma colorizePixel_identity (hasAlpha : bool) (p : QRgb) :
  ImageViewer.colorizePixel tan pow st hasAlpha p = Spec.posterizePixel hasAlpha p.
Proof.
  unfold ImageViewer.colorizePixel, Spec.posterizePixel, roundTrip.
  destruct Hid as (_ & _ & _ & _ & Hr & Hg & Hb & Hnr & Hng & Hnb & Hvr & Hvg & Hvb & _).
  rewrite Hr, Hg, Hb, Hnr, Hng, Hnb, Hvr, Hvg, Hvb.
  rewrite !preHsl_identity by (apply qRed_range || apply qGreen_range || apply qBlue_range).
  pose proof (rgbToHsl_range (Spec.threshold (qRed p)) (Spec.threshold (qGreen p))
                (Spec.threshold (qBlue p))) as Hrange.
  destruct (rgbToHsl _ _ _) as [[h s] l].
  destruct Hrange as (Hh & Hs & Hl).
  rewrite hslAdjust_identity by assumption. reflexivity.
Qed.

Lemma colorize_identity_posterizes (img : QImage) :
  ImageViewer.colorize tan pow st img =
  mkImage (format img) (width img) (height img)
          (map (Spec.posterizePixel (hasAlphaChannel img)) (bits img)).
Proof.
  unfold ImageViewer.colorize. f_equal.
  apply map_ext. intros p. apply colorizePixel_identity.
Qed.

End IdentityGrading.

(** C2 (as amended). With the identity configuration of the
    specification (saturation 100, lightness 100, hue 0, no colorize, all
    channels enabled, no negation, no gain, brightness 100, contrast 0),
    and a math library with [tan 0 = 0] and [pow x 1 = x], grading keeps
    the geometry and the alpha byte of every pixel and replaces its three
    colour bytes as follows: each is cut at 128 (below 128 it becomes 0,
    otherwise 255: this is the contrast table for contrast 0) and the
    result goes through the HSL round trip. *)
Theorem colorize_identity_configuration
    (tan : float -> float) (pow : float -> float -> float)
    (st : Settings) (img : QImage) :
  tan 0%float = 0%float ->
  (forall x : float, pow x 1%float = x) ->
  Spec.identityGrading st ->
  ImageViewer.colorize tan pow st img =
  mkImage (format img) (width img) (height img)
          (map (Spec.posterizePixel (hasAlphaChannel img)) (bits img)).
Proof.
  intros Htan Hpow Hid.
  apply (colorize_identity_posterizes tan pow Htan Hpow st Hid).
Qed.

Lemma identitySettings_identityGrading : Spec.identityGrading Sample.identitySettings.
Proof. unfold Spec.identityGrading. simpl. repeat split; reflexivity. Defined.

Lemma pow_exponent_one (x : float) : Sample.pow x 1%float = x.
Proof. reflexivity. Defined.

Lemma colorize_identity_configuration_witness :
  Spec.identityGrading Sample.identitySettings /\
  ImageViewer.colorize Sample.tan Sample.pow Sample.identitySettings Sample.twoPixels =
  mkImage Format_ARGB32 2 1
          (map (Spec.posterizePixel true) (bits Sample.twoPixels)).
Proof.
  split.
  - exact identitySettings_identityGrading.
  - exact (colorize_identity_configuration Sample.tan Sample.pow
             Sample.identitySettings Sample.twoPixels
             eq_refl pow_exponent_one identitySettings_identityGrading).
Defined.

(** C2, counterexample. With the identity configuration, whatever the
    math library (provided [tan 0 = 0] and [pow x 1 = x]), the image
    [twoPixels] is not left unchanged: its mid-grey pixel becomes black and
    its pixel (200, 30, 129) becomes (255, 1, 252). *)
Lemma colorize_identity_configuration_not_identity :
  (forall (tan : float -> float) (pow : float -> float -> float),
     tan 0%float = 0%float -> (forall x : float, pow x 1%float = x) ->
     ImageViewer.colorize tan pow Sample.identitySettings Sample.twoPixels =
     Sample.twoPixelsGraded) /\
  ImageViewer.colorize Sample.tan Sample.pow Sample.identitySettings Sample.twoPixels =
  Sample.twoPixelsGraded /\
  map qRed (bits Sample.twoPixels) = [100; 200] /\
  map qRed (bits Sample.twoPixelsGraded) = [0; 255].
Proof.
  assert (forall (tan : float -> float) (pow : float -> float -> float),
     tan 0%float = 0%float -> (forall x : float, pow x 1%float = x) ->
     ImageViewer.colorize tan pow Sample.identitySettings Sample.twoPixels =
     Sample.twoPixelsGraded) as H.
  { intros tan pow Htan Hpow.
    rewrite (colorize_identity_posterizes tan pow Htan Hpow _ identitySettings_identityGrading).
    vm_compute. reflexivity. }
  split; [exact H | split; [| split]].
  - apply H; [reflexivity | exact pow_exponent_one].
  - vm_compute. reflexivity.
  - vm_compute. reflexivity.
Qed.

(* ================================================================== *)
(** ** The contrast table *)

(** C3 (as amended). For every index [i] in [0, 255], with [t] the
    tangent of the contrast ([contrastVal / 100] as a float), the entry of
    the contrast table is: the quotient [(i - 128) / t + 128] truncated
    to an integer and stored as an unsigned char when [i] lies strictly
    between the two bounds [128 - 128 t] and [128 + 128 t] truncated to
    integers; 255 when [i] is at least the truncated upper bound; 0
    otherwise.  (The middle branch has no clamp of its own.) *)
Theorem contrastTransform_entry
    (tan : float -> float) (st : Settings) (i : Z) :
  0 <= i < 256 ->
  let t := tan (ImageViewer.contrastOf st) in
  let lower := F2Z (128 - 128 * t)%float in
  let upper := F2Z (128 + 128 * t)%float in
  ImageViewer.lookup (ImageViewer.contrastTransform tan st) i =
  if (lower <? i) && (i <? upper)
  then to_uchar (F2Z (Z2F (i - 128) / t + 128)%float)
  else if upper <=? i then 255 else 0.
Proof.
  intros Hi t lower upper.
  unfold ImageViewer.contrastTransform, ImageViewer.contrastTable.
  rewrite lookup_tabulate by exact Hi.
  unfold ImageViewer.contrastEntry. fold t. fold lower. fold upper.
  rewrite Z.gtb_ltb, Z.geb_leb, andb_comm.
  destruct ((lower <? i) && (i <? upper)); [reflexivity |].
  destruct (upper <=? i); reflexivity.
Qed.

Lemma contrastTransform_entry_witness :
  0 <= 100 < 256 /\
  ImageViewer.lookup (ImageViewer.contrastTransform Sample.tan Sample.identitySettings) 100 = 0.
Proof.
  split; [lia |].
  apply (contrastTransform_entry Sample.tan Sample.identitySettings 100). lia.
Defined.

(** C3, counterexample. For a tangent of about 0.3093 (contrast 30) the
    upper bound is 167.595...: index 167 lies strictly between the two
    real bounds, where the specification gives the clamped quotient
    254.07..., while the code compares with the truncated bound 167 and
    stores 255. *)
Lemma contrastTable_differs_from_spec :
  (0 <? Sample.tan_0_3)%float = true /\
  ((128 - 128 * Sample.tan_0_3 <? Z2F 167) && (Z2F 167 <? 128 + 128 * Sample.tan_0_3))%float = true /\
  ((254 <? Spec.contrastEntry_spec Sample.tan_0_3 167) &&
   (Spec.contrastEntry_spec Sample.tan_0_3 167 <? 254.5))%float = true /\
  ImageViewer.lookup (ImageViewer.contrastTable Sample.tan_0_3) 167 = 255.
Proof. vm_compute. repeat split. Qed.

(* ================================================================== *)
(** ** The hue in rotate mode *)




Lemma colorize_disabled_channel_kept_witness :
  qRed (pixelAt (ImageViewer.colorize Sample.tan Sample.pow Sample.hueSettings Sample.twoPixels) 1 0) =
  qRed (pixelAt Sample.twoPixels 1 0).
Proof.
  exact (proj1 (colorize_disabled_channel_kept Sample.tan Sample.pow
                  Sample.hueSettings Sample.twoPixels 1 0) eq_refl).
Defined.

(* ================================================================== *)
(** ** The geometric stage *)

Section TransformFacts.

Variable transformed : float -> QImage -> QImage.

Lemma rotateStage_zero (st : Settings) (img : QImage) :
  rotation st = 0%float -> ImageViewer.rotateStage transformed st img = img.
Proof.
  intros H. unfold ImageViewer.rotateStage. rewrite H. reflexivity.
Qed.

Lemma flipStage_none (st : Settings) (img : QImage) :
  flipH st = false -> flipV st = false -> ImageViewer.flipStage st img = img.
Proof.
  intros Hh Hv. unfold ImageViewer.flipStage. rewrite Hh, Hv. reflexivity.
Qed.

Lemma cropRect_none (st : Settings) (img : QImage) :
  cropLeft st = 0 -> cropTop st = 0 -> cropWidth st = 0 -> cropHeight st = 0 ->
  cropLeftPercent st = 0 -> cropTopPercent st = 0 ->
  cropWidthPercent st = 0 -> cropHeightPercent st = 0 ->
  ImageViewer.cropRect st img = None.
Proof.
  intros H1 H2 H3 H4 H5 H6 H7 H8.
  unfold ImageViewer.cropRect, ImageViewer.cropAbsolute, ImageViewer.croppingOn.
  rewrite H1, H2, H3, H4, H5, H6, H7, H8. reflexivity.
Qed.

(** What [QImage::copy] returns for a rectangle with a non-positive side. *)
Lemma copy_degenerate (img : QImage) (x y w h : Z) :
  w <= 0 \/ h <= 0 ->
  copy img x y w h =
  if isNull img then nullImage
  else if (w =? 0) && (h =? 0) then img else nullImage.
Proof.
  intros Hd. unfold copy.
  destruct (isNull img); [reflexivity |].
  destruct ((w =? 0) && (h =? 0)); [reflexivity |].
  destruct (Z.leb_spec w 0); [reflexivity |].
  destruct (Z.leb_spec h 0); [reflexivity | lia].
Qed.

End TransformFacts.

(** C4. With rotation 0, no horizontal and no vertical flip and the
    eight crop fields (four absolute, four in percent) equal to zero, the
    geometric stage returns its input image unchanged. *)
Theorem transform_identity
    (transformed : float -> QImage -> QImage) (st : Settings) (img : QImage) :
  Spec.noGeometricEdit st ->
  ImageViewer.transform transformed st img = img.
Proof.
  intros (Hrot & Hh & Hv & H1 & H2 & H3 & H4 & H5 & H6 & H7 & H8).
  unfold ImageViewer.transform, ImageViewer.cropStage.
  rewrite rotateStage_zero, flipStage_none by assumption.
  rewrite cropRect_none by assumption. reflexivity.
Qed.

Lemma identitySettings_noGeometricEdit : Spec.noGeometricEdit Sample.identitySettings.
Proof. unfold Spec.noGeometricEdit. simpl. repeat split; reflexivity. Defined.

Lemma transform_identity_witness :
  Spec.noGeometricEdit Sample.identitySettings /\
  ImageViewer.transform Sample.transformed Sample.identitySettings Sample.fourByFour =
  Sample.fourByFour.
Proof.
  split.
  - exact identitySettings_noGeometricEdit.
  - exact (transform_identity Sample.transformed Sample.identitySettings
             Sample.fourByFour identitySettings_noGeometricEdit).
Defined.

(** C9 (as amended). The geometric stage does not validate the crop
    rectangle and has no error result.  When the rectangle computed from
    the crop fields has a non-positive width or height, the stage hands it
    to [QImage::copy] as it is and the working image becomes what [copy]
    returns: the null image, except that a rectangle of width 0 and height
    0 is a null rectangle, for which [copy] returns the whole (rotated and
    flipped) image. *)
Theorem transform_degenerate_crop
    (transformed : float -> QImage -> QImage) (st : Settings) (img : QImage)
    (x y w h : Z) :
  let pre := ImageViewer.flipStage st (ImageViewer.rotateStage transformed st img) in
  ImageViewer.cropRect st pre = Some (x, y, w, h) ->
  w <= 0 \/ h <= 0 ->
  ImageViewer.transform transformed st img =
  if isNull pre then nullImage
  else if (w =? 0) && (h =? 0) then pre else nullImage.
Proof.
  intros pre Hrect Hd.
  unfold ImageViewer.transform, ImageViewer.cropStage. fold pre.
  rewrite Hrect. apply copy_degenerate. exact Hd.
Qed.

Lemma transform_degenerate_crop_witness :
  ImageViewer.cropRect Sample.cropSettings Sample.fourByFour = Some (3, 0, -2, 4) /\
  ImageViewer.transform Sample.transformed Sample.cropSettings Sample.fourByFour = nullImage.
Proof.
  split; [reflexivity |].
  apply (transform_degenerate_crop Sample.transformed Sample.cropSettings
           Sample.fourByFour 3 0 (-2) 4); [reflexivity | lia].
Defined.

(** C9, counterexample. A 4 x 4 image with a left inset of 3 and a width
    trim of 3: the crop rectangle has width -2.  The stage returns an
    image all the same, the null one (no pixel, width 0, height 0). *)
Lemma transform_degenerate_crop_not_rejected :
  ImageViewer.cropRect Sample.cropSettings Sample.fourByFour = Some (3, 0, -2, 4) /\
  ImageViewer.transform Sample.transformed Sample.cropSettings Sample.fourByFour = nullImage /\
  bits nullImage = [] /\ isNull nullImage = true.
Proof. vm_compute. repeat split. Qed.

(* ================================================================== *)
(** ** Zoom-fit sizing *)

(** Two sizes that [QSize::scale] relates with [KeepAspectRatio]: one side
    is the target's, the other follows from it by the aspect ratio of the
    source. *)
Lemma scaled_keeps_aspect (w h tw th : Z) :
  w <> 0 -> h <> 0 ->
  let r := scaled (mkSize w h) tw th KeepAspectRatio in
  (ht r = th /\ wd r = to_int (Z.quot (th * w) h)) \/
  (wd r = tw /\ ht r = to_int (Z.quot (tw * h) w)).
Proof.
  intros Hw Hh. unfold scaled. simpl.
  destruct (Z.eqb_spec w 0); [contradiction |].
  destruct (Z.eqb_spec h 0); [contradiction |]. simpl.
  destruct (Z.quot (th * w) h <=? tw); simpl; auto.
Qed.

Lemma zoomOut_not_triggered (st : Settings) (view size : QSize) :
  zoomOutFlags st <> Disprop ->
  wd size < wd view -> ht size < ht view ->
  ImageViewer.zoomOut st view size = size.
Proof.
  intros Hpol Hw Hh. unfold ImageViewer.zoomOut.
  destruct (zoomOutFlags st); try contradiction.
  - destruct (Z.geb_spec (wd size) (wd view)); [lia |].
    destruct (Z.geb_spec (ht size) (ht view)); [lia | reflexivity].
  - destruct (Z.geb_spec (wd size) (wd view)); [lia |].
    destruct (Z.geb_spec (ht size) (ht view)); [lia | reflexivity].
  - destruct (Z.geb_spec (wd size) (wd view)); [lia | reflexivity].
  - destruct (Z.geb_spec (ht size) (ht view)); [lia | reflexivity].
Qed.

(** C7 (as amended). With zoom-in policy [Disable], resizing enabled
    and an image strictly smaller than the viewport in both dimensions, the
    zoom-in step replaces the image size (w, h) by the size [fitted] that
    [QSize::scale] fits, keeping the aspect ratio, into the two sides
    multiplied by the zoom factor and truncated; the zoom-out policy is
    then applied to [fitted].  [fitted] is the final size when it is still
    strictly smaller than the viewport in both dimensions and the zoom-out
    policy is not [Disprop]. *)
Theorem resizeImage_zoomIn_disable (st : Settings) (w h vw vh : Z) :
  zoomInFlags st = Disable ->
  0 < w < vw -> 0 < h < vh ->
  let view := mkSize vw vh in
  let fitted := scaled (mkSize w h) (calcZoom st w) (calcZoom st h) KeepAspectRatio in
  ImageViewer.resizeImage st false false (Some (mkSize w h)) view =
    Some (ImageViewer.zoomOut st view fitted) /\
  ((ht fitted = calcZoom st h /\ wd fitted = to_int (Z.quot (calcZoom st h * w) h)) \/
   (wd fitted = calcZoom st w /\ ht fitted = to_int (Z.quot (calcZoom st w * h) w))) /\
  (zoomOutFlags st <> Disprop -> wd fitted < vw -> ht fitted < vh ->
   ImageViewer.resizeImage st false false (Some (mkSize w h)) view = Some fitted).
Proof.
  intros Hin Hw Hh view fitted.
  assert (ImageViewer.resizeImage st false false (Some (mkSize w h)) view =
          Some (ImageViewer.zoomOut st view fitted)) as Hres.
  { unfold ImageViewer.resizeImage, isEmpty. simpl.
    destruct (Z.ltb_spec w 1); [lia |].
    destruct (Z.ltb_spec h 1); [lia |]. simpl.
    unfold ImageViewer.zoomIn. rewrite Hin. simpl.
    destruct (Z.leb_spec w vw); [| lia].
    destruct (Z.leb_spec h vh); [| lia]. reflexivity. }
  split; [exact Hres | split].
  - apply scaled_keeps_aspect; lia.
  - intros Hpol Hfw Hfh. rewrite Hres.
    rewrite zoomOut_not_triggered; auto.
Qed.

Lemma resizeImage_zoomIn_disable_witness :
  ImageViewer.resizeImage Sample.zoomSettings false false (Some (mkSize 40 30)) (mkSize 100 100) =
  Some (mkSize 80 60).
Proof.
  apply (proj2 (proj2 (resizeImage_zoomIn_disable Sample.zoomSettings 40 30 100 100
                         eq_refl ltac:(lia) ltac:(lia)))).
  - discriminate.
  - vm_compute. reflexivity.
  - vm_compute. reflexivity.
Defined.

(** C7, counterexample. Zoom factor 2, both policies [Disable], a
    60 x 60 image in a 100 x 100 viewport: the zoom-in step gives 120 x 120,
    which exceeds the viewport, so the zoom-out step multiplies once more
    and the final size is 240 x 240, not the original size times 2. *)
Lemma resizeImage_zoomIn_disable_scales_twice :
  calcZoom Sample.zoomSettings 60 = 120 /\
  ImageViewer.zoomIn Sample.zoomSettings (mkSize 100 100) (mkSize 60 60) = mkSize 120 120 /\
  ImageViewer.resizeImage Sample.zoomSettings false false (Some (mkSize 60 60)) (mkSize 100 100) =
  Some (mkSize 240 240).
Proof. vm_compute. repeat split. Qed.

(* ================================================================== *)
(** ** Images built pixel by pixel, and the painter *)

Lemma pixelAt_mkBits (fmt : Format) (w h : Z) (f : Z -> Z -> QRgb) (x y : Z) :
  0 <= x < w -> 0 <= y < h ->
  pixelAt (mkImage fmt w h (mkBits w h f)) x y = f x y.
Proof.
  intros Hx Hy. unfold pixelAt, mkBits. simpl.
  assert (0 <= y * w + x < w * h) as Hk by nia.
  rewrite (nth_indep _ 0 (f (Z.of_nat 0 mod w) (Z.of_nat 0 / w)))
    by (rewrite length_map, length_seq; lia).
  rewrite (map_nth (fun n => f (Z.of_nat n mod w) (Z.of_nat n / w))).
  rewrite seq_nth by lia. simpl. rewrite Z2Nat.id by lia.
  f_equal.
  - rewrite Z.add_comm, Z.mod_add by lia. apply Z.mod_small. lia.
  - rewrite Z.add_comm, Z.div_add by lia. rewrite Z.div_small by lia. lia.
Qed.

Lemma pixelAt_mirrored_horizontal (img : QImage) (x y : Z) :
  0 <= x < width img -> 0 <= y < height img ->
  pixelAt (mirrored true false img) x y = pixelAt img (width img - 1 - x) y.
Proof.
  intros Hx Hy. unfold mirrored. simpl.
  rewrite pixelAt_mkBits by assumption. reflexivity.
Qed.

Lemma pixelAt_drawImage (dst : QImage) (x0 y0 : Z) (src : QImage) (x y : Z) :
  0 <= x < width dst -> 0 <= y < height dst ->
  pixelAt (drawImage dst x0 y0 src) x y =
  if (x0 <=? x) && (x <? x0 + width src) && (y0 <=? y) && (y <? y0 + height src)
  then store (format dst)
         (sourceOver (fetch (format src) (pixelAt src (x - x0) (y - y0)))
                     (fetch (format dst) (pixelAt dst x y)))
  else pixelAt dst x y.
Proof.
  intros Hx Hy. unfold drawImage. rewrite pixelAt_mkBits by assumption. reflexivity.
Qed.

(** *** An opaque word survives the painter *)

Lemma qt_div_255_opaque (c : Z) : 0 <= c <= 255 -> qt_div_255 (c * 255) = c.
Proof.
  revert c. apply (below_256_eq (fun c => qt_div_255 (c * 255)) (fun c => c)).
  vm_compute. reflexivity.
Qed.

Lemma qAlpha_255_word (p : QRgb) : qAlpha p = 255 -> 255 * 2 ^ 24 <= p < 2 ^ 32.
Proof.
  unfold qAlpha. rewrite Z.shiftr_div_pow2 by lia. intros H.
  pose proof (Z.div_mod p (2 ^ 24) ltac:(lia)) as Hdm.
  pose proof (Z.mod_pos_bound p (2 ^ 24) ltac:(lia)) as Hm.
  rewrite H in Hdm. lia.
Qed.

(** A 32-bit word is made of its four bytes. *)
Lemma qRgba_of_bytes (p : QRgb) :
  0 <= p < 2 ^ 32 -> qRgba (qRed p) (qGreen p) (qBlue p) (qAlpha p) = p.
Proof.
  intros Hp. apply Z.bits_inj'. intros n Hn.
  rewrite testbit_qRgba by lia.
  unfold qRed, qGreen, qBlue, qAlpha.
  assert (n < 8 \/ 8 <= n < 16 \/ 16 <= n < 24 \/ 24 <= n < 32 \/ 32 <= n) as C by lia.
  destruct C as [C | [C | [C | [C | C]]]];
    decide_ltb; rewrite ?Z.land_spec, ?Z.shiftr_spec by lia;
    rewrite ?testbit_255 by lia; decide_ltb; rewrite ?andb_true_r.
  - reflexivity.
  - f_equal; lia.
  - f_equal; lia.
  - f_equal; lia.
  - symmetry. destruct (Z.eq_dec p 0) as [-> | Hnz]; [apply Z.bits_0 |].
    apply Z.bits_above_log2; [lia |].
    apply Z.lt_le_trans with 32; [| lia].
    apply Z.log2_lt_pow2; lia.
Qed.

Lemma lor_opaque (p : QRgb) : qAlpha p = 255 -> Z.lor p 0xff000000 = p.
Proof.
  intros Ha. apply Z.bits_inj'. intros n Hn.
  rewrite Z.lor_spec.
  change 0xff000000 with (Z.shiftl 255 24). rewrite Z.shiftl_spec by lia.
  destruct (Z.ltb_spec n 24) as [C | C].
  - rewrite (Z.testbit_neg_r 255) by lia. apply orb_false_r.
  - rewrite testbit_255 by lia.
    destruct (Z.ltb_spec (n - 24) 8) as [C' | C']; [| apply orb_false_r].
    rewrite orb_true_r.
    replace n with (n - 24 + 24) by lia.
    rewrite <- Z.shiftr_spec by lia. fold (qAlpha p). rewrite Ha.
    rewrite testbit_255 by lia. symmetry. apply Z.ltb_lt. lia.
Qed.

Lemma qPremultiply_opaque (p : QRgb) : qAlpha p = 255 -> qPremultiply p = p.
Proof.
  intros Ha. unfold qPremultiply. rewrite Ha.
  rewrite !qt_div_255_opaque by (apply qRed_range || apply qGreen_range || apply qBlue_range).
  rewrite <- Ha at 1. apply qRgba_of_bytes.
  pose proof (qAlpha_255_word p Ha). lia.
Qed.

Lemma fetch_opaque (fmt : Format) (p : QRgb) : qAlpha p = 255 -> fetch fmt p = p.
Proof.
  intros Ha. destruct fmt; simpl; auto using lor_opaque, qPremultiply_opaque.
Qed.

Lemma sourceOver_opaque (s d : QRgb) : qAlpha s = 255 -> sourceOver s d = s.
Proof.
  intros Ha. unfold sourceOver.
  pose proof (qAlpha_255_word s Ha).
  destruct (Z.geb_spec s 0xff000000); [reflexivity | lia].
Qed.

Lemma store_ARGB32_opaque (p : QRgb) : qAlpha p = 255 -> store Format_ARGB32 p = p.
Proof.
  intros Ha. simpl. unfold qUnpremultiply. rewrite Ha. reflexivity.
Qed.

(** Drawing an opaque source word on an ARGB32 canvas leaves that word,
    whatever the canvas held. *)
Lemma paint_opaque (fmt : Format) (p d : QRgb) :
  qAlpha p = 255 ->
  store Format_ARGB32 (sourceOver (fetch fmt p) (fetch Format_ARGB32 d)) = p.
Proof.
  intros Ha. rewrite fetch_opaque by exact Ha.
  rewrite sourceOver_opaque by exact Ha. apply store_ARGB32_opaque, Ha.
Qed.

(* ================================================================== *)
(** ** The mirror layouts *)

Lemma newImage_positive (mem : nat -> QRgb) (w h : Z) (fmt : Format) :
  0 < w -> 0 < h ->
  newImage mem w h fmt = mkImage fmt w h (map mem (seq 0 (Z.to_nat (w * h)))).
Proof.
  intros Hw Hh. unfold newImage.
  destruct (Z.leb_spec w 0); [lia |].
  destruct (Z.leb_spec h 0); [lia | reflexivity].
Qed.

Lemma width_drawImage (dst : QImage) (x0 y0 : Z) (src : QImage) :
  width (drawImage dst x0 y0 src) = width dst.
Proof. reflexivity. Qed.

Lemma height_drawImage (dst : QImage) (x0 y0 : Z) (src : QImage) :
  height (drawImage dst x0 y0 src) = height dst.
Proof. reflexivity. Qed.

Lemma format_drawImage (dst : QImage) (x0 y0 : Z) (src : QImage) :
  format (drawImage dst x0 y0 src) = format dst.
Proof. reflexivity. Qed.

Lemma width_mirrored (hz vt : bool) (img : QImage) :
  width (mirrored hz vt img) = width img.
Proof. unfold mirrored. destruct (negb hz && negb vt); reflexivity. Qed.

Lemma height_mirrored (hz vt : bool) (img : QImage) :
  height (mirrored hz vt img) = height img.
Proof. unfold mirrored. destruct (negb hz && negb vt); reflexivity. Qed.

Create Rewrite HintDb geometry.
#[local] Hint Rewrite width_drawImage height_drawImage format_drawImage
  width_mirrored height_mirrored : geometry.

(** The side conditions of the painter lemmas: positions against the
    sizes of canvases and tiles. *)
Ltac geometry :=
  autorewrite with geometry; cbn [width height format]; try lia; try reflexivity.

(** One [drawImage] on an ARGB32 canvas, seen from a canvas position:
    inside the rectangle of the source an opaque source word replaces what
    was there; outside, the canvas is unchanged. *)
Lemma drawImage_opaque_inside (dst : QImage) (x0 y0 : Z) (src : QImage) (x y : Z) :
  format dst = Format_ARGB32 ->
  0 <= x < width dst -> 0 <= y < height dst ->
  x0 <= x < x0 + width src -> y0 <= y < y0 + height src ->
  qAlpha (pixelAt src (x - x0) (y - y0)) = 255 ->
  pixelAt (drawImage dst x0 y0 src) x y = pixelAt src (x - x0) (y - y0).
Proof.
  intros Hf Hx Hy Hsx Hsy Ha.
  rewrite pixelAt_drawImage by assumption.
  destruct (Z.leb_spec x0 x); [| lia].
  destruct (Z.ltb_spec x (x0 + width src)); [| lia].
  destruct (Z.leb_spec y0 y); [| lia].
  destruct (Z.ltb_spec y (y0 + height src)); [| lia].
  simpl. rewrite Hf. apply paint_opaque, Ha.
Qed.

Lemma drawImage_outside (dst : QImage) (x0 y0 : Z) (src : QImage) (x y : Z) :
  0 <= x < width dst -> 0 <= y < height dst ->
  x < x0 \/ x0 + width src <= x \/ y < y0 \/ y0 + height src <= y ->
  pixelAt (drawImage dst x0 y0 src) x y = pixelAt dst x y.
Proof.
  intros Hx Hy Hout.
  rewrite pixelAt_drawImage by assumption.
  destruct (Z.leb_spec x0 x); [| reflexivity].
  destruct (Z.ltb_spec x (x0 + width src)); [| reflexivity].
  destruct (Z.leb_spec y0 y); [| reflexivity].
  destruct (Z.ltb_spec y (y0 + height src)); [lia | reflexivity].
Qed.

(** C5 (as amended). For an image of width w > 0 and height h > 0 the
    Dual layout gives a canvas of width 2 w and height h.  Every opaque
    pixel (alpha 255) of the image is found unchanged at its own place in
    the left half and at the mirrored column in the right half, whatever
    the memory of the new canvas held; so for an image without
    transparency the left half is the image and the right half is its
    horizontal mirror. *)
Theorem mirror_dual (mem : nat -> QRgb) (img old : QImage) :
  0 < width img -> 0 < height img ->
  let w := width img in
  let out := ImageViewer.mirror mem ImageViewer.LayDual img old in
  width out = 2 * w /\ height out = height img /\
  forall x y, 0 <= x < w -> 0 <= y < height img ->
    (qAlpha (pixelAt img x y) = 255 -> pixelAt out x y = pixelAt img x y) /\
    (qAlpha (pixelAt img (w - 1 - x) y) = 255 ->
     pixelAt out (w + x) y = pixelAt img (w - 1 - x) y).
Proof.
  intros Hw Hh w out. subst out w. unfold ImageViewer.mirror.
  rewrite newImage_positive by lia.
  split; [geometry | split; [geometry |]].
  intros x y Hx Hy. split; intros Ha.
  - rewrite drawImage_outside by geometry.
    rewrite drawImage_opaque_inside; rewrite ?Z.sub_0_r; auto; geometry.
  - replace (pixelAt img (width img - 1 - x) y)
      with (pixelAt (mirrored true false img) (width img + x - width img) (y - 0))
      in * by (rewrite <- pixelAt_mirrored_horizontal by lia; f_equal; lia).
    apply drawImage_opaque_inside; auto; geometry.
Qed.

Lemma mirror_dual_witness :
  let out := ImageViewer.mirror Sample.usedMemory ImageViewer.LayDual
               Sample.fourByFour nullImage in
  width out = 8 /\ height out = 4 /\
  pixelAt out 1 2 = pixelAt Sample.fourByFour 1 2 /\
  pixelAt out (4 + 1) 2 = pixelAt Sample.fourByFour (4 - 1 - 1) 2.
Proof.
  pose proof (mirror_dual Sample.usedMemory Sample.fourByFour nullImage
                ltac:(simpl; lia) ltac:(simpl; lia)) as (Hwd & Hht & Hpix).
  destruct (Hpix 1 2 ltac:(simpl; lia) ltac:(simpl; lia)) as (Hleft & Hright).
  exact (conj Hwd (conj Hht (conj (Hleft eq_refl) (Hright eq_refl)))).
Defined.

(** C5, counterexample. A 1 x 1 image whose pixel is fully transparent
    white (0x00FFFFFF), drawn on a canvas whose memory holds zeros: the
    left pixel of the Dual canvas is 0, not the pixel of the image; with
    memory that holds an opaque word it is that word. *)
Lemma mirror_dual_transparent_pixel_lost :
  pixelAt Sample.transparentWhite 0 0 = 0x00FFFFFF /\
  pixelAt (ImageViewer.mirror Sample.zeroMemory ImageViewer.LayDual
             Sample.transparentWhite nullImage) 0 0 = 0 /\
  pixelAt (ImageViewer.mirror Sample.usedMemory ImageViewer.LayDual
             Sample.transparentWhite nullImage) 0 0 = 0xFF112233.
Proof. vm_compute. repeat split. Qed.

(** C6 (as amended). For an image of width w > 0 and height h > 0 the
    Triple layout gives a canvas of width 3 w and height h.  Every opaque
    pixel of the image is found unchanged at its own place in the first
    tile and in the third tile (which is drawn from
    [mirrored(false, false)], the image itself), and at the mirrored column
    in the second tile; so for an image without transparency the third
    tile equals the first. *)
Theorem mirror_triple (mem : nat -> QRgb) (img old : QImage) :
  0 < width img -> 0 < height img ->
  let w := width img in
  let out := ImageViewer.mirror mem ImageViewer.LayTriple img old in
  width out = 3 * w /\ height out = height img /\
  mirrored false false img = img /\
  forall x y, 0 <= x < w -> 0 <= y < height img ->
    (qAlpha (pixelAt img x y) = 255 ->
     pixelAt out x y = pixelAt img x y /\
     pixelAt out (2 * w + x) y = pixelAt out x y) /\
    (qAlpha (pixelAt img (w - 1 - x) y) = 255 ->
     pixelAt out (w + x) y = pixelAt img (w - 1 - x) y).
Proof.
  intros Hw Hh w out. subst out w. unfold ImageViewer.mirror.
  rewrite newImage_positive by lia.
  split; [geometry | split; [geometry | split; [reflexivity |]]].
  intros x y Hx Hy.
  change (mirrored false false img) with img.
  set (canvas := mkImage Format_ARGB32 (width img * 3) (height img)
                   (map mem (seq 0 (Z.to_nat (width img * 3 * height img))))).
  set (tiles := drawImage (drawImage canvas 0 0 img) (width img) 0
                          (mirrored true false img)).
  split; intros Ha.
  - assert (pixelAt (drawImage tiles (width img * 2) 0 img) x y = pixelAt img x y) as H0.
    { subst tiles canvas.
      rewrite drawImage_outside by geometry.
      rewrite drawImage_outside by geometry.
      rewrite drawImage_opaque_inside; rewrite ?Z.sub_0_r; auto; geometry. }
    split; [exact H0 |]. rewrite H0.
    replace (pixelAt img x y)
      with (pixelAt img (2 * width img + x - width img * 2) (y - 0)) in *
      by (f_equal; lia).
    subst tiles canvas.
    apply drawImage_opaque_inside; auto; geometry.
  - subst tiles canvas.
    rewrite drawImage_outside by geometry.
    replace (pixelAt img (width img - 1 - x) y)
      with (pixelAt (mirrored true false img) (width img + x - width img) (y - 0))
      in * by (rewrite <- pixelAt_mirrored_horizontal by lia; f_equal; lia).
    apply drawImage_opaque_inside; auto; geometry.
Qed.

Lemma mirror_triple_witness :
  let out := ImageViewer.mirror Sample.usedMemory ImageViewer.LayTriple
               Sample.fourByFour nullImage in
  width out = 12 /\ height out = 4 /\
  pixelAt out 1 2 = pixelAt Sample.fourByFour 1 2 /\
  pixelAt out (2 * 4 + 1) 2 = pixelAt out 1 2.
Proof.
  pose proof (mirror_triple Sample.usedMemory Sample.fourByFour nullImage
                ltac:(simpl; lia) ltac:(simpl; lia)) as (Hwd & Hht & _ & Hpix).
  destruct (Hpix 1 2 ltac:(simpl; lia) ltac:(simpl; lia)) as (Hfirst & _).
  exact (conj Hwd (conj Hht (conj (proj1 (Hfirst eq_refl)) (proj2 (Hfirst eq_refl))))).
Defined.

(** C6, counterexample. The 1 x 1 fully transparent image on a canvas
    whose first word holds an opaque colour and whose other words hold
    zeros: the first tile shows that colour and the third tile shows 0;
    neither is the pixel of the image, and the two tiles differ. *)
Lemma mirror_triple_tiles_differ :
  pixelAt Sample.transparentWhite 0 0 = 0x00FFFFFF /\
  pixelAt (ImageViewer.mirror Sample.usedMemory ImageViewer.LayTriple
             Sample.transparentWhite nullImage) 0 0 = 0xFF112233 /\
  pixelAt (ImageViewer.mirror Sample.usedMemory ImageViewer.LayTriple
             Sample.transparentWhite nullImage) 2 0 = 0.
Proof. vm_compute. repeat split. Qed.

(* ================================================================== *)
(** ** The HSL round trip *)

(** C1, counterexample. The triple (255, 3, 0) has hue 0.5, stored as 1;
    one step of the 8-bit hue is six steps of a channel, and the round trip
    returns (255, 7, 1): green is off by 4. *)
Lemma roundTrip_off_by_four :
  rgbToHsl 255 3 0 = (1, 255, 128) /\
  roundTrip 255 3 0 = (255, 7, 1) /\
  1 < Z.abs (7 - 3).
Proof. vm_compute. repeat split. Qed.

(** On an achromatic triple (r = g = b = v with v in [0, 255]) the round
    trip through [rgbToHsl] and [hslToRgb] is exact. *)
Lemma roundTrip_exact_on_greys (v : Z) :
  0 <= v <= 255 -> roundTrip v v v = (v, v, v).
Proof.
  intros Hv.
  assert (forall v, 0 <= v <= 255 ->
            (let '(r, g, b) := roundTrip v v v in (r =? v) && (g =? v) && (b =? v)) = true) as H.
  { clear v Hv. intros v Hv.
    apply (forallb_below (fun v => let '(r, g, b) := roundTrip v v v in
                                   (r =? v) && (g =? v) && (b =? v)) 256);
      [vm_compute; reflexivity | lia]. }
  specialize (H v Hv). destruct (roundTrip v v v) as [[r g] b].
  apply andb_prop in H. destruct H as (H & Hb).
  apply andb_prop in H. destruct H as (Hr & Hg).
  apply Z.eqb_eq in Hr, Hg, Hb. congruence.
Qed.


(* ================================================================== *)
(** ** Soundness of the exhaustive check *)

Module RoundTripProof.

Import PArray RoundTripCheck.

Local Open Scope Z_scope.

Local Abbreviation tz := Uint63.to_Z.

Lemma wB_value : wB = 9223372036854775808.
Proof. reflexivity. Qed.

(** *** Small machine integers *)

Lemma to_Z_add_small (a b : int) : tz a + tz b < wB -> tz (a + b)%uint63 = tz a + tz b.
Proof.
  intros H. rewrite Uint63.add_spec. apply Z.mod_small.
  pose proof (to_Z_bounded a). pose proof (to_Z_bounded b). lia.
Qed.

Lemma to_Z_sub_small (a b : int) : tz b <= tz a -> tz (a - b)%uint63 = tz a - tz b.
Proof.
  intros H. rewrite Uint63.sub_spec. apply Z.mod_small.
  pose proof (to_Z_bounded a). pose proof (to_Z_bounded b). lia.
Qed.

Lemma to_Z_of_Z_small (z : Z) : 0 <= z < wB -> tz (of_Z z) = z.
Proof. intros H. rewrite of_Z_spec. apply Z.mod_small. exact H. Qed.

Lemma to_Z_of_Z_byte (z : Z) : 0 <= z <= 255 -> tz (of_Z z) = z.
Proof. intros H. apply to_Z_of_Z_small. rewrite wB_value. lia. Qed.

Lemma eqb_to_Z (a b : int) : (a =? b)%uint63 = (tz a =? tz b).
Proof.
  destruct (eqbP a b) as [E | E]; symmetry.
  - apply Z.eqb_eq, E.
  - apply Z.eqb_neq, E.
Qed.

(** *** Conversions *)

Lemma Z2F_to_Z (i : int) : Z2F (tz i) = of_uint63 i.
Proof.
  pose proof (to_Z_bounded i) as Hb.
  destruct (tz i) eqn:E.
  - replace i with 0%uint63 by (apply to_Z_inj; rewrite E; reflexivity). reflexivity.
  - change (of_uint63 (of_Z (Z.pos p)) = of_uint63 i). rewrite <- E, of_to_Z. reflexivity.
  - lia.
Qed.

Lemma Z2F_opp (z : Z) : z < 0 -> Z2F z = (- Z2F (- z))%float.
Proof. destruct z; try lia. intros _. reflexivity. Qed.

Lemma Z2F_sub (a b : int) : Z2F (tz a - tz b) = sdiff a b.
Proof.
  unfold sdiff. destruct (lebP b a) as [H | H].
  - rewrite <- to_Z_sub_small by exact H. apply Z2F_to_Z.
  - rewrite Z2F_opp by lia.
    replace (- (tz a - tz b)) with (tz b - tz a) by lia.
    rewrite <- to_Z_sub_small by lia. rewrite Z2F_to_Z. reflexivity.
Qed.

Lemma rnd8_range (x : float) : tz (rnd8 x) <= 255 \/ rnd8 x = bad.
Proof.
  unfold rnd8. destruct (x + 0.5 <? 0)%float; [now right |].
  destruct (ltbP 255 (trunc_abs (x + 0.5))) as [H | H]; [now right | left].
  change (tz 255%uint63) with 255 in H. lia.
Qed.

(** Where [rnd8] gives a byte, it is the unsigned char the model stores. *)
Lemma rnd8_ok (x : float) : tz (rnd8 x) <= 255 -> to_uchar (ROUND x) = tz (rnd8 x).
Proof.
  unfold rnd8, ROUND, F2Z.
  destruct (x + 0.5 <? 0)%float; [vm_compute; intros H; exfalso; apply H; reflexivity |].
  destruct (ltbP 255 (trunc_abs (x + 0.5))) as [H | H];
    [vm_compute; intros H'; exfalso; apply H'; reflexivity |].
  intros _. change (tz 255%uint63) with 255 in H.
  pose proof (to_Z_bounded (trunc_abs (x + 0.5))).
  unfold to_uchar. apply Z.mod_small. lia.
Qed.

(** *** Tables *)

Lemma length_fill (f : int -> int) (n : nat) (j : int) (a : array int) :
  PArray.length (fill f n j a) = PArray.length a.
Proof.
  revert j a. induction n as [| n IH]; intros j a; simpl; [reflexivity |].
  rewrite IH. apply length_set.
Qed.

Lemma default_fill (f : int -> int) (n : nat) (j : int) (a : array int) :
  PArray.default (fill f n j a) = PArray.default a.
Proof.
  revert j a. induction n as [| n IH]; intros j a; simpl; [reflexivity |].
  rewrite IH. apply default_set.
Qed.

Lemma default_make_int (size a : int) : PArray.default (PArray.make size a) = a.
Proof.
  pose proof (get_make int a size (PArray.length (PArray.make size a))) as G.
  rewrite get_out_of_bounds in G; [exact G |].
  destruct (ltbP (PArray.length (PArray.make size a)) (PArray.length (PArray.make size a)));
    [lia | reflexivity].
Qed.

Lemma fill_get_below (f : int -> int) (n : nat) (j : int) (a : array int) (i : int) :
  tz j + Z.of_nat n < wB -> tz i < tz j -> (fill f n j a).[i] = a.[i].
Proof.
  revert j a. induction n as [| n IH]; intros j a Hn Hi; simpl; [reflexivity |].
  assert (tz (j + 1)%uint63 = tz j + 1) as Hj
    by (rewrite to_Z_add_small; change (tz 1%uint63) with 1; lia).
  rewrite IH by lia.
  apply get_set_other. intros E. subst i. lia.
Qed.

Lemma fill_get (f : int -> int) (n : nat) (j : int) (a : array int) (i : int) :
  tz j + Z.of_nat n <= tz (PArray.length a) ->
  tz j <= tz i < tz j + Z.of_nat n ->
  (fill f n j a).[i] = f i.
Proof.
  revert j a. induction n as [| n IH]; intros j a Hn Hi; simpl; [lia |].
  pose proof (to_Z_bounded (PArray.length a)) as Hlen.
  assert (tz (j + 1)%uint63 = tz j + 1) as Hj
    by (rewrite to_Z_add_small; change (tz 1%uint63) with 1; lia).
  destruct (Z.eq_dec (tz i) (tz j)) as [E | E].
  - apply to_Z_inj in E. subst i.
    rewrite fill_get_below by lia.
    apply get_set_same. apply ltb_spec. lia.
  - apply IH; rewrite ?length_set; lia.
Qed.

Lemma allFrom_true (n : nat) (i : int) (p : int -> bool) :
  allFrom n i p = true -> tz i + Z.of_nat n < wB ->
  forall k : int, tz i <= tz k < tz i + Z.of_nat n -> p k = true.
Proof.
  revert i. induction n as [| n IH]; intros i H Hn k Hk; simpl in H; [lia |].
  destruct (p i) eqn:Hp; [| discriminate].
  assert (tz (i + 1)%uint63 = tz i + 1) as Hi
    by (rewrite to_Z_add_small; change (tz 1%uint63) with 1; lia).
  destruct (Z.eq_dec (tz k) (tz i)) as [E | E].
  - apply to_Z_inj in E. subst k. exact Hp.
  - apply (IH (i + 1)%uint63 H); lia.
Qed.

(** *** The model on a chromatic triple *)

Lemma model_max (a b c : Z) :
  (if a >? b then MAX a c else MAX b c) = Z.max a (Z.max b c).
Proof.
  unfold MAX. destruct (Z.gtb_spec a b), (Z.gtb_spec a c), (Z.gtb_spec b c); lia.
Qed.

Lemma model_min (a b c : Z) :
  (if a >? b then MIN b c else MIN a c) = Z.min a (Z.min b c).
Proof.
  unfold MIN. destruct (Z.gtb_spec a b), (Z.ltb_spec a c), (Z.ltb_spec b c); lia.
Qed.

Section Pair.

Variables mx mn : int.
Hypothesis Hmx : tz mx <= 255.
Hypothesis Hlt : tz mn < tz mx.

Lemma to_Z_sum : tz (mx + mn)%uint63 = tz mx + tz mn.
Proof.
  pose proof (to_Z_bounded mn). apply to_Z_add_small. rewrite wB_value. lia.
Qed.

Lemma to_Z_delta : tz (mx - mn)%uint63 = tz mx - tz mn.
Proof. apply to_Z_sub_small. lia. Qed.

Lemma to_Z_rest : tz (511 - (mx + mn))%uint63 = 511 - tz mx - tz mn.
Proof.
  pose proof (to_Z_bounded mn).
  rewrite to_Z_sub_small; rewrite to_Z_sum; change (tz 511%uint63) with 511; lia.
Qed.

(** The three unsigned chars of [rgbToHsl] on a triple whose largest
    channel is [mx] and smallest [mn]. *)
Lemma rgbToHsl_chromatic (r g b : int) :
  Z.max (tz r) (Z.max (tz g) (tz b)) = tz mx ->
  Z.min (tz r) (Z.min (tz g) (tz b)) = tz mn ->
  rgbToHsl (tz r) (tz g) (tz b) =
  (to_uchar (ROUND (wrapHue (hueRaw r g b mx (of_uint63 (mx - mn)) * 42.5)%float)),
   to_uchar (ROUND (satReal mx mn)),
   to_uchar (ROUND (of_uint63 (mx + mn) / 2.0)%float)).
Proof.
  intros Hmax Hmin.
  unfold rgbToHsl, rgbToHsl_real. cbv zeta.
  rewrite model_max, model_min, Hmax, Hmin.
  destruct (Z.eqb_spec (tz mx) (tz mn)) as [E | _]; [lia |].
  replace (511 - tz mx - tz mn) with (tz (511 - (mx + mn))%uint63) by apply to_Z_rest.
  rewrite <- to_Z_sum, <- to_Z_delta.
  rewrite !Z2F_to_Z, !Z2F_sub, <- !eqb_to_Z.
  reflexivity.
Qed.

End Pair.

(** *** The hue offsets of [hslToRgb] as table indices *)

Definition offsets_agree (v : Z) : bool :=
  PrimFloat.Leibniz.eqb (sdiff (of_Z v + 170) 85) (of_uint63 (of_Z v) + 85)%float &&
  PrimFloat.Leibniz.eqb (sdiff (of_Z v + 85) 85) (of_uint63 (of_Z v)) &&
  PrimFloat.Leibniz.eqb (sdiff (of_Z v) 85) (of_uint63 (of_Z v) - 85)%float.

Lemma hue_offsets (h : int) :
  tz h <= 255 ->
  sdiff (h + 170) 85 = (of_uint63 h + 85)%float /\
  sdiff (h + 85) 85 = of_uint63 h /\
  sdiff h 85 = (of_uint63 h - 85)%float.
Proof.
  intros Hh. pose proof (to_Z_bounded h) as Hb.
  assert (offsets_agree (tz h) = true) as H.
  { apply (forallb_below offsets_agree 256); [vm_compute; reflexivity | lia]. }
  unfold offsets_agree in H. rewrite of_to_Z in H.
  apply andb_prop in H. destruct H as (H & H3).
  apply andb_prop in H. destruct H as (H1 & H2).
  apply FloatAxioms.Leibniz.eqb_spec in H1, H2, H3. auto.
Qed.

(** *** The comparison of a table entry with a channel *)

Lemma near4_sound (x' x : int) :
  tz x <= 255 -> tz x' <= 255 \/ x' = bad ->
  near4 x' x = true -> tz x' <= 255 /\ -4 <= tz x' - tz x <= 4.
Proof.
  intros Hx Hx' H. unfold near4 in H.
  apply leb_spec in H. change (tz 8%uint63) with 8 in H.
  pose proof (to_Z_bounded x) as Bx. pose proof (to_Z_bounded x') as Bx'.
  assert (tz x' <= 1000) as Hle
    by (destruct Hx' as [? | ->]; [lia | vm_compute; discriminate]).
  assert (tz (x' + 4)%uint63 = tz x' + 4) as Hadd
    by (rewrite to_Z_add_small; change (tz 4%uint63) with 4; rewrite ?wB_value; lia).
  destruct (Z_le_gt_dec (tz x) (tz x' + 4)) as [Hc | Hc].
  - rewrite to_Z_sub_small, Hadd in H by lia.
    destruct Hx' as [Hx' | ->]; [lia |].
    change (tz bad) with 1000 in H. lia.
  - rewrite Uint63.sub_spec, Hadd in H.
    rewrite <- (Z.mod_unique (tz x' + 4 - tz x) wB (-1) (tz x' + 4 - tz x + wB)) in H;
      rewrite ?wB_value in *; lia.
Qed.

(** *** One triple *)

Section Triple.

Variables mx mn : int.
Hypothesis Hmx : tz mx <= 255.
Hypothesis Hlt : tz mn < tz mx.

Let s := satByte mx mn.
Let l := lightByte mx mn.

Hypothesis Hs : tz s <= 255.
Hypothesis Hl : tz l <= 255.
Hypothesis Hchroma : (of_uint63 s =? 0)%float = false.

Lemma pairTable_get (j : int) :
  tz j < 426 -> (pairTable s l).[j] = wentry (rampLow s l) (rampHigh s l) j.
Proof.
  intros Hj. pose proof (to_Z_bounded j). unfold pairTable.
  apply fill_get; rewrite ?length_make; vm_compute (tz 0%uint63); simpl; try lia.
  vm_compute. discriminate.
Qed.

Lemma pairTable_out (j : int) : 426 <= tz j -> (pairTable s l).[j] = bad.
Proof.
  intros Hj. unfold pairTable.
  rewrite get_out_of_bounds.
  - rewrite default_fill. apply default_make_int.
  - rewrite length_fill, length_make.
    destruct (ltbP j (if (426 <=? max_length)%uint63 then 426%uint63 else max_length)) as [H | H];
      [| reflexivity].
    vm_compute (tz (if (426 <=? max_length)%uint63 then 426%uint63 else max_length)) in H. lia.
Qed.

Lemma pairTable_entry (j : int) :
  tz (pairTable s l).[j] <= 255 \/ (pairTable s l).[j] = bad.
Proof.
  destruct (Z_lt_le_dec (tz j) 426) as [H | H].
  - rewrite pairTable_get by exact H. apply rnd8_range.
  - right. apply pairTable_out, H.
Qed.

(** A table entry that is a byte is the unsigned char that [hslToRgb]
    stores for that hue. *)
Lemma pairTable_ok (j : int) :
  tz (pairTable s l).[j] <= 255 ->
  to_uchar (hslValue (rampLow s l) (rampHigh s l) (sdiff j 85)) = tz (pairTable s l).[j].
Proof.
  intros H. destruct (Z_lt_le_dec (tz j) 426) as [Hj | Hj].
  - rewrite pairTable_get in * by exact Hj. unfold wentry in *.
    unfold hslValue. apply rnd8_ok, H.
  - rewrite pairTable_out in H by exact Hj. vm_compute in H. exfalso. apply H. reflexivity.
Qed.

Lemma check1_sound (r g b : int) :
  Z.max (tz r) (Z.max (tz g) (tz b)) = tz mx ->
  Z.min (tz r) (Z.min (tz g) (tz b)) = tz mn ->
  check1 (pairTable s l) mx (of_uint63 (mx - mn)) r g b = true ->
  let '(r', g', b') := roundTrip (tz r) (tz g) (tz b) in
  -4 <= r' - tz r <= 4 /\ -4 <= g' - tz g <= 4 /\ -4 <= b' - tz b <= 4.
Proof.
  intros Hmax Hmin Hc.
  pose proof (to_Z_bounded r). pose proof (to_Z_bounded g). pose proof (to_Z_bounded b).
  unfold check1 in Hc.
  set (h := rnd8 (wrapHue (hueRaw r g b mx (of_uint63 (mx - mn)) * 42.5)%float)) in *.
  destruct (near4 (pairTable s l).[h + 170] r) eqn:Nr; [| discriminate].
  destruct (near4 (pairTable s l).[h + 85] g) eqn:Ng; [| discriminate].
  apply near4_sound in Nr, Ng, Hc; try apply pairTable_entry; try lia.
  destruct Nr as (Br & Dr), Ng as (Bg & Dg), Hc as (Bb & Db).
  assert (tz h <= 255) as Hh.
  { destruct (rnd8_range (wrapHue (hueRaw r g b mx (of_uint63 (mx - mn)) * 42.5)%float))
      as [Hr | Hr]; [exact Hr |]. fold h in Hr.
    exfalso. rewrite Hr, pairTable_out in Bb by (vm_compute; discriminate).
    vm_compute in Bb. apply Bb. reflexivity. }
  destruct (hue_offsets h Hh) as (Or & Og & Ob).
  unfold roundTrip.
  rewrite (rgbToHsl_chromatic mx mn Hmx Hlt r g b Hmax Hmin).
  fold h. fold (satByte mx mn). fold (lightByte mx mn). fold s. fold l.
  unfold s, l, satByte, lightByte in Hs, Hl.
  rewrite (rnd8_ok _ Hh), (rnd8_ok _ Hs), (rnd8_ok _ Hl).
  fold (satByte mx mn). fold (lightByte mx mn). fold s. fold l. fold h.
  rewrite !Z2F_to_Z.
  unfold hslToRgb. rewrite Hchroma. cbv zeta.
  fold (rampHigh s l). fold (rampLow s l).
  rewrite <- Or, <- Ob, <- Og.
  rewrite !pairTable_ok by assumption.
  auto.
Qed.

End Triple.

(** *** One pair, and all pairs *)

Lemma midBody_true (W : array int) (mx mn : int) (df : float) (mid : int) :
  midBody W mx mn df mid = true ->
  check1 W mx df mx mid mn = true /\ check1 W mx df mx mn mid = true /\
  check1 W mx df mid mx mn = true /\ check1 W mx df mn mx mid = true /\
  check1 W mx df mid mn mx = true /\ check1 W mx df mn mid mx = true.
Proof.
  unfold midBody.
  destruct (check1 W mx df mx mid mn); [| discriminate].
  destruct (check1 W mx df mx mn mid); [| discriminate].
  destruct (check1 W mx df mid mx mn); [| discriminate].
  destruct (check1 W mx df mn mx mid); [| discriminate].
  destruct (check1 W mx df mid mn mx); [| discriminate].
  intros H. repeat split; assumption.
Qed.

Lemma pairCheck_true (mx mn : int) :
  tz mx <= 255 -> tz mn < tz mx -> pairCheck mx mn = true ->
  tz (satByte mx mn) <= 255 /\ tz (lightByte mx mn) <= 255 /\
  (of_uint63 (satByte mx mn) =? 0)%float = false /\
  forall mid : int, tz mn <= tz mid <= tz mx ->
    midBody (pairTable (satByte mx mn) (lightByte mx mn)) mx mn
            (of_uint63 (mx - mn)) mid = true.
Proof.
  intros Hmx Hlt H. unfold pairCheck in H. cbv zeta in H.
  destruct (ltbP 255 (satByte mx mn)) as [Hs | Hs]; [discriminate |].
  destruct (ltbP 255 (lightByte mx mn)) as [Hl | Hl]; [discriminate |].
  destruct (of_uint63 (satByte mx mn) =? 0)%float; [discriminate |].
  change (tz 255%uint63) with 255 in Hs, Hl.
  repeat split; try lia.
  intros mid Hmid. pose proof (to_Z_bounded mn).
  refine (allFrom_true _ _ _ H _ mid _).
  - rewrite to_Z_delta, wB_value by lia. lia.
  - rewrite to_Z_delta by lia. lia.
Qed.

(** The check, run over all the chromatic triples of 8-bit channels. *)
Lemma allFrom_rowCheck : allFrom 256 0 rowCheck = true.
Proof. vm_cast_no_check (@eq_refl bool true). Qed.

Lemma pairCheck_holds (mx mn : int) :
  tz mx <= 255 -> tz mn < tz mx -> pairCheck mx mn = true.
Proof.
  intros Hmx Hlt.
  pose proof (to_Z_bounded mx) as Bmx. pose proof (to_Z_bounded mn) as Bmn.
  assert (tz 0%uint63 + Z.of_nat 256 < wB) as B0 by (rewrite wB_value; reflexivity).
  assert (tz 0%uint63 <= tz mx < tz 0%uint63 + Z.of_nat 256) as Rmx
    by (change (tz 0%uint63) with 0; lia).
  assert (tz 0%uint63 + Z.of_nat (Z.to_nat (tz mx)) < wB) as B1
    by (change (tz 0%uint63) with 0; rewrite wB_value; lia).
  assert (tz 0%uint63 <= tz mn < tz 0%uint63 + Z.of_nat (Z.to_nat (tz mx))) as Rmn
    by (change (tz 0%uint63) with 0; lia).
  exact (allFrom_true _ _ _ (allFrom_true _ _ _ allFrom_rowCheck B0 mx Rmx) B1 mn Rmn).
Qed.

(** Every chromatic triple, given as machine integers together with its
    largest and smallest channel. *)
Lemma chromatic_within_4 (r g b mx mn mid : int) :
  tz mx <= 255 -> tz mn <= tz mid <= tz mx -> tz mn < tz mx ->
  (r, g, b) = (mx, mid, mn) \/ (r, g, b) = (mx, mn, mid) \/
  (r, g, b) = (mid, mx, mn) \/ (r, g, b) = (mn, mx, mid) \/
  (r, g, b) = (mid, mn, mx) \/ (r, g, b) = (mn, mid, mx) ->
  let '(r', g', b') := roundTrip (tz r) (tz g) (tz b) in
  -4 <= r' - tz r <= 4 /\ -4 <= g' - tz g <= 4 /\ -4 <= b' - tz b <= 4.
Proof.
  intros Hmx Hmid Hlt Harr.
  destruct (pairCheck_true mx mn Hmx Hlt (pairCheck_holds mx mn Hmx Hlt))
    as (Hs & Hl & Hc & Hbody).
  destruct (midBody_true _ _ _ _ _ (Hbody mid Hmid)) as (C1 & C2 & C3 & C4 & C5 & C6).
  destruct Harr as [E | [E | [E | [E | [E | E]]]]]; injection E as -> -> ->;
    apply (check1_sound mx mn Hmx Hlt Hs Hl Hc); try assumption; lia.
Qed.

End RoundTripProof.

(** C1 (as amended). For all channels r, g, b in [0, 255] the round trip
    through [rgbToHsl] and [hslToRgb] returns channels that differ from the
    originals by at most 4 each (not 1, as the counterexample above shows:
    the deviation 4 is reached). *)
Theorem roundTrip_within_4 (r g b : Z) :
  0 <= r <= 255 -> 0 <= g <= 255 -> 0 <= b <= 255 ->
  let '(r', g', b') := roundTrip r g b in
  -4 <= r' - r <= 4 /\ -4 <= g' - g <= 4 /\ -4 <= b' - b <= 4.
Proof.
  intros Hr Hg Hb.
  destruct (Z.eq_dec r g) as [Erg | Nrg]; [destruct (Z.eq_dec g b) as [Egb | Ngb] |].
  - subst g b. rewrite (roundTrip_exact_on_greys r Hr). lia.
  - subst g. clear Hg.
    rewrite <- (RoundTripProof.to_Z_of_Z_byte r), <- (RoundTripProof.to_Z_of_Z_byte b) by lia.
    destruct (Z_lt_le_dec r b).
    + apply (RoundTripProof.chromatic_within_4 _ _ _ (of_Z b) (of_Z r) (of_Z r));
        rewrite ?RoundTripProof.to_Z_of_Z_byte by lia; try lia. tauto.
    + apply (RoundTripProof.chromatic_within_4 _ _ _ (of_Z r) (of_Z b) (of_Z r));
        rewrite ?RoundTripProof.to_Z_of_Z_byte by lia; try lia. tauto.
  - rewrite <- (RoundTripProof.to_Z_of_Z_byte r), <- (RoundTripProof.to_Z_of_Z_byte g),
      <- (RoundTripProof.to_Z_of_Z_byte b) by lia.
    destruct (Z_lt_le_dec r g); destruct (Z_lt_le_dec g b); destruct (Z_lt_le_dec r b);
      try lia.
    + apply (RoundTripProof.chromatic_within_4 _ _ _ (of_Z b) (of_Z r) (of_Z g));
        rewrite ?RoundTripProof.to_Z_of_Z_byte by lia; try lia. tauto.
    + apply (RoundTripProof.chromatic_within_4 _ _ _ (of_Z g) (of_Z r) (of_Z b));
        rewrite ?RoundTripProof.to_Z_of_Z_byte by lia; try lia. tauto.
    + apply (RoundTripProof.chromatic_within_4 _ _ _ (of_Z g) (of_Z b) (of_Z r));
        rewrite ?RoundTripProof.to_Z_of_Z_byte by lia; try lia. tauto.
    + apply (RoundTripProof.chromatic_within_4 _ _ _ (of_Z b) (of_Z g) (of_Z r));
        rewrite ?RoundTripProof.to_Z_of_Z_byte by lia; try lia. tauto.
    + apply (RoundTripProof.chromatic_within_4 _ _ _ (of_Z r) (of_Z g) (of_Z b));
        rewrite ?RoundTripProof.to_Z_of_Z_byte by lia; try lia. tauto.
    + apply (RoundTripProof.chromatic_within_4 _ _ _ (of_Z r) (of_Z b) (of_Z g));
        rewrite ?RoundTripProof.to_Z_of_Z_byte by lia; try lia. tauto.
Qed.

Lemma roundTrip_within_4_witness :
  roundTrip 0 167 249 = (0, 171, 250) /\
  (let '(r', g', b') := roundTrip 0 167 249 in
   -4 <= r' - 0 <= 4 /\ -4 <= g' - 167 <= 4 /\ -4 <= b' - 249 <= 4).
Proof.
  split; [vm_compute; reflexivity |].
  apply (roundTrip_within_4 0 167 249); lia.
Defined.

(* ================================================================== *)
(** * Further properties *)

(** ** Buffers and mirrors *)

Lemma length_mkBits (w h : Z) (f : Z -> Z -> QRgb) :
  length (mkBits w h f) = Z.to_nat (w * h).
Proof. unfold mkBits. rewrite length_map, length_seq. reflexivity. Qed.

(** Two buffers built from functions that agree inside the image. *)
Lemma mkBits_ext (w h : Z) (f g : Z -> Z -> QRgb) :
  0 <= w -> 0 <= h ->
  (forall x y, 0 <= x < w -> 0 <= y < h -> f x y = g x y) ->
  mkBits w h f = mkBits w h g.
Proof.
  intros Hw Hh Hfg. unfold mkBits. apply map_ext_in.
  intros n Hn. apply in_seq in Hn.
  assert (0 < w) as Hw' by nia.
  assert (Z.of_nat n < w * h) as Hlt by lia.
  apply Hfg.
  - apply Z.mod_pos_bound. exact Hw'.
  - split; [apply Z.div_pos; lia |].
    apply Z.div_lt_upper_bound; lia.
Qed.

(** The buffer of a well-formed image, read pixel by pixel. *)
Lemma mkBits_pixelAt (img : QImage) :
  wf_image img -> mkBits (width img) (height img) (pixelAt img) = bits img.
Proof.
  intros (Hw & Hh & Hlen).
  apply (nth_ext _ _ 0 0).
  - rewrite length_mkBits. rewrite <- Hlen. apply Nat2Z.id.
  - intros n Hn. rewrite length_mkBits in Hn.
    assert (0 < width img) as Hw' by nia.
    unfold mkBits.
    rewrite (nth_indep _ 0 (pixelAt img (Z.of_nat 0 mod width img) (Z.of_nat 0 / width img)))
      by (rewrite length_map, length_seq; exact Hn).
    rewrite (map_nth (fun n => pixelAt img (Z.of_nat n mod width img) (Z.of_nat n / width img))).
    rewrite seq_nth by exact Hn. simpl. unfold pixelAt. f_equal.
    rewrite Z.mul_comm, <- Z.div_mod by lia. apply Nat2Z.id.
Qed.

Lemma wf_mirrored (hz vt : bool) (img : QImage) :
  wf_image img -> wf_image (mirrored hz vt img).
Proof.
  intros Hwf. unfold mirrored. destruct (negb hz && negb vt); [exact Hwf |].
  destruct Hwf as (Hw & Hh & Hlen). unfold wf_image. simpl.
  rewrite length_mkBits. repeat split; try assumption. nia.
Qed.

Lemma pixelAt_mirrored (hz vt : bool) (img : QImage) (x y : Z) :
  0 <= x < width img -> 0 <= y < height img ->
  pixelAt (mirrored hz vt img) x y =
  pixelAt img (if hz then width img - 1 - x else x) (if vt then height img - 1 - y else y).
Proof.
  intros Hx Hy. unfold mirrored.
  destruct hz, vt; simpl; try reflexivity; rewrite pixelAt_mkBits by assumption; reflexivity.
Qed.

(** Mirroring twice along the same axes gives the image back. *)
Lemma mirrored_involutive (hz vt : bool) (img : QImage) :
  wf_image img -> mirrored hz vt (mirrored hz vt img) = img.
Proof.
  intros Hwf.
  destruct (negb hz && negb vt) eqn:E.
  - unfold mirrored. rewrite E. reflexivity.
  - pose proof Hwf as (Hw & Hh & Hlen).
    unfold mirrored at 1. rewrite E.
    rewrite width_mirrored, height_mirrored.
    replace (format (mirrored hz vt img)) with (format img)
      by (unfold mirrored; rewrite E; reflexivity).
    rewrite (mkBits_ext _ _ _ (pixelAt img)); try assumption.
    + rewrite mkBits_pixelAt by exact Hwf. destruct img; reflexivity.
    + intros x y Hx Hy.
      rewrite pixelAt_mirrored by (destruct hz, vt; lia).
      destruct hz, vt; f_equal; lia.
Qed.

(* ================================================================== *)
(** ** The geometric stage: flips and crops *)

(** X1. With rotation 0 and no crop, applying the geometric stage twice
    gives the image back: a horizontal flip, a vertical flip, or both,
    undo themselves on an image whose buffer has one word per pixel. *)
Theorem transform_flip_twice
    (transformed : float -> QImage -> QImage) (st : Settings) (img : QImage) :
  wf_image img ->
  rotation st = 0%float ->
  cropLeft st = 0 -> cropTop st = 0 -> cropWidth st = 0 -> cropHeight st = 0 ->
  cropLeftPercent st = 0 -> cropTopPercent st = 0 ->
  cropWidthPercent st = 0 -> cropHeightPercent st = 0 ->
  ImageViewer.transform transformed st (ImageViewer.transform transformed st img) = img.
Proof.
  intros Hwf Hrot H1 H2 H3 H4 H5 H6 H7 H8.
  unfold ImageViewer.transform, ImageViewer.cropStage.
  rewrite !rotateStage_zero by exact Hrot.
  rewrite !cropRect_none by assumption.
  unfold ImageViewer.flipStage.
  destruct (flipH st || flipV st); [| reflexivity].
  apply mirrored_involutive, Hwf.
Qed.

Lemma transform_flip_twice_witness :
  wf_image Sample.fourByFour /\
  ImageViewer.transform Sample.transformed Example.flipSettings
    (ImageViewer.transform Sample.transformed Example.flipSettings Sample.fourByFour) =
  Sample.fourByFour.
Proof.
  assert (wf_image Sample.fourByFour) as Hwf by (unfold wf_image; simpl; lia).
  split; [exact Hwf |].
  apply (transform_flip_twice Sample.transformed Example.flipSettings Sample.fourByFour Hwf);
    reflexivity.
Defined.

(** The rectangle of the crop, in both branches of the code: the absolute
    and the percent insets add up on each side. *)
Lemma cropRect_some (st : Settings) (img : QImage) :
  ImageViewer.cropAbsolute st = true \/ ImageViewer.croppingOn st = true ->
  let W := width img in
  let H := height img in
  let l := cropLeft st + ImageViewer.percentPixels st W (cropLeftPercent st) in
  let t := cropTop st + ImageViewer.percentPixels st H (cropTopPercent st) in
  let r := cropWidth st + ImageViewer.percentPixels st W (cropWidthPercent st) in
  let b := cropHeight st + ImageViewer.percentPixels st H (cropHeightPercent st) in
  ImageViewer.cropRect st img = Some (l, t, W - l - r, H - t - b).
Proof.
  intros Hon W H l t r b. subst W H l t r b. unfold ImageViewer.cropRect.
  destruct (ImageViewer.cropAbsolute st) eqn:Ea.
  - apply f_equal. rewrite !pair_equal_spec. repeat split; lia.
  - destruct Hon as [Hon | Hon]; [discriminate |]. rewrite Hon.
    unfold ImageViewer.cropAbsolute, ImageViewer.nonzero in Ea.
    apply orb_false_elim in Ea. destruct Ea as (Ea & E4).
    apply orb_false_elim in Ea. destruct Ea as (Ea & E3).
    apply orb_false_elim in Ea. destruct Ea as (E1 & E2).
    apply negb_false_iff, Z.eqb_eq in E1, E2, E3, E4.
    rewrite E1, E2, E3, E4. apply f_equal. rewrite !pair_equal_spec. repeat split; lia.
Qed.

(** X2. The crop keeps the rectangle that is left after the insets: with
    a crop field set, the absolute and the percent inset of each side add
    up (the fields [cropWidth] and [cropHeight] are the insets from the
    right and from the bottom).  When the image sides are [int]s, the four
    absolute insets and the four percent insets the code computes are not
    negative (so that no sum leaves the range of [int]) and they leave a
    rectangle with positive sides, the result has exactly these sides and
    its pixel (i, j) is the pixel (left + i, top + j) of the rotated and
    flipped image. *)
Theorem transform_crop
    (transformed : float -> QImage -> QImage) (st : Settings) (img : QImage) :
  let pre := ImageViewer.flipStage st (ImageViewer.rotateStage transformed st img) in
  let W := width pre in
  let H := height pre in
  let lp := ImageViewer.percentPixels st W (cropLeftPercent st) in
  let tp := ImageViewer.percentPixels st H (cropTopPercent st) in
  let rp := ImageViewer.percentPixels st W (cropWidthPercent st) in
  let bp := ImageViewer.percentPixels st H (cropHeightPercent st) in
  let l := cropLeft st + lp in
  let t := cropTop st + tp in
  let r := cropWidth st + rp in
  let b := cropHeight st + bp in
  let out := ImageViewer.transform transformed st img in
  isNull pre = false ->
  ImageViewer.cropAbsolute st = true \/ ImageViewer.croppingOn st = true ->
  W < 2 ^ 31 -> H < 2 ^ 31 ->
  0 <= cropLeft st -> 0 <= cropTop st -> 0 <= cropWidth st -> 0 <= cropHeight st ->
  0 <= lp -> 0 <= tp -> 0 <= rp -> 0 <= bp ->
  0 < W - l - r -> 0 < H - t - b ->
  width out = W - l - r /\ height out = H - t - b /\ format out = format pre /\
  forall i j, 0 <= i < W - l - r -> 0 <= j < H - t - b ->
    pixelAt out i j = pixelAt pre (l + i) (t + j).
Proof.
  intros pre W H lp tp rp bp l t r b out Hnn Hon HW HH Hl Ht Hr Hb Hlp Htp Hrp Hbp Hw Hh.
  subst out. unfold ImageViewer.transform, ImageViewer.cropStage. fold pre.
  rewrite (cropRect_some st pre Hon). fold W H lp tp rp bp l t r b.
  unfold copy. rewrite Hnn.
  destruct (Z.eqb_spec (W - l - r) 0); [lia |]. simpl.
  destruct (Z.leb_spec (W - l - r) 0); [lia |].
  destruct (Z.leb_spec (H - t - b) 0); [lia |]. simpl.
  repeat split.
  intros i j Hi Hj. rewrite pixelAt_mkBits by assumption.
  fold W H.
  destruct (Z.leb_spec 0 (l + i)); [| lia].
  destruct (Z.ltb_spec (l + i) W); [| lia].
  destruct (Z.leb_spec 0 (t + j)); [| lia].
  destruct (Z.ltb_spec (t + j) H); [| lia].
  reflexivity.
Qed.

Lemma transform_crop_witness :
  let out := ImageViewer.transform Sample.transformed Example.insetSettings
               Sample.fourByFour in
  width out = 2 /\ height out = 3 /\
  pixelAt out 0 0 = pixelAt Sample.fourByFour 1 1.
Proof.
  pose proof (transform_crop Sample.transformed Example.insetSettings Sample.fourByFour
                eq_refl (or_introl eq_refl) eq_refl eq_refl
                ltac:(vm_compute; discriminate) ltac:(vm_compute; discriminate)
                ltac:(vm_compute; discriminate) ltac:(vm_compute; discriminate)
                ltac:(vm_compute; discriminate) ltac:(vm_compute; discriminate)
                ltac:(vm_compute; discriminate) ltac:(vm_compute; discriminate)
                eq_refl eq_refl) as (Hw & Hh & _ & Hpix).
  exact (conj Hw (conj Hh (Hpix 0 0 ltac:(vm_compute; split; [discriminate | reflexivity])
                                      ltac:(vm_compute; split; [discriminate | reflexivity])))).
Defined.

(** Beyond the range of [int] the product of a side and a percentage
    wraps around: on an image 30000000 pixels wide, a crop of 90 percent
    from the left gives a negative inset and a rectangle wider than the
    image. *)
Lemma cropRect_percent_wraps :
  ImageViewer.percentPixels Example.leftNinety 30000000 90 = -15949672 /\
  ImageViewer.cropRect Example.leftNinety (mkImage Format_RGB32 30000000 1 []) =
  Some (-15949672, 0, 45949672, 1).
Proof. vm_compute. split; reflexivity. Qed.

(* ================================================================== *)
(** ** The orientation of the metadata *)

(** The [switch] of [rotateByExifRotation] as a chain of tests. *)
Lemma rotateByExifRotation_cases
    (transformed : float -> QImage -> QImage) (o : Z) (img : QImage) :
  Viewer.rotateByExifRotation transformed o img =
  if o =? 2 then mirrored true false img
  else if o =? 3 then transformed 180%float img
  else if o =? 4 then mirrored false true img
  else if o =? 5 then mirrored true false (transformed 90%float img)
  else if o =? 6 then transformed 90%float img
  else if o =? 7 then mirrored false true (transformed 90%float img)
  else if o =? 8 then transformed 270%float img
  else img.
Proof.
  destruct o as [| p | p]; try reflexivity.
  do 4 (try destruct p as [p | p |]); reflexivity.
Qed.

(** X3. The orientations that do not rotate (1, 2, 4, and every value
    outside 1..8, which takes the [default] branch) keep the width and the
    height of the image, and applying the same orientation a second time
    gives the image back. *)
Theorem rotateByExifRotation_unrotated
    (transformed : float -> QImage -> QImage) (o : Z) (img : QImage) :
  wf_image img ->
  o <= 2 \/ o = 4 \/ 8 < o ->
  let out := Viewer.rotateByExifRotation transformed o img in
  width out = width img /\ height out = height img /\
  Viewer.rotateByExifRotation transformed o out = img.
Proof.
  intros Hwf Ho out. subst out.
  rewrite !rotateByExifRotation_cases.
  destruct (Z.eqb_spec o 2) as [E2 | N2].
  - rewrite width_mirrored, height_mirrored.
    repeat split. apply mirrored_involutive, Hwf.
  - destruct (Z.eqb_spec o 3); [lia |].
    destruct (Z.eqb_spec o 4) as [E4 | N4].
    + rewrite width_mirrored, height_mirrored.
      repeat split. apply mirrored_involutive, Hwf.
    + destruct (Z.eqb_spec o 5); [lia |].
      destruct (Z.eqb_spec o 6); [lia |].
      destruct (Z.eqb_spec o 7); [lia |].
      destruct (Z.eqb_spec o 8); [lia |].
      repeat split.
Qed.

Lemma rotateByExifRotation_unrotated_witness :
  let out := Viewer.rotateByExifRotation Sample.transformed 2 Sample.fourByFour in
  width out = 4 /\ height out = 4 /\
  Viewer.rotateByExifRotation Sample.transformed 2 out = Sample.fourByFour.
Proof.
  apply (rotateByExifRotation_unrotated Sample.transformed 2 Sample.fourByFour).
  - unfold wf_image; simpl; lia.
  - lia.
Defined.

(* ================================================================== *)
(** ** The other mirror layouts *)

Lemma pixelAt_mirrored_vertical (img : QImage) (x y : Z) :
  0 <= x < width img -> 0 <= y < height img ->
  pixelAt (mirrored false true img) x y = pixelAt img x (height img - 1 - y).
Proof. intros Hx Hy. rewrite pixelAt_mirrored by assumption. reflexivity. Qed.

Lemma pixelAt_mirrored_both (img : QImage) (x y : Z) :
  0 <= x < width img -> 0 <= y < height img ->
  pixelAt (mirrored true true img) x y =
  pixelAt img (width img - 1 - x) (height img - 1 - y).
Proof. intros Hx Hy. rewrite pixelAt_mirrored by assumption. reflexivity. Qed.

(** X4. For an image of width w > 0 and height h > 0 the Quad layout
    gives a canvas of width 2 w and height 2 h.  Every opaque pixel of the
    image is found at its own place in the top left quarter, at the
    mirrored column in the top right quarter, at the mirrored row in the
    bottom left quarter and at the mirrored column and row in the bottom
    right quarter, whatever the memory of the new canvas held. *)
Theorem mirror_quad (mem : nat -> QRgb) (img old : QImage) :
  0 < width img -> 0 < height img ->
  let w := width img in
  let h := height img in
  let out := ImageViewer.mirror mem ImageViewer.LayQuad img old in
  width out = 2 * w /\ height out = 2 * h /\
  forall x y, 0 <= x < w -> 0 <= y < h ->
    (qAlpha (pixelAt img x y) = 255 -> pixelAt out x y = pixelAt img x y) /\
    (qAlpha (pixelAt img (w - 1 - x) y) = 255 ->
     pixelAt out (w + x) y = pixelAt img (w - 1 - x) y) /\
    (qAlpha (pixelAt img x (h - 1 - y)) = 255 ->
     pixelAt out x (h + y) = pixelAt img x (h - 1 - y)) /\
    (qAlpha (pixelAt img (w - 1 - x) (h - 1 - y)) = 255 ->
     pixelAt out (w + x) (h + y) = pixelAt img (w - 1 - x) (h - 1 - y)).
Proof.
  intros Hw Hh w h out. subst out w h. unfold ImageViewer.mirror.
  rewrite newImage_positive by lia.
  split; [geometry | split; [geometry |]].
  intros x y Hx Hy. repeat split; intros Ha.
  - rewrite !drawImage_outside by geometry.
    rewrite drawImage_opaque_inside; rewrite ?Z.sub_0_r; auto; geometry.
  - rewrite !drawImage_outside by geometry.
    replace (pixelAt img (width img - 1 - x) y)
      with (pixelAt (mirrored true false img) (width img + x - width img) (y - 0))
      in * by (rewrite <- pixelAt_mirrored_horizontal by lia; f_equal; lia).
    apply drawImage_opaque_inside; auto; geometry.
  - rewrite drawImage_outside by geometry.
    replace (pixelAt img x (height img - 1 - y))
      with (pixelAt (mirrored false true img) (x - 0) (height img + y - height img))
      in * by (rewrite <- pixelAt_mirrored_vertical by lia; f_equal; lia).
    apply drawImage_opaque_inside; auto; geometry.
  - replace (pixelAt img (width img - 1 - x) (height img - 1 - y))
      with (pixelAt (mirrored true true img) (width img + x - width img)
                    (height img + y - height img))
      in * by (rewrite <- pixelAt_mirrored_both by lia; f_equal; lia).
    apply drawImage_opaque_inside; auto; geometry.
Qed.

Lemma mirror_quad_witness :
  let out := ImageViewer.mirror Sample.usedMemory ImageViewer.LayQuad
               Sample.fourByFour nullImage in
  width out = 8 /\ height out = 8 /\
  pixelAt out 1 2 = pixelAt Sample.fourByFour 1 2 /\
  pixelAt out (4 + 1) (4 + 2) = pixelAt Sample.fourByFour (4 - 1 - 1) (4 - 1 - 2).
Proof.
  pose proof (mirror_quad Sample.usedMemory Sample.fourByFour nullImage
                ltac:(simpl; lia) ltac:(simpl; lia)) as (Hwd & Hht & Hpix).
  destruct (Hpix 1 2 ltac:(simpl; lia) ltac:(simpl; lia)) as (H1 & _ & _ & H4).
  exact (conj Hwd (conj Hht (conj (H1 eq_refl) (H4 eq_refl)))).
Defined.

(** X5. For an image of width w > 0 and height h > 0 the VDual layout
    gives a canvas of width w and height 2 h.  Every opaque pixel of the
    image is found at its own place in the upper half and at the mirrored
    row in the lower half, whatever the memory of the new canvas held. *)
Theorem mirror_vdual (mem : nat -> QRgb) (img old : QImage) :
  0 < width img -> 0 < height img ->
  let w := width img in
  let h := height img in
  let out := ImageViewer.mirror mem ImageViewer.LayVDual img old in
  width out = w /\ height out = 2 * h /\
  forall x y, 0 <= x < w -> 0 <= y < h ->
    (qAlpha (pixelAt img x y) = 255 -> pixelAt out x y = pixelAt img x y) /\
    (qAlpha (pixelAt img x (h - 1 - y)) = 255 ->
     pixelAt out x (h + y) = pixelAt img x (h - 1 - y)).
Proof.
  intros Hw Hh w h out. subst out w h. unfold ImageViewer.mirror.
  rewrite newImage_positive by lia.
  split; [geometry | split; [geometry |]].
  intros x y Hx Hy. split; intros Ha.
  - rewrite drawImage_outside by geometry.
    rewrite drawImage_opaque_inside; rewrite ?Z.sub_0_r; auto; geometry.
  - replace (pixelAt img x (height img - 1 - y))
      with (pixelAt (mirrored false true img) (x - 0) (height img + y - height img))
      in * by (rewrite <- pixelAt_mirrored_vertical by lia; f_equal; lia).
    apply drawImage_opaque_inside; auto; geometry.
Qed.

Lemma mirror_vdual_witness :
  let out := ImageViewer.mirror Sample.usedMemory ImageViewer.LayVDual
               Sample.fourByFour nullImage in
  width out = 4 /\ height out = 8 /\
  pixelAt out 1 2 = pixelAt Sample.fourByFour 1 2 /\
  pixelAt out 1 (4 + 2) = pixelAt Sample.fourByFour 1 (4 - 1 - 2).
Proof.
  pose proof (mirror_vdual Sample.usedMemory Sample.fourByFour nullImage
                ltac:(simpl; lia) ltac:(simpl; lia)) as (Hwd & Hht & Hpix).
  destruct (Hpix 1 2 ltac:(simpl; lia) ltac:(simpl; lia)) as (H1 & H2).
  exact (conj Hwd (conj Hht (conj (H1 eq_refl) (H2 eq_refl)))).
Defined.

Lemma drawImage_null (x0 y0 : Z) (src : QImage) :
  drawImage nullImage x0 y0 src = nullImage.
Proof. reflexivity. Qed.

(** X6. An image without pixels (width or height not positive) gives
    the null image in each of the four layouts: the canvas cannot be
    allocated and nothing is painted. *)
Theorem mirror_empty (mem : nat -> QRgb) (layout : ImageViewer.MirrorLayout)
    (img old : QImage) :
  width img <= 0 \/ height img <= 0 ->
  layout <> ImageViewer.LayNone ->
  ImageViewer.mirror mem layout img old = nullImage.
Proof.
  intros He Hl.
  assert (forall a b, 0 < a -> 0 < b ->
            newImage mem (width img * a) (height img * b) Format_ARGB32 = nullImage) as Hn.
  { intros a b Ha Hb. unfold newImage.
    destruct (Z.leb_spec (width img * a) 0); [reflexivity |].
    destruct (Z.leb_spec (height img * b) 0); [reflexivity | nia]. }
  pose proof (Hn 2 1 ltac:(lia) ltac:(lia)) as H21.
  pose proof (Hn 3 1 ltac:(lia) ltac:(lia)) as H31.
  pose proof (Hn 2 2 ltac:(lia) ltac:(lia)) as H22.
  pose proof (Hn 1 2 ltac:(lia) ltac:(lia)) as H12.
  rewrite Z.mul_1_r in H21, H31, H12.
  destruct layout; [contradiction | | | |]; unfold ImageViewer.mirror;
    rewrite ?H21, ?H31, ?H22, ?H12; reflexivity.
Qed.

Lemma mirror_empty_witness :
  ImageViewer.mirror Sample.usedMemory ImageViewer.LayQuad nullImage Sample.fourByFour =
  nullImage.
Proof.
  apply (mirror_empty Sample.usedMemory ImageViewer.LayQuad nullImage Sample.fourByFour).
  - left. simpl. lia.
  - discriminate.
Defined.

(* ================================================================== *)
(** ** The overlay *)

Lemma fillTransparent_newImage (mem1 mem2 : nat -> QRgb) (w h : Z) (fmt : Format) :
  Viewer.fillTransparent (newImage mem1 w h fmt) =
  Viewer.fillTransparent (newImage mem2 w h fmt).
Proof. unfold newImage. destruct ((w <=? 0) || (h <=? 0)); reflexivity. Qed.

(** X7. The image with overlay does not depend on what the memory of the
    new canvas held: the canvas is filled with transparent words before
    anything is drawn (unlike the canvas of the mirror layouts). *)
Theorem createImageWithOverlay_ignores_memory
    (scaledSmooth : QImage -> Z -> Z -> AspectRatioMode -> QImage)
    (mem1 mem2 : nat -> QRgb) (baseImage overlayImage : QImage) (x y : Z) :
  Viewer.createImageWithOverlay scaledSmooth mem1 baseImage overlayImage x y =
  Viewer.createImageWithOverlay scaledSmooth mem2 baseImage overlayImage x y.
Proof.
  unfold Viewer.createImageWithOverlay.
  rewrite (fillTransparent_newImage mem1 mem2). reflexivity.
Qed.

Lemma width_fillTransparent (img : QImage) : width (Viewer.fillTransparent img) = width img.
Proof. reflexivity. Qed.

Lemma height_fillTransparent (img : QImage) : height (Viewer.fillTransparent img) = height img.
Proof. reflexivity. Qed.

Lemma pixelAt_fillTransparent (img : QImage) (x y : Z) :
  0 <= x < width img -> 0 <= y < height img ->
  pixelAt (Viewer.fillTransparent img) x y = 0.
Proof.
  intros Hx Hy. unfold Viewer.fillTransparent. rewrite pixelAt_mkBits by assumption.
  reflexivity.
Qed.

(** X8. The overlay is drawn last: at every position where the overlay
    has an opaque pixel, the image with overlay has that pixel, whatever
    the base image and the offset are. *)
Theorem createImageWithOverlay_opaque_overlay
    (scaledSmooth : QImage -> Z -> Z -> AspectRatioMode -> QImage)
    (mem : nat -> QRgb) (baseImage overlayImage : QImage) (x0 y0 x y : Z) :
  0 <= x < width overlayImage -> 0 <= y < height overlayImage ->
  qAlpha (pixelAt overlayImage x y) = 255 ->
  pixelAt (Viewer.createImageWithOverlay scaledSmooth mem baseImage overlayImage x0 y0) x y =
  pixelAt overlayImage x y.
Proof.
  intros Hx Hy Ha. unfold Viewer.createImageWithOverlay.
  rewrite newImage_positive by lia.
  rewrite pixelAt_drawImage by (cbn [width height drawImage Viewer.fillTransparent]; lia).
  destruct (Z.leb_spec 0 x); [| lia].
  destruct (Z.ltb_spec x (0 + width overlayImage)); [| lia].
  destruct (Z.leb_spec 0 y); [| lia].
  destruct (Z.ltb_spec y (0 + height overlayImage)); [| lia].
  cbn [andb format drawImage Viewer.fillTransparent store].
  rewrite !Z.sub_0_r.
  rewrite fetch_opaque by exact Ha. apply sourceOver_opaque, Ha.
Qed.

Lemma createImageWithOverlay_opaque_overlay_witness :
  pixelAt (Viewer.createImageWithOverlay Example.scaledSmooth Sample.usedMemory
             Sample.twoPixels Sample.fourByFour 1 1) 2 3 =
  pixelAt Sample.fourByFour 2 3.
Proof.
  apply (createImageWithOverlay_opaque_overlay Example.scaledSmooth Sample.usedMemory
           Sample.twoPixels Sample.fourByFour 1 1 2 3).
  - simpl. lia.
  - simpl. lia.
  - reflexivity.
Defined.

Lemma qPremultiply_transparent (p : QRgb) : qAlpha p = 0 -> qPremultiply p = 0.
Proof.
  intros Ha. unfold qPremultiply. rewrite Ha, !Z.mul_0_r. reflexivity.
Qed.

(** X9. Where the overlay (an image with alpha channel, not
    premultiplied) is fully transparent and the scaled base image does not
    reach, the image with overlay is fully transparent: the word is 0. *)
Theorem createImageWithOverlay_uncovered
    (scaledSmooth : QImage -> Z -> Z -> AspectRatioMode -> QImage)
    (mem : nat -> QRgb) (baseImage overlayImage : QImage) (x0 y0 x y : Z) :
  let scaledImage :=
    scaledSmooth baseImage (width overlayImage) (height overlayImage) KeepAspectRatio in
  0 <= x < width overlayImage -> 0 <= y < height overlayImage ->
  format overlayImage = Format_ARGB32 ->
  qAlpha (pixelAt overlayImage x y) = 0 ->
  x < x0 \/ x0 + width scaledImage <= x \/ y < y0 \/ y0 + height scaledImage <= y ->
  pixelAt (Viewer.createImageWithOverlay scaledSmooth mem baseImage overlayImage x0 y0) x y = 0.
Proof.
  intros scaledImage Hx Hy Hf Ha Hout. unfold Viewer.createImageWithOverlay.
  fold scaledImage.
  rewrite newImage_positive by lia.
  rewrite pixelAt_drawImage by (cbn [width height drawImage Viewer.fillTransparent]; lia).
  destruct (Z.leb_spec 0 x); [| lia].
  destruct (Z.ltb_spec x (0 + width overlayImage)); [| lia].
  destruct (Z.leb_spec 0 y); [| lia].
  destruct (Z.ltb_spec y (0 + height overlayImage)); [| lia].
  cbn [andb format drawImage Viewer.fillTransparent store].
  rewrite !Z.sub_0_r, Hf. cbn [fetch].
  rewrite qPremultiply_transparent by exact Ha.
  rewrite drawImage_outside by (cbn [width height Viewer.fillTransparent]; assumption || lia).
  rewrite pixelAt_fillTransparent by (cbn [width height]; lia).
  reflexivity.
Qed.

Lemma createImageWithOverlay_uncovered_witness :
  pixelAt (Viewer.createImageWithOverlay Example.scaledSmooth Sample.usedMemory
             nullImage Sample.transparentWhite 0 0) 0 0 = 0.
Proof.
  apply (createImageWithOverlay_uncovered Example.scaledSmooth Sample.usedMemory
           nullImage Sample.transparentWhite 0 0 0 0).
  - simpl. lia.
  - simpl. lia.
  - reflexivity.
  - reflexivity.
  - right. left. simpl. lia.
Defined.

(* ================================================================== *)
(** ** Panning with the keys *)

(** X10. The values a key move hands to the two scroll bars: on an axis
    where the image widget is larger than the viewer, the value lies
    between 0 and the excess of the widget over the viewer; on an axis
    where the widget fits, the value is minus the current position of the
    widget on that axis, whatever the key is (the step of 50 is dropped,
    and the code does not bound this value); and when the widget fits on
    both axes no value is set at all. *)
Theorem keyMoveEvent_in_range (iw : Viewer.ImageWidget) (view : QSize)
    (direction : MoveDirection) (layout : Z * Z) :
  let excessX := wd (Viewer.widgetSize iw) - wd view in
  let excessY := ht (Viewer.widgetSize iw) - ht view in
  match snd (Viewer.keyMoveEvent (Some iw) view direction layout) with
  | Some (h, v) =>
      (0 < excessX \/ 0 < excessY) /\
      (0 < excessX -> 0 <= h <= excessX) /\
      (excessX <= 0 -> h = - Viewer.posX iw) /\
      (0 < excessY -> 0 <= v <= excessY) /\
      (excessY <= 0 -> v = - Viewer.posY iw)
  | None => excessX <= 0 /\ excessY <= 0
  end.
Proof.
  intros excessX excessY. subst excessX excessY.
  unfold Viewer.keyMoveEvent. cbn [snd].
  destruct (Z.gtb_spec (wd (Viewer.widgetSize iw)) (wd view)) as [Hx | Hx];
    destruct (Z.gtb_spec (ht (Viewer.widgetSize iw)) (ht view)) as [Hy | Hy];
    cbn [orb];
    repeat match goal with
    | |- context [if ?a >? ?b then _ else _] => destruct (Z.gtb_spec a b)
    | |- context [if ?a <? ?b then _ else _] => destruct (Z.ltb_spec a b)
    end;
    repeat split; intros; lia.
Qed.

(** A widget 1000 x 500 at (-100, 20) in a viewer 800 x 600: it is
    larger on the horizontal axis only, and the vertical scroll bar is
    handed -20. *)
Lemma keyMoveEvent_fitting_axis :
  Viewer.keyMoveEvent (Some (Viewer.mkWidget (-100) 20 (mkSize 1000 500)))
    (mkSize 800 600) MoveUp (0, 0) = ((-100, 20), Some (100, -20)).
Proof. reflexivity. Qed.

(* ================================================================== *)
(** ** The hidden cursor *)

Lemma cursorStep_blankOnTop (base : list Viewer.CursorShape) (st : Viewer.CursorState)
    (e : Viewer.CursorEvent) :
  Viewer.blankOnTop base st -> Viewer.blankOnTop base (Viewer.cursorStep st e).
Proof.
  unfold Viewer.blankOnTop. intros H.
  destruct e as [p | hide]; cbn [Viewer.cursorStep].
  - unfold Viewer.monitorCursorState.
    destruct (Viewer.samePoint p (Viewer.lastPos st)); cbn [negb];
      destruct (Viewer.cursorIsHidden st) eqn:E; cbn [negb];
      cbn [Viewer.overrideCursors Viewer.cursorIsHidden]; rewrite ?E, ?H;
      reflexivity.
  - unfold Viewer.setCursorHiding.
    destruct hide; destruct (Viewer.cursorIsHidden st) eqn:E;
      cbn [Viewer.overrideCursors Viewer.cursorIsHidden]; rewrite ?E, ?H;
      reflexivity.
Qed.

(** X11. Through any sequence of timer ticks and of requests to hide or
    show the cursor, the viewer keeps at most one blank cursor on the
    stack of override cursors: it is there exactly when [cursorIsHidden]
    is set, and the cursors that were on the stack before stay below it. *)
Theorem cursorRun_blankOnTop (base : list Viewer.CursorShape)
    (events : list Viewer.CursorEvent) (st : Viewer.CursorState) :
  Viewer.blankOnTop base st -> Viewer.blankOnTop base (Viewer.cursorRun events st).
Proof.
  unfold Viewer.cursorRun. revert st.
  induction events as [| e events IH]; intros st H; cbn [fold_left].
  - exact H.
  - apply IH, cursorStep_blankOnTop, H.
Qed.

Lemma cursorRun_blankOnTop_witness :
  Viewer.blankOnTop [Viewer.ClosedHandCursor]
    (Viewer.cursorRun
       [Viewer.SetHiding true; Viewer.TimerTick (3, 4); Viewer.TimerTick (3, 4);
        Viewer.TimerTick (3, 4); Viewer.TimerTick (5, 4); Viewer.TimerTick (5, 4);
        Viewer.SetHiding false]
       (Viewer.mkCursorState false (0, 0) [Viewer.ClosedHandCursor] false)).
Proof.
  apply (cursorRun_blankOnTop [Viewer.ClosedHandCursor]). reflexivity.
Defined.

(* ================================================================== *)
(** ** Zoom-fit sizing, continued *)

Lemma to_int_small (z : Z) : - 2 ^ 31 <= z < 2 ^ 31 -> to_int z = z.
Proof. intros Hz. unfold to_int. rewrite Z.mod_small; lia. Qed.

(** Where the zoomed size leaves the range of [int], [calcZoom] returns
    the smallest [int]. *)
Lemma calcZoom_out_of_range :
  calcZoom Sample.zoomSettings 1000 = 2000 /\
  calcZoom Sample.zoomSettings 2000000000 = -2147483648.
Proof. vm_compute. split; reflexivity. Qed.

(** X12. While resizing is disabled ([tempDisableResize]) the size of a
    non-empty image is handed on unchanged, whatever the zoom policies, the
    zoom factor and the size of the viewer are. *)
Theorem resizeImage_tempDisableResize (st : Settings) (w h : Z) (view : QSize) :
  0 < w < 2 ^ 31 -> 0 < h ->
  ImageViewer.resizeImage st false true (Some (mkSize w h)) view = Some (mkSize w h).
Proof.
  intros Hw Hh. unfold ImageViewer.resizeImage, isEmpty. cbn [wd ht].
  destruct (Z.ltb_spec w 1); [lia |].
  destruct (Z.ltb_spec h 1); [lia |]. cbn [orb].
  unfold scaled. cbn [wd ht].
  destruct (Z.eqb_spec w 0); [lia |].
  destruct (Z.eqb_spec h 0); [lia |]. cbn [orb].
  rewrite Z.mul_comm, Z.quot_mul by lia.
  rewrite Z.leb_refl, to_int_small by lia. reflexivity.
Qed.

Lemma resizeImage_tempDisableResize_witness :
  ImageViewer.resizeImage Sample.zoomSettings false true (Some (mkSize 60 40))
    (mkSize 100 100) = Some (mkSize 60 40).
Proof.
  apply (resizeImage_tempDisableResize Sample.zoomSettings 60 40 (mkSize 100 100)); lia.
Defined.

(** What [QSize::scale] with [KeepAspectRatio] returns lies in the target
    box and touches it on one side. *)
Lemma scaled_in_box (s : QSize) (tw th : Z) :
  0 <= wd s -> 0 <= ht s -> 0 < tw < 2 ^ 31 -> 0 < th < 2 ^ 31 ->
  let r := scaled s tw th KeepAspectRatio in
  0 <= wd r <= tw /\ 0 <= ht r <= th /\ (wd r = tw \/ ht r = th).
Proof.
  destruct s as [w h]. cbn [wd ht].
  intros Hw Hh Htw Hth. unfold scaled. cbn [wd ht].
  destruct (Z.eqb_spec w 0) as [Ew | Nw]; [cbn; lia |].
  destruct (Z.eqb_spec h 0) as [Eh | Nh]; [cbn; lia |]. cbn [orb].
  rewrite !Z.quot_div_nonneg by nia.
  assert (0 <= th * w / h) as Hq by (apply Z.div_pos; nia).
  destruct (Z.leb_spec (th * w / h) tw) as [Hle | Hgt]; cbn [wd ht].
  - rewrite to_int_small by lia. lia.
  - assert (0 <= tw * h / w) as Hq' by (apply Z.div_pos; nia).
    assert (tw * h / w <= th) as Hb.
    { apply Z.div_le_upper_bound; [lia |].
      assert ((tw + 1) * h <= th * w) as Hm.
      { pose proof (Z.mul_div_le (th * w) h ltac:(lia)). nia. }
      nia. }
    rewrite to_int_small by lia. lia.
Qed.

(** X13. With both zoom policies [WidthAndHeight] the size handed on
    always lies in the box of the viewer sides multiplied by the zoom
    factor, and touches that box on one side at least: a small image is
    enlarged to it and a large one is reduced to it. *)
Theorem resizeImage_fits_view (st : Settings) (w h vw vh : Z) :
  zoomInFlags st = WidthAndHeight -> zoomOutFlags st = WidthAndHeight ->
  0 < w -> 0 < h ->
  0 < calcZoom st vw < 2 ^ 31 -> 0 < calcZoom st vh < 2 ^ 31 ->
  exists r,
    ImageViewer.resizeImage st false false (Some (mkSize w h)) (mkSize vw vh) = Some r /\
    0 <= wd r <= calcZoom st vw /\ 0 <= ht r <= calcZoom st vh /\
    (wd r = calcZoom st vw \/ ht r = calcZoom st vh).
Proof.
  intros Hin Hout Hw Hh Htw Hth.
  unfold ImageViewer.resizeImage, isEmpty. cbn [wd ht].
  destruct (Z.ltb_spec w 1); [lia |].
  destruct (Z.ltb_spec h 1); [lia |]. cbn [orb].
  eexists. split; [reflexivity |].
  unfold ImageViewer.zoomIn, ImageViewer.zoomOut. rewrite Hin, Hout. cbn [wd ht].
  pose proof (scaled_in_box (mkSize w h) _ _ ltac:(cbn; lia) ltac:(cbn; lia) Htw Hth)
    as Hfit.
  cbv zeta in Hfit.
  destruct ((w <=? vw) && (h <=? vh)) eqn:Esmall.
  - set (s1 := scaled (mkSize w h) (calcZoom st vw) (calcZoom st vh) KeepAspectRatio) in *.
    destruct ((wd s1 >=? vw) || (ht s1 >=? vh)); [| exact Hfit].
    apply scaled_in_box; lia.
  - cbn [wd ht].
    assert ((w >=? vw) || (h >=? vh) = true) as Hbig.
    { apply andb_false_iff in Esmall. apply orb_true_iff.
      destruct Esmall as [E | E]; apply Z.leb_gt in E; [left | right];
        apply Z.geb_le; lia. }
    rewrite Hbig. exact Hfit.
Qed.

Lemma resizeImage_fits_view_witness :
  exists r,
    ImageViewer.resizeImage Example.fitSettings false false (Some (mkSize 40 30))
      (mkSize 100 100) = Some r /\
    0 <= wd r <= calcZoom Example.fitSettings 100 /\
    0 <= ht r <= calcZoom Example.fitSettings 100 /\
    (wd r = calcZoom Example.fitSettings 100 \/ ht r = calcZoom Example.fitSettings 100).
Proof.
  apply (resizeImage_fits_view Example.fitSettings 40 30 100 100);
    try reflexivity; try lia; vm_compute; split; reflexivity.
Defined.

(* ================================================================== *)
(** ** Colour grading: alpha, greys, saturation and lightness *)

Lemma qAlpha_byte (p : QRgb) : 0 <= p < 2 ^ 32 -> 0 <= qAlpha p <= 255.
Proof.
  intros Hp. unfold qAlpha. rewrite Z.shiftr_div_pow2 by lia.
  split; [apply Z.div_pos; lia |].
  assert (p / 2 ^ 24 < 256) by (apply Z.div_lt_upper_bound; lia). lia.
Qed.

(** X14. What grading does to the alpha byte.  In an image with alpha
    channel in one of the three 32-bit formats ([Format_ARGB32],
    [Format_ARGB32_Premultiplied]) the alpha byte of every graded word is
    the alpha byte of the input word; in a [Format_RGB32] image it is 255.
    An image in any other format is converted to [Format_RGB32] after
    [hasAlpha] was read: every graded word then has alpha byte 255, so such
    an image comes out opaque even if it had an alpha channel
    (the conversion gives words with alpha byte 255). *)
Theorem colorize_alpha
    (tan : float -> float) (pow : float -> float -> float)
    (st : Settings) (viewerImage : Viewer.AnyImage) (x y : Z) :
  match viewerImage with
  | Viewer.Direct img =>
      (Z.to_nat (y * width img + x) < length (bits img))%nat ->
      0 <= pixelAt img x y < 2 ^ 32 ->
      qAlpha (pixelAt (Viewer.colorize tan pow st viewerImage) x y) =
      if hasAlphaChannel img then qAlpha (pixelAt img x y) else 255
  | Viewer.Converted other =>
      (Z.to_nat (y * width (Viewer.toRGB32 other) + x) <
       length (bits (Viewer.toRGB32 other)))%nat ->
      qAlpha (pixelAt (Viewer.toRGB32 other) x y) = 255 ->
      format (Viewer.colorize tan pow st viewerImage) = format (Viewer.toRGB32 other) /\
      qAlpha (pixelAt (Viewer.colorize tan pow st viewerImage) x y) = 255
  end.
Proof.
  destruct viewerImage as [img | other]; cbn [Viewer.colorize].
  - intros Hk Hp. rewrite pixelAt_colorize. cbv zeta.
    apply Nat.ltb_lt in Hk. rewrite Hk.
    unfold ImageViewer.colorizePixel.
    destruct (ImageViewer.hslAdjust st _) as [[h s] l].
    destruct (hslToRgb _ _ _) as [[hr hg] hb].
    destruct (hasAlphaChannel img); unfold qRgb; rewrite qAlpha_qRgba.
    + apply land_255_small, qAlpha_byte, Hp.
    + reflexivity.
  - intros Hk Ha. cbv zeta. split; [reflexivity |].
    unfold pixelAt at 1. cbn [bits width].
    rewrite (nth_indep _ 0 (ImageViewer.colorizePixel tan pow st
                              (Viewer.otherHasAlpha other) 0))
      by (rewrite length_map; exact Hk).
    rewrite map_nth. fold (pixelAt (Viewer.toRGB32 other) x y).
    unfold ImageViewer.colorizePixel.
    destruct (ImageViewer.hslAdjust st _) as [[h s] l].
    destruct (hslToRgb _ _ _) as [[hr hg] hb].
    destruct (Viewer.otherHasAlpha other); unfold qRgb; rewrite qAlpha_qRgba.
    + rewrite Ha. reflexivity.
    + reflexivity.
Qed.

Lemma colorize_alpha_witness :
  format (Viewer.colorize Sample.tan Sample.pow Sample.hueSettings
            (Viewer.Converted Example.indexedImage)) = Format_RGB32 /\
  qAlpha (pixelAt (Viewer.colorize Sample.tan Sample.pow Sample.hueSettings
                     (Viewer.Converted Example.indexedImage)) 0 0) = 255.
Proof.
  apply (colorize_alpha Sample.tan Sample.pow Sample.hueSettings
           (Viewer.Converted Example.indexedImage) 0 0).
  - simpl. lia.
  - reflexivity.
Defined.

Lemma bound0To255_range (v : Z) : 0 <= bound0To255 v <= 255.
Proof.
  unfold bound0To255.
  destruct (Z.gtb_spec v 255); [lia |]. destruct (Z.ltb_spec v 0); lia.
Qed.

(** A grey triple has hue 0, saturation 0 and its value as lightness. *)
Lemma rgbToHsl_grey (v : Z) : 0 <= v <= 255 -> rgbToHsl v v v = (0, 0, v).
Proof.
  intros Hv.
  assert ((let '(h, s, l) := rgbToHsl v v v in (h =? 0) && (s =? 0) && (l =? v)) = true) as H.
  { apply (forallb_below (fun v => let '(h, s, l) := rgbToHsl v v v in
                                   (h =? 0) && (s =? 0) && (l =? v)) 256);
      [vm_compute; reflexivity | lia]. }
  destruct (rgbToHsl v v v) as [[h s] l].
  apply andb_prop in H. destruct H as (H & Hl).
  apply andb_prop in H. destruct H as (Hh & Hs).
  apply Z.eqb_eq in Hh, Hs, Hl. congruence.
Qed.

(** With saturation 0 [hslToRgb] takes the achromatic branch. *)
Lemma hslToRgb_achromatic (h l : float) :
  hslToRgb h (Z2F 0) l = (to_uchar (F2Z l), to_uchar (F2Z l), to_uchar (F2Z l)).
Proof. reflexivity. Qed.

Section GreyFacts.

Variable tan : float -> float.
Variable pow : float -> float -> float.

(** When the saturation handed to [hslToRgb] is 0 and the three channels
    are enabled, the graded word is grey. *)
Lemma colorizePixel_achromatic (st : Settings) (hasAlpha : bool) (p : QRgb) :
  hueRedChannel st = true -> hueGreenChannel st = true -> hueBlueChannel st = true ->
  let r := ImageViewer.preHsl tan pow st (rNegateEnabled st) (redVal st) (qRed p) in
  let g := ImageViewer.preHsl tan pow st (gNegateEnabled st) (greenVal st) (qGreen p) in
  let b := ImageViewer.preHsl tan pow st (bNegateEnabled st) (blueVal st) (qBlue p) in
  snd (fst (ImageViewer.hslAdjust st (rgbToHsl r g b))) = 0 ->
  let q := ImageViewer.colorizePixel tan pow st hasAlpha p in
  qRed q = qGreen q /\ qGreen q = qBlue q.
Proof.
  intros Hr Hg Hb r g b Hs q.
  destruct (colorizePixel_channels tan pow st hasAlpha p) as (Er & Eg & Eb).
  fold r g b q in Er, Eg, Eb.
  rewrite Hr in Er. rewrite Hg in Eg. rewrite Hb in Eb.
  rewrite Er, Eg, Eb.
  destruct (ImageViewer.hslAdjust st (rgbToHsl r g b)) as [[h s] l].
  cbn [fst snd] in *. subst s.
  rewrite hslToRgb_achromatic. cbn [fst snd]. split; reflexivity.
Qed.

Lemma preHsl_range (st : Settings) (negate : bool) (gain v0 : Z) :
  0 <= ImageViewer.preHsl tan pow st negate gain v0 <= 255.
Proof. unfold ImageViewer.preHsl. apply bound0To255_range. Qed.

End GreyFacts.

(** X15. Grading keeps grey pixels grey: when the three channels are
    enabled and treated alike (same negation flag, same gain), a word with
    equal red, green and blue bytes is graded into a word with equal red,
    green and blue bytes, whatever hue, saturation, lightness, brightness
    and contrast are set. *)
Theorem colorize_keeps_grey
    (tan : float -> float) (pow : float -> float -> float)
    (st : Settings) (img : QImage) (x y : Z) :
  rNegateEnabled st = gNegateEnabled st -> gNegateEnabled st = bNegateEnabled st ->
  redVal st = greenVal st -> greenVal st = blueVal st ->
  hueRedChannel st = true -> hueGreenChannel st = true -> hueBlueChannel st = true ->
  qRed (pixelAt img x y) = qGreen (pixelAt img x y) ->
  qGreen (pixelAt img x y) = qBlue (pixelAt img x y) ->
  let q := pixelAt (ImageViewer.colorize tan pow st img) x y in
  qRed q = qGreen q /\ qGreen q = qBlue q.
Proof.
  intros Hn1 Hn2 Hg1 Hg2 Hr Hg Hb Ep1 Ep2 q. subst q.
  rewrite pixelAt_colorize. cbv zeta.
  destruct (Z.to_nat (y * width img + x) <? length (bits img))%nat; [| split; reflexivity].
  apply colorizePixel_achromatic; try assumption.
  rewrite <- Hn2, <- Hn1, <- Hg2, <- Hg1, <- Ep2, <- Ep1.
  rewrite rgbToHsl_grey by apply preHsl_range.
  reflexivity.
Qed.

Lemma colorize_keeps_grey_witness :
  let q := pixelAt (ImageViewer.colorize Sample.tan Sample.pow Example.tintSettings
                      Sample.twoPixels) 0 0 in
  qRed q = qGreen q /\ qGreen q = qBlue q.
Proof.
  apply (colorize_keeps_grey Sample.tan Sample.pow Example.tintSettings Sample.twoPixels 0 0);
    reflexivity.
Defined.

(** X16. With saturation 0 and the three channels enabled every graded
    pixel is grey, whatever its colour was and whatever the other settings
    are. *)
Theorem colorize_saturation_zero
    (tan : float -> float) (pow : float -> float -> float)
    (st : Settings) (img : QImage) (x y : Z) :
  saturationVal st = 0 ->
  hueRedChannel st = true -> hueGreenChannel st = true -> hueBlueChannel st = true ->
  let q := pixelAt (ImageViewer.colorize tan pow st img) x y in
  qRed q = qGreen q /\ qGreen q = qBlue q.
Proof.
  intros Hsat Hr Hg Hb q. subst q.
  rewrite pixelAt_colorize. cbv zeta.
  destruct (Z.to_nat (y * width img + x) <? length (bits img))%nat; [| split; reflexivity].
  apply colorizePixel_achromatic; try assumption.
  unfold ImageViewer.hslAdjust.
  destruct (rgbToHsl _ _ _) as [[h s] l]. cbn [fst snd].
  rewrite Hsat, Z.mul_0_r. reflexivity.
Qed.

Lemma colorize_saturation_zero_witness :
  let q := pixelAt (ImageViewer.colorize Sample.tan Sample.pow Example.greySettings
                      Sample.twoPixels) 1 0 in
  qRed q = qGreen q /\ qGreen q = qBlue q.
Proof.
  apply (colorize_saturation_zero Sample.tan Sample.pow Example.greySettings
           Sample.twoPixels 1 0); reflexivity.
Defined.

(** With lightness 0 both ends of the ramp of [hslToRgb] are 0, whatever
    the saturation byte is. *)
Lemma ramp_black (s : Z) :
  0 <= s <= 255 -> ((Z2F 0 * (255 + Z2F s)) / 65025.0)%float = 0%float.
Proof.
  intros Hs. apply FloatAxioms.Leibniz.eqb_spec.
  apply (forallb_below
           (fun s => PrimFloat.Leibniz.eqb ((Z2F 0 * (255 + Z2F s)) / 65025.0)%float 0%float)
           256); [vm_compute; reflexivity | lia].
Qed.

(** A ramp between 0 and 0 is 0 at the three hues [hslToRgb] reads. *)
Lemma hslValue_black (h : Z) :
  0 <= h <= 255 ->
  to_uchar (hslValue 0 0 (Z2F h + 85)) = 0 /\
  to_uchar (hslValue 0 0 (Z2F h)) = 0 /\
  to_uchar (hslValue 0 0 (Z2F h - 85)) = 0.
Proof.
  intros Hh.
  assert ((to_uchar (hslValue 0 0 (Z2F h + 85)) =? 0) &&
          (to_uchar (hslValue 0 0 (Z2F h)) =? 0) &&
          (to_uchar (hslValue 0 0 (Z2F h - 85)) =? 0) = true) as H.
  { apply (forallb_below
             (fun h => (to_uchar (hslValue 0 0 (Z2F h + 85)) =? 0) &&
                       (to_uchar (hslValue 0 0 (Z2F h)) =? 0) &&
                       (to_uchar (hslValue 0 0 (Z2F h - 85)) =? 0)) 256);
      [vm_compute; reflexivity | lia]. }
  apply andb_prop in H. destruct H as (H & H3).
  apply andb_prop in H. destruct H as (H1 & H2).
  apply Z.eqb_eq in H1, H2, H3. auto.
Qed.

(** Lightness 0 gives black for every hue and saturation byte. *)
Lemma hslToRgb_black (h s : Z) :
  0 <= h <= 255 -> 0 <= s <= 255 -> hslToRgb (Z2F h) (Z2F s) (Z2F 0) = (0, 0, 0).
Proof.
  intros Hh Hs. unfold hslToRgb.
  destruct (Z2F s =? 0)%float; [reflexivity |].
  change (Z2F 0 <? 128)%float with true. cbv iota zeta.
  rewrite (ramp_black s Hs).
  change (Z2F 0 / 127.5 - 0)%float with 0%float.
  destruct (hslValue_black h Hh) as (H1 & H2 & H3).
  rewrite H1, H2, H3. reflexivity.
Qed.

(** X17. With lightness 0 and the three channels enabled every graded
    pixel is black, whatever its colour was and whatever the other
    settings are. *)
Theorem colorize_lightness_zero
    (tan : float -> float) (pow : float -> float -> float)
    (st : Settings) (img : QImage) (x y : Z) :
  lightnessVal st = 0 ->
  hueRedChannel st = true -> hueGreenChannel st = true -> hueBlueChannel st = true ->
  let q := pixelAt (ImageViewer.colorize tan pow st img) x y in
  qRed q = 0 /\ qGreen q = 0 /\ qBlue q = 0.
Proof.
  intros Hl Hr Hg Hb q. subst q.
  rewrite pixelAt_colorize. cbv zeta.
  destruct (Z.to_nat (y * width img + x) <? length (bits img))%nat;
    [| repeat split; reflexivity].
  destruct (colorizePixel_channels tan pow st (hasAlphaChannel img) (pixelAt img x y))
    as (Er & Eg & Eb).
  rewrite Hr in Er. rewrite Hg in Eg. rewrite Hb in Eb.
  rewrite Er, Eg, Eb. clear Er Eg Eb.
  unfold ImageViewer.hslAdjust.
  destruct (rgbToHsl _ _ _) as [[h s] l]. cbn [fst snd].
  rewrite Hl, Z.mul_0_r. change (to_uchar (bound0To255 (Z.quot 0 100))) with 0.
  rewrite hslToRgb_black by apply to_uchar_range.
  repeat split; reflexivity.
Qed.

Lemma colorize_lightness_zero_witness :
  let q := pixelAt (ImageViewer.colorize Sample.tan Sample.pow Example.blackSettings
                      Sample.twoPixels) 1 0 in
  qRed q = 0 /\ qGreen q = 0 /\ qBlue q = 0.
Proof.
  apply (colorize_lightness_zero Sample.tan Sample.pow Example.blackSettings
           Sample.twoPixels 1 0); reflexivity.
Defined.

(* ================================================================== *)
(** ** The three bytes of [rgbToHsl] *)

(** The lightness is the mean of the largest and the smallest channel,
    halves rounded up. *)
Lemma ROUND_half (n : Z) : 0 <= n <= 510 -> ROUND (Z2F n / 2.0)%float = (n + 1) / 2.
Proof.
  intros Hn. apply Z.eqb_eq.
  apply (forallb_below (fun n => ROUND (Z2F n / 2.0)%float =? (n + 1) / 2) 511);
    [vm_compute; reflexivity | lia].
Qed.

(** X18. The lightness byte of [rgbToHsl] is the mean of the largest and
    the smallest of the three channels, a half being rounded up. *)
Theorem rgbToHsl_lightness (r g b : Z) :
  0 <= r <= 255 -> 0 <= g <= 255 -> 0 <= b <= 255 ->
  snd (rgbToHsl r g b) = (Z.max r (Z.max g b) + Z.min r (Z.min g b) + 1) / 2.
Proof.
  intros Hr Hg Hb. unfold rgbToHsl, rgbToHsl_real. cbv zeta.
  rewrite RoundTripProof.model_max, RoundTripProof.model_min.
  set (mx := Z.max r (Z.max g b)). set (mn := Z.min r (Z.min g b)).
  assert (0 <= mx + mn <= 510) as Hsum by lia.
  assert (0 <= (mx + mn + 1) / 2 <= 255) as Hl.
  { split; [apply Z.div_pos; lia |].
    assert ((mx + mn + 1) / 2 < 256) by (apply Z.div_lt_upper_bound; lia). lia. }
  destruct (mx =? mn); cbn [snd]; rewrite ROUND_half by exact Hsum;
    apply to_uchar_id, Hl.
Qed.

Lemma rgbToHsl_lightness_witness :
  snd (rgbToHsl 200 30 129) = (Z.max 200 (Z.max 30 129) + Z.min 200 (Z.min 30 129) + 1) / 2.
Proof. apply (rgbToHsl_lightness 200 30 129); lia. Defined.

Module HslBytes.

Import PArray RoundTripCheck.

Local Abbreviation tz := Uint63.to_Z.

(** Where [rnd8] gives a byte, it is [ROUND] itself: nothing is lost in
    the store into the unsigned char. *)
Lemma rnd8_exact (x : float) : tz (rnd8 x) <= 255 -> ROUND x = tz (rnd8 x).
Proof.
  unfold rnd8, ROUND, F2Z.
  destruct (x + 0.5 <? 0)%float; [vm_compute; intros H; exfalso; apply H; reflexivity |].
  destruct (ltbP 255 (trunc_abs (x + 0.5))) as [H | H];
    [vm_compute; intros H'; exfalso; apply H'; reflexivity |].
  reflexivity.
Qed.

(** The three doubles of [rgbToHsl] on a triple whose largest channel is
    [mx] and smallest [mn < mx]. *)
Lemma rgbToHsl_real_chromatic (mx mn r g b : int) :
  tz mx <= 255 -> tz mn < tz mx ->
  Z.max (tz r) (Z.max (tz g) (tz b)) = tz mx ->
  Z.min (tz r) (Z.min (tz g) (tz b)) = tz mn ->
  rgbToHsl_real (tz r) (tz g) (tz b) =
  (wrapHue (hueRaw r g b mx (of_uint63 (mx - mn)) * 42.5)%float,
   satReal mx mn,
   (of_uint63 (mx + mn) / 2.0)%float).
Proof.
  intros Hmx Hlt Hmax Hmin.
  unfold rgbToHsl_real. cbv zeta.
  rewrite RoundTripProof.model_max, RoundTripProof.model_min, Hmax, Hmin.
  destruct (Z.eqb_spec (tz mx) (tz mn)) as [E | _]; [lia |].
  replace (511 - tz mx - tz mn) with (tz (511 - (mx + mn))%uint63)
    by (apply RoundTripProof.to_Z_rest; assumption).
  rewrite <- (RoundTripProof.to_Z_sum mx mn Hmx Hlt), <- (RoundTripProof.to_Z_delta mx mn Hlt).
  rewrite !RoundTripProof.Z2F_to_Z, !RoundTripProof.Z2F_sub, <- !RoundTripProof.eqb_to_Z.
  reflexivity.
Qed.

(** A triple that passes the check has a hue that fits a byte. *)
Lemma check1_hue (mx mn r g b : int) :
  tz b <= 255 ->
  check1 (pairTable (satByte mx mn) (lightByte mx mn)) mx (of_uint63 (mx - mn)) r g b = true ->
  tz (rnd8 (wrapHue (hueRaw r g b mx (of_uint63 (mx - mn)) * 42.5)%float)) <= 255.
Proof.
  intros Hb Hc. unfold check1 in Hc.
  set (h := rnd8 (wrapHue (hueRaw r g b mx (of_uint63 (mx - mn)) * 42.5)%float)) in *.
  destruct (near4 _ r); [| discriminate].
  destruct (near4 _ g); [| discriminate].
  apply RoundTripProof.near4_sound in Hc;
    [| exact Hb | apply RoundTripProof.pairTable_entry].
  destruct Hc as (Bb & _).
  destruct (RoundTripProof.rnd8_range
              (wrapHue (hueRaw r g b mx (of_uint63 (mx - mn)) * 42.5)%float)) as [Hr | Hr];
    [exact Hr |].
  fold h in Hr. exfalso.
  rewrite Hr, RoundTripProof.pairTable_out in Bb by (vm_compute; discriminate).
  vm_compute in Bb. apply Bb. reflexivity.
Qed.

(** The triple of three bytes that are not all equal passes the check
    of its pair. *)
Lemma chromatic_checked (r g b : Z) :
  0 <= r <= 255 -> 0 <= g <= 255 -> 0 <= b <= 255 ->
  Z.min r (Z.min g b) < Z.max r (Z.max g b) ->
  let mx := of_Z (Z.max r (Z.max g b)) in
  let mn := of_Z (Z.min r (Z.min g b)) in
  check1 (pairTable (satByte mx mn) (lightByte mx mn)) mx (of_uint63 (mx - mn))
         (of_Z r) (of_Z g) (of_Z b) = true.
Proof.
  intros Hr Hg Hb Hlt mx mn.
  assert (tz mx = Z.max r (Z.max g b)) as Emx
    by (apply RoundTripProof.to_Z_of_Z_byte; lia).
  assert (tz mn = Z.min r (Z.min g b)) as Emn
    by (apply RoundTripProof.to_Z_of_Z_byte; lia).
  assert (tz mx <= 255) as Hmx by lia.
  assert (tz mn < tz mx) as Hlt' by lia.
  destruct (RoundTripProof.pairCheck_true mx mn Hmx Hlt'
              (RoundTripProof.pairCheck_holds mx mn Hmx Hlt')) as (_ & _ & _ & Hbody).
  set (mid := r + g + b - Z.max r (Z.max g b) - Z.min r (Z.min g b)).
  assert (tz (of_Z mid) = mid) as Emid
    by (apply RoundTripProof.to_Z_of_Z_byte; subst mid; lia).
  destruct (RoundTripProof.midBody_true _ _ _ _ _
              (Hbody (of_Z mid) ltac:(rewrite Emid, Emx, Emn; subst mid; lia)))
    as (C1 & C2 & C3 & C4 & C5 & C6).
  assert (forall a c : Z, a = c -> of_Z a = of_Z c) as Hof by (intros; subst; reflexivity).
  destruct (Z_le_gt_dec r g), (Z_le_gt_dec g b), (Z_le_gt_dec r b); try lia.
  - rewrite (Hof r (Z.min r (Z.min g b))), (Hof g mid), (Hof b (Z.max r (Z.max g b)))
      by (subst mid; lia). exact C6.
  - rewrite (Hof r (Z.min r (Z.min g b))), (Hof b mid), (Hof g (Z.max r (Z.max g b)))
      by (subst mid; lia). exact C4.
  - rewrite (Hof b (Z.min r (Z.min g b))), (Hof r mid), (Hof g (Z.max r (Z.max g b)))
      by (subst mid; lia). exact C3.
  - rewrite (Hof g (Z.min r (Z.min g b))), (Hof r mid), (Hof b (Z.max r (Z.max g b)))
      by (subst mid; lia). exact C5.
  - rewrite (Hof g (Z.min r (Z.min g b))), (Hof b mid), (Hof r (Z.max r (Z.max g b)))
      by (subst mid; lia). exact C2.
  - rewrite (Hof b (Z.min r (Z.min g b))), (Hof g mid), (Hof r (Z.max r (Z.max g b)))
      by (subst mid; lia). exact C1.
Qed.

(** The three roundings of [rgbToHsl] on bytes that are not all equal:
    each fits a byte, and the saturation is not 0. *)
Lemma chromatic_bytes (r g b : Z) :
  0 <= r <= 255 -> 0 <= g <= 255 -> 0 <= b <= 255 ->
  Z.min r (Z.min g b) < Z.max r (Z.max g b) ->
  let '(h, s, l) := rgbToHsl_real r g b in
  0 <= ROUND h <= 255 /\ 0 < ROUND s <= 255 /\ 0 <= ROUND l <= 255.
Proof.
  intros Hr Hg Hb Hlt.
  pose proof (chromatic_checked r g b Hr Hg Hb Hlt) as Hc. cbv zeta in Hc.
  set (mx := of_Z (Z.max r (Z.max g b))) in *.
  set (mn := of_Z (Z.min r (Z.min g b))) in *.
  assert (tz mx = Z.max r (Z.max g b)) as Emx
    by (apply RoundTripProof.to_Z_of_Z_byte; lia).
  assert (tz mn = Z.min r (Z.min g b)) as Emn
    by (apply RoundTripProof.to_Z_of_Z_byte; lia).
  assert (tz mx <= 255) as Hmx by lia.
  assert (tz mn < tz mx) as Hlt' by lia.
  destruct (RoundTripProof.pairCheck_true mx mn Hmx Hlt'
              (RoundTripProof.pairCheck_holds mx mn Hmx Hlt')) as (Hs & Hl & Hchroma & _).
  assert (tz (of_Z r) = r) as Er by (apply RoundTripProof.to_Z_of_Z_byte; lia).
  assert (tz (of_Z g) = g) as Eg by (apply RoundTripProof.to_Z_of_Z_byte; lia).
  assert (tz (of_Z b) = b) as Eb by (apply RoundTripProof.to_Z_of_Z_byte; lia).
  pose proof (check1_hue mx mn (of_Z r) (of_Z g) (of_Z b) ltac:(lia) Hc) as Hh.
  pose proof (rgbToHsl_real_chromatic mx mn (of_Z r) (of_Z g) (of_Z b) Hmx Hlt'
                ltac:(rewrite Er, Eg, Eb; lia) ltac:(rewrite Er, Eg, Eb; lia)) as Hreal.
  rewrite Er, Eg, Eb in Hreal. rewrite Hreal.
  unfold satByte, lightByte in Hs, Hl.
  rewrite (rnd8_exact _ Hh), (rnd8_exact _ Hs), (rnd8_exact _ Hl).
  pose proof (to_Z_bounded (rnd8 (wrapHue (hueRaw (of_Z r) (of_Z g) (of_Z b) mx
                                             (of_uint63 (mx - mn)) * 42.5)%float))).
  pose proof (to_Z_bounded (rnd8 (satReal mx mn))).
  pose proof (to_Z_bounded (rnd8 (of_uint63 (mx + mn) / 2.0)%float)).
  repeat split; try lia.
  destruct (Z.eq_dec (tz (rnd8 (satReal mx mn))) 0) as [E0 | N0]; [| lia].
  exfalso. unfold satByte in Hchroma.
  replace (rnd8 (satReal mx mn)) with 0%uint63 in Hchroma
    by (apply to_Z_inj; rewrite E0; reflexivity).
  vm_compute in Hchroma. discriminate.
Qed.

End HslBytes.

(** The three roundings of [rgbToHsl] on a grey triple. *)
Lemma grey_bytes (v : Z) :
  0 <= v <= 255 ->
  let '(h, s, l) := rgbToHsl_real v v v in
  ROUND h = 0 /\ ROUND s = 0 /\ ROUND l = v.
Proof.
  intros Hv. unfold rgbToHsl_real. cbv zeta.
  rewrite RoundTripProof.model_max, RoundTripProof.model_min.
  replace (Z.max v (Z.max v v)) with v by lia.
  replace (Z.min v (Z.min v v)) with v by lia.
  rewrite Z.eqb_refl. rewrite ROUND_half by lia.
  repeat split. replace (v + v + 1) with (1 + v * 2) by lia.
  rewrite Z.div_add by lia. reflexivity.
Qed.

(** X19. On channels in [0, 255] the three results of [rgbToHsl] are
    stored into their unsigned chars without loss: the rounded hue,
    saturation and lightness each lie in [0, 255], so the stores never wrap
    around. *)
Theorem rgbToHsl_no_wrap (r g b : Z) :
  0 <= r <= 255 -> 0 <= g <= 255 -> 0 <= b <= 255 ->
  let '(h, s, l) := rgbToHsl_real r g b in
  0 <= ROUND h <= 255 /\ 0 <= ROUND s <= 255 /\ 0 <= ROUND l <= 255 /\
  rgbToHsl r g b = (ROUND h, ROUND s, ROUND l).
Proof.
  intros Hr Hg Hb. unfold rgbToHsl.
  destruct (Z.eq_dec (Z.min r (Z.min g b)) (Z.max r (Z.max g b))) as [E | N].
  - assert (g = r) by lia. assert (b = r) by lia. subst g b.
    pose proof (grey_bytes r Hr) as H.
    destruct (rgbToHsl_real r r r) as [[h s] l].
    destruct H as (Eh & Es & El). rewrite Eh, Es, El.
    rewrite !to_uchar_id by lia. repeat split; lia.
  - pose proof (HslBytes.chromatic_bytes r g b Hr Hg Hb ltac:(lia)) as H.
    destruct (rgbToHsl_real r g b) as [[h s] l].
    destruct H as (Bh & Bs & Bl).
    rewrite !to_uchar_id by lia. repeat split; lia.
Qed.

Lemma rgbToHsl_no_wrap_witness :
  let '(h, s, l) := rgbToHsl_real 255 3 0 in
  0 <= ROUND h <= 255 /\ 0 <= ROUND s <= 255 /\ 0 <= ROUND l <= 255 /\
  rgbToHsl 255 3 0 = (ROUND h, ROUND s, ROUND l).
Proof. apply (rgbToHsl_no_wrap 255 3 0); lia. Defined.

(** X20. On channels in [0, 255] the saturation byte of [rgbToHsl] is 0
    exactly for the grey triples (r = g = b): a triple with two different
    channels never takes the achromatic branch of [hslToRgb]. *)
Theorem rgbToHsl_saturation_zero (r g b : Z) :
  0 <= r <= 255 -> 0 <= g <= 255 -> 0 <= b <= 255 ->
  snd (fst (rgbToHsl r g b)) = 0 <-> r = g /\ g = b.
Proof.
  intros Hr Hg Hb. split.
  - intros Hs.
    destruct (Z.eq_dec (Z.min r (Z.min g b)) (Z.max r (Z.max g b))) as [E | N]; [lia |].
    exfalso.
    pose proof (HslBytes.chromatic_bytes r g b Hr Hg Hb ltac:(lia)) as H.
    unfold rgbToHsl in Hs.
    destruct (rgbToHsl_real r g b) as [[h s] l].
    destruct H as (_ & Bs & _). cbn [fst snd] in Hs.
    rewrite to_uchar_id in Hs by lia. lia.
  - intros (E1 & E2). subst g b. rewrite rgbToHsl_grey by exact Hr. reflexivity.
Qed.

Lemma rgbToHsl_saturation_zero_witness :
  snd (fst (rgbToHsl 100 100 100)) = 0 <-> 100 = 100 /\ 100 = 100.
Proof. apply (rgbToHsl_saturation_zero 100 100 100); lia. Defined.

(* ================================================================== *)
(** ** Reload, then refresh *)

(** Outside batch mode and without [keepTransform], [reload] leaves no
    geometric edit and no scaling in the settings. *)
Lemma reloadSettings_cleared (vs : ViewSettings) :
  keepTransform vs = false ->
  Spec.noGeometricEdit (core (Viewer.reloadSettings false vs)) /\
  scaledWidth (Viewer.reloadSettings false vs) = 0.
Proof.
  intros Hk. unfold Viewer.reloadSettings, Spec.noGeometricEdit. rewrite Hk.
  cbn. repeat split; reflexivity.
Qed.

(** X21. After [reload] has reset the settings for a new image (outside
    batch mode, [keepTransform] off), a [refresh] with colours inactive and
    no mirror layout shows the original image as it is: no scaling, rotation,
    flip or crop of the previous image is applied to it. *)
Theorem refresh_after_reload
    (transformed : float -> QImage -> QImage)
    (scaledSmooth : QImage -> Z -> Z -> AspectRatioMode -> QImage)
    (tan : float -> float) (pow : float -> float -> float)
    (mem : nat -> QRgb) (vs : ViewSettings)
    (origImage viewerImage mirrorImage : QImage) :
  keepTransform vs = false -> colorsActive vs = false ->
  Viewer.refresh transformed scaledSmooth tan pow mem (Viewer.reloadSettings false vs)
    true ImageViewer.LayNone origImage viewerImage mirrorImage = origImage.
Proof.
  intros Hk Hc.
  destruct (reloadSettings_cleared vs Hk)
    as ((Hrot & Hh & Hv & H1 & H2 & H3 & H4 & H5 & H6 & H7 & H8) & Hsw).
  unfold Viewer.refresh. cbn [negb]. rewrite Hsw. cbn [ImageViewer.nonzero Z.eqb negb].
  unfold ImageViewer.transform, ImageViewer.cropStage.
  rewrite rotateStage_zero, flipStage_none by assumption.
  rewrite cropRect_none by assumption.
  replace (colorsActive (Viewer.reloadSettings false vs)) with false
    by (unfold Viewer.reloadSettings; rewrite Hk, Hc; reflexivity).
  replace (keepTransform (Viewer.reloadSettings false vs)) with false
    by (unfold Viewer.reloadSettings; rewrite Hk; reflexivity).
  reflexivity.
Qed.

Lemma refresh_after_reload_witness :
  Viewer.refresh Sample.transformed Example.scaledSmooth Sample.tan Sample.pow
    Sample.usedMemory (Viewer.reloadSettings false Example.editedSettings)
    true ImageViewer.LayNone Sample.fourByFour nullImage nullImage = Sample.fourByFour.
Proof.
  apply (refresh_after_reload Sample.transformed Example.scaledSmooth Sample.tan Sample.pow
           Sample.usedMemory Example.editedSettings Sample.fourByFour nullImage nullImage);
    reflexivity.
Defined.

(* ================================================================== *)
(** ** The round trip on greys *)

(** X22. On a grey triple (r = g = b = v with v in [0, 255]) the round
    trip through [rgbToHsl] and [hslToRgb] is exact: the deviation of up to
    4 only concerns triples with two different channels. *)
Theorem roundTrip_grey (v : Z) :
  0 <= v <= 255 ->
  rgbToHsl v v v = (0, 0, v) /\ roundTrip v v v = (v, v, v).
Proof.
  intros Hv. split.
  - apply rgbToHsl_grey, Hv.
  - apply roundTrip_exact_on_greys, Hv.
Qed.

Lemma roundTrip_grey_witness :
  rgbToHsl 128 128 128 = (0, 0, 128) /\ roundTrip 128 128 128 = (128, 128, 128).
Proof. apply (roundTrip_grey 128). lia. Defined.

(* ================================================================== *)
(** ** Percent crops, and grading after a flip *)

Lemma percentPixels_bound (st : Settings) (extent percent : Z) :
  0 <= extent -> 0 <= percent -> extent * percent < 2 ^ 31 ->
  0 <= ImageViewer.percentPixels st extent percent /\
  100 * ImageViewer.percentPixels st extent percent <= extent * percent.
Proof.
  intros He Hp Hr. unfold ImageViewer.percentPixels.
  destruct (ImageViewer.croppingOn st); [| nia].
  rewrite to_int_small by nia.
  rewrite Z.quot_div_nonneg by nia.
  split; [apply Z.div_pos; nia | apply Z.mul_div_le; lia].
Qed.

(** X23. A crop given in percent only never empties an image of up to
    21474836 pixels on a side (a side times 100 stays in the range of
    [int]): when the four absolute crop fields are 0, the percent fields
    are not negative and the opposite insets sum to less than 100, an image
    with pixels keeps a positive width and height (the percent insets are
    rounded down). *)
Theorem transform_percent_crop_nonempty
    (transformed : float -> QImage -> QImage) (st : Settings) (img : QImage) :
  let pre := ImageViewer.flipStage st (ImageViewer.rotateStage transformed st img) in
  let out := ImageViewer.transform transformed st img in
  isNull pre = false ->
  0 < width pre -> width pre * 100 < 2 ^ 31 ->
  0 < height pre -> height pre * 100 < 2 ^ 31 ->
  cropLeft st = 0 -> cropTop st = 0 -> cropWidth st = 0 -> cropHeight st = 0 ->
  0 <= cropLeftPercent st -> 0 <= cropWidthPercent st ->
  cropLeftPercent st + cropWidthPercent st < 100 ->
  0 <= cropTopPercent st -> 0 <= cropHeightPercent st ->
  cropTopPercent st + cropHeightPercent st < 100 ->
  isNull out = false /\ 0 < width out <= width pre /\ 0 < height out <= height pre.
Proof.
  intros pre out Hnn Hw Hw' Hh Hh' E1 E2 E3 E4 Hl Hr Hlr Ht Hb Htb. subst out.
  unfold ImageViewer.transform, ImageViewer.cropStage. fold pre.
  destruct (ImageViewer.croppingOn st) eqn:Eon.
  - rewrite (cropRect_some st pre (or_intror Eon)). cbv zeta.
    rewrite E1, E2, E3, E4, !Z.add_0_l.
    destruct (percentPixels_bound st (width pre) (cropLeftPercent st)) as (L0 & L1);
      try nia.
    destruct (percentPixels_bound st (width pre) (cropWidthPercent st)) as (R0 & R1);
      try nia.
    destruct (percentPixels_bound st (height pre) (cropTopPercent st)) as (T0 & T1);
      try nia.
    destruct (percentPixels_bound st (height pre) (cropHeightPercent st)) as (B0 & B1);
      try nia.
    set (l := ImageViewer.percentPixels st (width pre) (cropLeftPercent st)) in *.
    set (r := ImageViewer.percentPixels st (width pre) (cropWidthPercent st)) in *.
    set (t := ImageViewer.percentPixels st (height pre) (cropTopPercent st)) in *.
    set (b := ImageViewer.percentPixels st (height pre) (cropHeightPercent st)) in *.
    assert (0 < width pre - l - r) as Hcw by nia.
    assert (0 < height pre - t - b) as Hch by nia.
    unfold copy. rewrite Hnn.
    destruct (Z.eqb_spec (width pre - l - r) 0); [lia |]. cbn [andb].
    destruct (Z.leb_spec (width pre - l - r) 0); [lia |].
    destruct (Z.leb_spec (height pre - t - b) 0); [lia |]. cbn [orb width height].
    unfold isNull in *. cbn [format].
    split; [exact Hnn | lia].
  - unfold ImageViewer.cropRect, ImageViewer.cropAbsolute.
    rewrite E1, E2, E3, E4, Eon. cbn. split; [exact Hnn | lia].
Qed.

Lemma transform_percent_crop_nonempty_witness :
  let out := ImageViewer.transform Sample.transformed Example.percentSettings
               Sample.fourByFour in
  isNull out = false /\ 0 < width out <= 4 /\ 0 < height out <= 4.
Proof.
  apply (transform_percent_crop_nonempty Sample.transformed Example.percentSettings
           Sample.fourByFour); try reflexivity; vm_compute; discriminate.
Defined.

Lemma map_mkBits (f : QRgb -> QRgb) (w h : Z) (g : Z -> Z -> QRgb) :
  map f (mkBits w h g) = mkBits w h (fun x y => f (g x y)).
Proof. unfold mkBits. apply map_map. Qed.

Lemma pixelAt_in_buffer (img : QImage) (x y : Z) :
  wf_image img -> 0 <= x < width img -> 0 <= y < height img ->
  (Z.to_nat (y * width img + x) <? length (bits img))%nat = true.
Proof.
  intros (_ & _ & Hlen) Hx Hy. apply Nat.ltb_lt.
  assert (0 <= y * width img + x < width img * height img) by nia.
  apply Nat2Z.inj_lt. rewrite Z2Nat.id, Hlen by lia. lia.
Qed.

(** X24. Grading and flipping commute: grading the mirrored image gives
    the mirror of the graded image, so the order of the flip of the
    geometric stage and of the grading does not show in the result. *)
Theorem colorize_mirrored
    (tan : float -> float) (pow : float -> float -> float)
    (st : Settings) (hz vt : bool) (img : QImage) :
  wf_image img ->
  ImageViewer.colorize tan pow st (mirrored hz vt img) =
  mirrored hz vt (ImageViewer.colorize tan pow st img).
Proof.
  intros Hwf. pose proof Hwf as (Hw & Hh & Hlen).
  unfold mirrored. destruct (negb hz && negb vt) eqn:E; [reflexivity |].
  unfold ImageViewer.colorize at 1. cbn [format width height bits].
  unfold hasAlphaChannel at 1. cbn [format]. fold (hasAlphaChannel img).
  rewrite map_mkBits.
  change (format (ImageViewer.colorize tan pow st img)) with (format img).
  change (width (ImageViewer.colorize tan pow st img)) with (width img).
  change (height (ImageViewer.colorize tan pow st img)) with (height img).
  f_equal. apply mkBits_ext; try assumption.
  intros x y Hx Hy.
  rewrite pixelAt_colorize. cbv zeta.
  rewrite pixelAt_in_buffer by (try assumption; destruct hz, vt; lia).
  reflexivity.
Qed.

Lemma colorize_mirrored_witness :
  ImageViewer.colorize Sample.tan Sample.pow Sample.hueSettings
    (mirrored true false Sample.twoPixels) =
  mirrored true false
    (ImageViewer.colorize Sample.tan Sample.pow Sample.hueSettings Sample.twoPixels).
Proof.
  apply (colorize_mirrored Sample.tan Sample.pow Sample.hueSettings true false
           Sample.twoPixels).
  unfold wf_image. simpl. lia.
Defined.

(* ================================================================== *)
(** ** The hue and the largest channel *)

Module HueSector.

Import PArray RoundTripCheck HueCheck.

Local Abbreviation tz := Uint63.to_Z.

(** The check, run over all the values of [delta] from 1 to 255. *)
Lemma allFrom_sectorRow : allFrom 255 1 sectorRow = true.
Proof. vm_cast_no_check (@eq_refl bool true). Qed.

Lemma sectorCheck_holds (delta k : int) :
  1 <= tz delta <= 255 -> tz k <= 2 * tz delta -> sectorCheck delta k = true.
Proof.
  intros Hd Hk. pose proof (to_Z_bounded k) as Bk.
  assert (tz (2 * delta + 1)%uint63 = 2 * tz delta + 1) as E.
  { rewrite RoundTripProof.to_Z_add_small; rewrite Uint63.mul_spec;
      change (tz 2%uint63) with 2; change (tz 1%uint63) with 1;
      rewrite Z.mod_small; rewrite ?RoundTripProof.wB_value; lia. }
  assert (tz 1%uint63 + Z.of_nat 255 < wB) as B0
    by (rewrite RoundTripProof.wB_value; reflexivity).
  assert (tz 1%uint63 <= tz delta < tz 1%uint63 + Z.of_nat 255) as Rd
    by (change (tz 1%uint63) with 1; lia).
  assert (tz 0%uint63 + Z.of_nat (Z.to_nat (tz (2 * delta + 1)%uint63)) < wB) as B1
    by (change (tz 0%uint63) with 0; rewrite E, RoundTripProof.wB_value; lia).
  assert (tz 0%uint63 <= tz k < tz 0%uint63 + Z.of_nat (Z.to_nat (tz (2 * delta + 1)%uint63)))
    as Rk by (change (tz 0%uint63) with 0; rewrite E; lia).
  exact (RoundTripProof.allFrom_true _ _ _
           (RoundTripProof.allFrom_true _ _ _ allFrom_sectorRow B0 delta Rd) B1 k Rk).
Qed.

(** What the check says of the three hue bytes. *)
Lemma sectorCheck_true (delta k : int) :
  sectorCheck delta k = true ->
  (tz (redHue delta k) <= 43 \/ 213 <= tz (redHue delta k) <= 255) /\
  43 <= tz (greenHue delta k) <= 128 /\
  128 <= tz (blueHue delta k) <= 213.
Proof.
  unfold sectorCheck. cbv zeta.
  destruct (lebP (redHue delta k) 43) as [R1 | R1];
    destruct (lebP 213 (redHue delta k)) as [R2 | R2];
    destruct (lebP (redHue delta k) 255) as [R3 | R3]; cbn [orb andb]; try discriminate;
    (destruct (lebP 43 (greenHue delta k)) as [G1 | G1]; cbn [andb]; [| discriminate]);
    (destruct (lebP (greenHue delta k) 128) as [G2 | G2]; [| discriminate]);
    (destruct (lebP 128 (blueHue delta k)) as [B1 | B1]; cbn [andb]; [| discriminate]);
    (destruct (lebP (blueHue delta k) 213) as [B2 | B2]; [| discriminate]);
    intros _;
    change (tz 43%uint63) with 43 in *; change (tz 213%uint63) with 213 in *;
    change (tz 255%uint63) with 255 in *; change (tz 128%uint63) with 128 in *; lia.
Qed.

(** A difference of two channels, shifted by [delta]. *)
Lemma sdiff_shift (x y delta : int) :
  tz delta <= 255 -> - tz delta <= tz x - tz y <= tz delta ->
  sdiff x y = sdiff (of_Z (tz x - tz y + tz delta)) delta /\
  tz (of_Z (tz x - tz y + tz delta)) <= 2 * tz delta.
Proof.
  intros Hd Hxy. pose proof (to_Z_bounded delta).
  assert (tz (of_Z (tz x - tz y + tz delta)) = tz x - tz y + tz delta) as E
    by (apply RoundTripProof.to_Z_of_Z_small; rewrite RoundTripProof.wB_value; lia).
  split; [| lia].
  rewrite <- !RoundTripProof.Z2F_sub, E. f_equal. lia.
Qed.

(** The hue byte of a triple whose largest channel is [mx] and smallest
    [mn < mx], by the branch [rgbToHsl] takes. *)
Lemma hue_sector (mx mn r g b : int) :
  tz mx <= 255 -> tz mn < tz mx ->
  Z.max (tz r) (Z.max (tz g) (tz b)) = tz mx ->
  Z.min (tz r) (Z.min (tz g) (tz b)) = tz mn ->
  let h := tz (rnd8 (wrapHue (hueRaw r g b mx (of_uint63 (mx - mn)) * 42.5)%float)) in
  h <= 255 /\
  (tz r = tz mx -> h <= 43 \/ 213 <= h) /\
  (tz r <> tz mx -> tz g = tz mx -> 43 <= h <= 128) /\
  (tz r <> tz mx -> tz g <> tz mx -> 128 <= h <= 213).
Proof.
  intros Hmx Hlt Hmax Hmin.
  pose proof (to_Z_bounded mn) as Bn.
  pose proof (RoundTripProof.to_Z_delta mx mn Hlt) as Ed.
  set (delta := (mx - mn)%uint63) in *.
  assert (1 <= tz delta <= 255) as Hd by lia.
  assert (forall x y, tz mn <= tz x <= tz mx -> tz mn <= tz y <= tz mx ->
            let k := of_Z (tz x - tz y + tz delta) in
            (sdiff x y / of_uint63 delta)%float = quotient delta k /\
            sectorCheck delta k = true) as Hq.
  { intros x y Hx Hy k. subst k.
    destruct (sdiff_shift x y delta ltac:(lia) ltac:(lia)) as (Es & Hk).
    split; [unfold quotient; rewrite <- Es; reflexivity |].
    apply sectorCheck_holds; assumption. }
  unfold hueRaw. rewrite !RoundTripProof.eqb_to_Z.
  destruct (Z.eqb_spec (tz r) (tz mx)) as [Er | Nr];
    [| destruct (Z.eqb_spec (tz g) (tz mx)) as [Eg | Ng]].
  - destruct (Hq g b ltac:(lia) ltac:(lia)) as (Eq & Hc). cbv zeta in Eq, Hc.
    rewrite Eq. apply sectorCheck_true in Hc. destruct Hc as (Hr & _ & _).
    unfold redHue in Hr. cbv zeta. repeat split; intros; try lia.
  - destruct (Hq b r ltac:(lia) ltac:(lia)) as (Eq & Hc). cbv zeta in Eq, Hc.
    rewrite Eq. apply sectorCheck_true in Hc. destruct Hc as (_ & Hg & _).
    unfold greenHue in Hg. cbv zeta. repeat split; intros; try lia.
  - destruct (Hq r g ltac:(lia) ltac:(lia)) as (Eq & Hc). cbv zeta in Eq, Hc.
    rewrite Eq. apply sectorCheck_true in Hc. destruct Hc as (_ & _ & Hb).
    unfold blueHue in Hb. cbv zeta. repeat split; intros; try lia.
Qed.

End HueSector.

(** X25. The hue byte of [rgbToHsl] follows the largest channel: for
    channels in [0, 255] that are not all equal, the hue lies in [0, 43] or
    [213, 255] when red is the largest channel, in [43, 128] when green is
    the largest and red is not, and in [128, 213] when blue alone is the
    largest. *)
Theorem rgbToHsl_hue_sector (r g b : Z) :
  0 <= r <= 255 -> 0 <= g <= 255 -> 0 <= b <= 255 ->
  Z.min r (Z.min g b) < Z.max r (Z.max g b) ->
  let h := fst (fst (rgbToHsl r g b)) in
  let mx := Z.max r (Z.max g b) in
  (r = mx -> h <= 43 \/ 213 <= h) /\
  (r <> mx -> g = mx -> 43 <= h <= 128) /\
  (r <> mx -> g <> mx -> 128 <= h <= 213).
Proof.
  intros Hr Hg Hb Hlt h mx. subst h mx.
  set (mx := of_Z (Z.max r (Z.max g b))).
  set (mn := of_Z (Z.min r (Z.min g b))).
  assert (Uint63.to_Z mx = Z.max r (Z.max g b)) as Emx
    by (apply RoundTripProof.to_Z_of_Z_byte; lia).
  assert (Uint63.to_Z mn = Z.min r (Z.min g b)) as Emn
    by (apply RoundTripProof.to_Z_of_Z_byte; lia).
  assert (Uint63.to_Z (of_Z r) = r) as Er by (apply RoundTripProof.to_Z_of_Z_byte; lia).
  assert (Uint63.to_Z (of_Z g) = g) as Eg by (apply RoundTripProof.to_Z_of_Z_byte; lia).
  assert (Uint63.to_Z (of_Z b) = b) as Eb by (apply RoundTripProof.to_Z_of_Z_byte; lia).
  assert (Uint63.to_Z mx <= 255) as Hmx by lia.
  assert (Uint63.to_Z mn < Uint63.to_Z mx) as Hlt' by lia.
  pose proof (HueSector.hue_sector mx mn (of_Z r) (of_Z g) (of_Z b) Hmx Hlt'
                ltac:(rewrite Er, Eg, Eb; lia) ltac:(rewrite Er, Eg, Eb; lia)) as Hsec.
  pose proof (RoundTripProof.rgbToHsl_chromatic mx mn Hmx Hlt' (of_Z r) (of_Z g) (of_Z b)
                ltac:(rewrite Er, Eg, Eb; lia) ltac:(rewrite Er, Eg, Eb; lia)) as Hhsl.
  rewrite Er, Eg, Eb in Hhsl. rewrite Hhsl. cbn [fst].
  cbv zeta in Hsec. destruct Hsec as (Hh & H1 & H2 & H3).
  rewrite (RoundTripProof.rnd8_ok _ Hh).
  rewrite Er, Emx in H1. rewrite Er, Eg, Emx in H2, H3.
  split; [exact H1 | split; [exact H2 | exact H3]].
Qed.

Lemma rgbToHsl_hue_sector_witness :
  let h := fst (fst (rgbToHsl 10 200 90)) in
  let mx := Z.max 10 (Z.max 200 90) in
  (10 = mx -> h <= 43 \/ 213 <= h) /\
  (10 <> mx -> 200 = mx -> 43 <= h <= 128) /\
  (10 <> mx -> 200 <> mx -> 128 <= h <= 213).
Proof. apply (rgbToHsl_hue_sector 10 200 90); lia. Defined.

